(** * Crossword CSP solver ([generate.py]): shallow embedding and properties

    The solver of [CrosswordCreator] is embedded function by function:
    [enforce_node_consistency], [revise], [ac3], [assignment_complete],
    [consistent], [order_domain_values], [select_unassigned_variable],
    [backtrack] and [solve], and the rendering functions [letter_grid] and
    [print].  [save] and [main] (image library, files, command line) are
    left out.

    Modelling conventions.
    - A Python [set] is a duplicate-free list in its iteration order;
      [s.remove(w)] deletes [w] and keeps the order of the rest.
    - A Python [dict] is an association list in insertion order.
    - [self.domains] and the [assignment] dict are mutable objects: every
      function that mutates one takes its contents and returns the new
      contents (explicit state passing).  [backtrack] only ever returns
      [None] or a reference to the one assignment dict it was given, so its
      result is a tag ([RetNone] / [RetAssignment]) next to the final
      contents of that dict.
    - Python exceptions are values of [exn]; a computation that may raise
      has type [res A].
    - The iteration order of a set or dict is the order of the list that
      represents it; a copy iterates in the order of the original. *)

From Stdlib Require Import List String Ascii Arith ZArith Bool Lia Permutation.
From Stdlib Require Import Sorted Mergesort.
Import ListNotations.

(** ** Exceptions *)

Inductive exn : Type :=
| KeyError      (* dict lookup of a missing key, [dict.pop] of a missing key *)
| IndexError    (* string subscript out of range *)
| TypeError     (* subscript of [None] *)
| OutOfFuel.    (* artefact of the embedding: recursion budget exhausted *)

Inductive res (A : Type) : Type :=
| Ok (a : A)
| Raise (e : exn).

Arguments Ok {A} a.
Arguments Raise {A} e.

Definition bind {A B : Type} (c : res A) (k : A -> res B) : res B :=
  match c with
  | Ok a => k a
  | Raise e => Raise e
  end.

Notation "x <- c ;; k" := (bind c (fun x => k))
  (at level 61, c at next level, right associativity).
Notation "' p <- c ;; k" := (bind c (fun x => match x with p => k end))
  (at level 61, p pattern, c at next level, right associativity).

(** ** The crossword model (module [crossword], imported by [generate.py]) *)

Inductive Direction : Type := ACROSS | DOWN.

(** Modelled from the spec: class [Variable] of the missing module
    [crossword] -- "a crossword slot: starting row, starting column, length
    (number of letters), and direction"; identity is structural.  (Named
    [Var] because [Variable] is a vernacular keyword.) *)
Record Var : Type := mkVar
  { var_i : nat; var_j : nat; var_direction : Direction; var_length : nat }.

Definition Var_eq_dec (x y : Var) : {x = y} + {x <> y}.
Proof.
  decide equality; try apply Nat.eq_dec.
  decide equality.
Defined.

(** Modelled from the spec: class [Crossword] of the missing module
    [crossword] -- the set of variables, the vocabulary, and the overlap
    table: "for an ordered pair of distinct variables (x, y) either no
    constraint or a pair of integer offsets (ix, iy)". *)
Record Crossword : Type := mkCrossword
  { variables : list Var;
    words : list string;
    overlaps : Var -> Var -> option (nat * nat) }.

Definition var_mem (x : Var) (l : list Var) : bool :=
  if in_dec Var_eq_dec x l then true else false.

(** Modelled from the spec: [self.crossword.overlaps[(x, y)]]; the table has
    an entry exactly for the ordered pairs of distinct variables. *)
Definition overlaps_get (m : Crossword) (x y : Var) : res (option (nat * nat)) :=
  if Var_eq_dec x y then Raise KeyError
  else if var_mem x (variables m) && var_mem y (variables m)
       then Ok (overlaps m x y)
       else Raise KeyError.

(** Modelled from the spec: [self.crossword.neighbors(x)] -- "y is a
    neighbor of x iff (x, y) has a real (non-null) overlap constraint and
    x <> y". *)
Definition neighbors (m : Crossword) (x : Var) : list Var :=
  filter (fun y => if Var_eq_dec y x then false
                   else match overlaps m x y with
                        | Some _ => true
                        | None => false
                        end)
         (variables m).

(** ** Words and sets of words *)

(** [s[i]] on a Python string, for a non-negative [i]. *)
Definition index (s : string) (i : nat) : res ascii :=
  match String.get i s with
  | Some c => Ok c
  | None => Raise IndexError
  end.

(** [w in s] *)
Definition set_mem (w : string) (s : list string) : bool :=
  if in_dec string_dec w s then true else false.

(** [s.remove(w)]; at every call site [w] was just read from a copy of [s]. *)
Definition set_remove (w : string) (s : list string) : list string :=
  remove string_dec w s.

(** ** The domain store [self.domains] *)

Definition domains : Type := list (Var * list string).

Definition dom_keys (d : domains) : list Var := map fst d.

(** [self.domains[x]] *)
Fixpoint dom_get (d : domains) (x : Var) : res (list string) :=
  match d with
  | [] => Raise KeyError
  | (k, s) :: r => if Var_eq_dec x k then Ok s else dom_get r x
  end.

(** the set stored under [x] now holds [s] (in-place mutation of that set) *)
Fixpoint dom_set (d : domains) (x : Var) (s : list string) : domains :=
  match d with
  | [] => []
  | (k, s0) :: r =>
      if Var_eq_dec x k then (k, s) :: r else (k, s0) :: dom_set r x s
  end.

(** [__init__]: every variable gets a copy of the vocabulary. *)
Definition init_domains (m : Crossword) : domains :=
  map (fun var => (var, words m)) (variables m).

(** ** [enforce_node_consistency] *)

(** inner loop: [for word in all_words.copy(): if len(word) != n: remove] *)
Definition enforce_words (length_of_node : nat) (copy s : list string)
  : list string :=
  fold_left
    (fun s word =>
       if negb (String.length word =? length_of_node)
       then set_remove word s else s)
    copy s.

(** outer loop over [self.domains.keys()]: the set of each key is mutated
    in place. *)
Definition enforce_node_consistency (d : domains) : domains :=
  map (fun '(node, all_words) =>
         (node, enforce_words (var_length node) all_words all_words))
      d.

(** ** [revise] *)

(** [constraints[0]], [constraints[1]] *)
Definition subscript0 (c : option (nat * nat)) : res nat :=
  match c with Some (a, _) => Ok a | None => Raise TypeError end.
Definition subscript1 (c : option (nat * nat)) : res nat :=
  match c with Some (_, b) => Ok b | None => Raise TypeError end.

(** body of the inner loop: [true] when [check] makes [is_satisfied] true *)
Definition supports (constraints : option (nat * nat))
           (possible_value check : string) : res bool :=
  if string_dec possible_value check then Ok false
  else
    c0 <- subscript0 constraints ;;
    a <- index possible_value c0 ;;
    c1 <- subscript1 constraints ;;
    b <- index check c1 ;;
    Ok (if ascii_dec a b then true else false).

(** inner loop [for check in domain_2], with its [break] *)
Fixpoint find_support (constraints : option (nat * nat))
         (possible_value : string) (domain_2 : list string) : res bool :=
  match domain_2 with
  | [] => Ok false
  | check :: rest =>
      s <- supports constraints possible_value check ;;
      if s then Ok true else find_support constraints possible_value rest
  end.

(** outer loop [for possible_value in domain_1.copy()]; the state is the
    current contents of [self.domains[x]] and [is_revised] *)
Fixpoint revise_loop (constraints : option (nat * nat))
         (copy domain_2 : list string) (dx : list string) (is_revised : bool)
  : res (list string * bool) :=
  match copy with
  | [] => Ok (dx, is_revised)
  | possible_value :: rest =>
      is_satisfied <- find_support constraints possible_value domain_2 ;;
      if is_satisfied
      then revise_loop constraints rest domain_2 dx is_revised
      else revise_loop constraints rest domain_2
                       (set_remove possible_value dx) true
  end.

Definition revise (m : Crossword) (d : domains) (x y : Var)
  : res (bool * domains) :=
  constraints <- overlaps_get m x y ;;
  domain_1 <- dom_get d x ;;
  domain_2 <- dom_get d y ;;
  '(dx, is_revised) <- revise_loop constraints domain_1 domain_2 domain_1 false ;;
  Ok (is_revised, dom_set d x dx).

(** ** [ac3] *)

(** the initial queue built when [arcs] is [None] or empty *)
Definition all_arcs (m : Crossword) (d : domains) : list (Var * Var) :=
  flat_map
    (fun var =>
       map (fun neighbor => (var, neighbor))
           (filter (fun neighbor => if Var_eq_dec neighbor var then false else true)
                   (neighbors m var)))
    (dom_keys d).

(** arcs appended after a revision of [x] against [y] *)
Definition requeue (m : Crossword) (x y : Var) : list (Var * Var) :=
  map (fun neighbor => (neighbor, x))
      (filter (fun neighbor => if Var_eq_dec neighbor y then false else true)
              (neighbors m x)).

(** the [while len(arcs) != 0] loop; [fuel] bounds the number of turns *)
Fixpoint ac3_loop (m : Crossword) (fuel : nat) (d : domains)
         (arcs : list (Var * Var)) : res (bool * domains) :=
  match fuel with
  | O => Raise OutOfFuel
  | S fuel' =>
      match arcs with
      | [] => Ok (true, d)
      | (x, y) :: rest =>
          '(revised, d') <- revise m d x y ;;
          if revised
          then
            dx <- dom_get d' x ;;
            if List.length dx =? 0
            then Ok (false, d')
            else ac3_loop m fuel' d' (rest ++ requeue m x y)
          else ac3_loop m fuel' d' rest
      end
  end.

Definition total_size (d : domains) : nat :=
  list_sum (map (fun b => List.length (snd b)) d).

(** every turn either removes a value (and queues at most one arc per
    variable) or only pops an arc, so this many turns are enough *)
Definition ac3_fuel (m : Crossword) (d : domains) (arcs : list (Var * Var)) : nat :=
  S (List.length arcs + total_size d * List.length (variables m)).

Definition ac3 (m : Crossword) (d : domains) (arcs : option (list (Var * Var)))
  : res (bool * domains) :=
  let arcs :=
    match arcs with
    | None | Some [] => all_arcs m d
    | Some l => l
    end in
  ac3_loop m (ac3_fuel m d arcs) d arcs.

(** ** The assignment dict *)

Definition assignment : Type := list (Var * string).

Definition asg_keys (a : assignment) : list Var := map fst a.
Definition asg_values (a : assignment) : list string := map snd a.

(** [x in assignment] *)
Definition asg_mem (x : Var) (a : assignment) : bool := var_mem x (asg_keys a).

(** [assignment[x]] *)
Fixpoint asg_get (a : assignment) (x : Var) : res string :=
  match a with
  | [] => Raise KeyError
  | (k, w) :: r => if Var_eq_dec x k then Ok w else asg_get r x
  end.

(** [assignment[x] = v]: a new key goes last, an old key keeps its place *)
Fixpoint asg_set (a : assignment) (x : Var) (v : string) : assignment :=
  match a with
  | [] => [(x, v)]
  | (k, w) :: r =>
      if Var_eq_dec x k then (k, v) :: r else (k, w) :: asg_set r x v
  end.

(** [assignment.pop(x)] *)
Fixpoint asg_pop (a : assignment) (x : Var) : res assignment :=
  match a with
  | [] => Raise KeyError
  | (k, w) :: r =>
      if Var_eq_dec x k then Ok r
      else r' <- asg_pop r x ;; Ok ((k, w) :: r')
  end.

(** ** [assignment_complete] and [consistent] *)

Definition assignment_complete (d : domains) (a : assignment) : bool :=
  forallb (fun i => asg_mem i a) (dom_keys d).

(** loop [for neighbor in neighbors] of [consistent] *)
Fixpoint consistent_neighbors (m : Crossword) (a : assignment) (var : Var)
         (nbs : list Var) : res bool :=
  match nbs with
  | [] => Ok true
  | neighbor :: rest =>
      the_constraint <- overlaps_get m var neighbor ;;
      match the_constraint with
      | None => consistent_neighbors m a var rest
      | Some (c0, c1) =>
          var_word <- asg_get a var ;;
          neighbor_word <- asg_get a neighbor ;;
          l <- index var_word c0 ;;
          r <- index neighbor_word c1 ;;
          if ascii_dec l r
          then consistent_neighbors m a var rest
          else Ok false
      end
  end.

(** loop [for var in assignment.keys()] of [consistent] *)
Fixpoint consistent_loop (m : Crossword) (d : domains) (a : assignment)
         (keys : list Var) : res bool :=
  match keys with
  | [] => Ok true
  | var :: rest =>
      w <- asg_get a var ;;
      dv <- dom_get d var ;;
      if set_mem w dv
      then
        ok <- consistent_neighbors m a var
                (filter (fun neighbor => asg_mem neighbor a) (neighbors m var)) ;;
        if ok then consistent_loop m d a rest else Ok false
      else Ok false
  end.

Definition consistent (m : Crossword) (d : domains) (a : assignment) : res bool :=
  consistent_loop m d a (asg_keys a).

(** ** [order_domain_values] *)

(** the function returns [False] or a list *)
Inductive ordered : Type :=
| OdvFalse
| OdvList (l : list string).

(** [not value_candidates] *)
Definition falsy (o : ordered) : bool :=
  match o with
  | OdvFalse => true
  | OdvList [] => true
  | OdvList (_ :: _) => false
  end.

Definition ordered_list (o : ordered) : list string :=
  match o with
  | OdvFalse => []
  | OdvList l => l
  end.

(** [[value for neighbor in the_neighbors for value in self.domains[neighbor]]] *)
Fixpoint neighboring_values (d : domains) (the_neighbors : list Var)
  : res (list string) :=
  match the_neighbors with
  | [] => Ok []
  | neighbor :: rest =>
      s <- dom_get d neighbor ;;
      tl <- neighboring_values d rest ;;
      Ok (s ++ tl)
  end.

(** [counts_dict]: [count -> list of values], in insertion order *)
Definition counts_dict : Type := list (nat * list string).

(** [if count in counts_dict: counts_dict[count].append(v)
     else: counts_dict[count] = [v]] *)
Fixpoint counts_add (cd : counts_dict) (count : nat) (v : string) : counts_dict :=
  match cd with
  | [] => [(count, [v])]
  | (k, l) :: r =>
      if k =? count then (k, l ++ [v]) :: r
      else (k, l) :: counts_add r count v
  end.

(** [counts_dict[i]], only used with keys of the dict *)
Fixpoint counts_get (cd : counts_dict) (i : nat) : list string :=
  match cd with
  | [] => []
  | (k, l) :: r => if k =? i then l else counts_get r i
  end.

Definition conflict_count (neighboring : list string) (v : string) : nat :=
  count_occ string_dec neighboring v.

(** the loop [for one_value in possible_values], filing each value under
    its count *)
Definition grouped (score : string -> nat) (vs : list string) (cd : counts_dict)
  : counts_dict :=
  fold_left (fun cd one_value => counts_add cd (score one_value) one_value) vs cd.

Definition order_domain_values (m : Crossword) (d : domains) (var : Var)
           (a : assignment) : res ordered :=
  if asg_mem var a then Ok OdvFalse
  else
    let the_neighbors := neighbors m var in
    possible_values <- dom_get d var ;;
    neighboring <- neighboring_values d the_neighbors ;;
    let counts := grouped (conflict_count neighboring) possible_values [] in
    let sorted_counts := NatSort.sort (map fst counts) in
    Ok (OdvList (flat_map (counts_get counts) sorted_counts)).

(** ** [select_unassigned_variable] *)

(** an [int], or [float("inf")] *)
Inductive num : Type :=
| Fin (n : nat)
| Inf.

Definition num_lt (n : nat) (b : num) : bool :=
  match b with Fin k => n <? k | Inf => true end.
Definition num_eq (n : nat) (b : num) : bool :=
  match b with Fin k => n =? k | Inf => false end.

(** first loop; [min_remaining_values] is never assigned again *)
Definition select_candidates (d : domains) (a : assignment) : list Var :=
  let min_remaining_values := Inf in
  fold_left
    (fun candidates '(i, values) =>
       if negb (asg_mem i a)
       then
         let candidates :=
           if num_lt (List.length values) min_remaining_values
           then [i] else candidates in
         if num_eq (List.length values) min_remaining_values
         then candidates ++ [i] else candidates
       else candidates)
    d [].

(** second loop; [highest_degree] is never assigned again *)
Definition select_by_degree (m : Crossword) (candidates : list Var) : option Var :=
  let highest_degree := (-1)%Z in
  fold_left
    (fun highest_degree_vertex i =>
       if (highest_degree <? Z.of_nat (List.length (neighbors m i)))%Z
       then Some i else highest_degree_vertex)
    candidates None.

(** returns a variable, or [None] *)
Definition select_unassigned_variable (m : Crossword) (d : domains)
           (a : assignment) : option Var :=
  match select_candidates d a with
  | [c] => Some c
  | candidates => select_by_degree m candidates
  end.

(** ** [backtrack] and [solve] *)

Inductive retval : Type :=
| RetNone          (* [None] *)
| RetAssignment.   (* the assignment dict itself *)

Definition stdout : Type := list string.

Definition something_is_off : string := "something is off.".

(** the loop [for value in value_candidates]; [recurse] is the recursive
    call of [backtrack] on the shared assignment *)
Fixpoint try_values (m : Crossword) (d : domains)
         (recurse : assignment -> stdout -> res (retval * assignment * stdout))
         (possible_assignment : Var) (value_candidates : list string)
         (a : assignment) (out : stdout)
  : res (retval * assignment * stdout) :=
  match value_candidates with
  | [] => Ok (RetNone, a, out)
  | value :: rest =>
      if set_mem value (asg_values a)
      then try_values m d recurse possible_assignment rest a out
      else
        '(is_done, a1, out1) <- recurse (asg_set a possible_assignment value) out ;;
        match is_done with
        | RetNone =>
            a2 <- asg_pop a1 possible_assignment ;;
            try_values m d recurse possible_assignment rest a2 out1
        | RetAssignment =>
            _ <- consistent m d a1 ;;
            Ok (RetAssignment, a1, out1)
        end
  end.

Fixpoint backtrack (m : Crossword) (d : domains) (fuel : nat)
         (a : assignment) (out : stdout) : res (retval * assignment * stdout) :=
  match fuel with
  | O => Raise OutOfFuel
  | S fuel' =>
      c <- consistent m d a ;;
      if negb c then Ok (RetNone, a, out)
      else if assignment_complete d a then Ok (RetAssignment, a, out)
      else
        match select_unassigned_variable m d a with
        | None =>
            (* [self.domains[None]] inside [order_domain_values] *)
            Raise KeyError
        | Some possible_assignment =>
            value_candidates <- order_domain_values m d possible_assignment a ;;
            if falsy value_candidates
            then Ok (RetAssignment, a, out ++ [something_is_off])
            else try_values m d (backtrack m d fuel') possible_assignment
                            (ordered_list value_candidates) a out
        end
  end.

(** one level of recursion per unassigned variable, plus the final call *)
Definition backtrack_fuel (d : domains) : nat := S (List.length d).

(** [solve]: the result of [ac3] is discarded *)
Definition solve (m : Crossword) : res (option assignment * stdout) :=
  let d1 := enforce_node_consistency (init_domains m) in
  '(_, d2) <- ac3 m d1 None ;;
  '(ret, a, out) <- backtrack m d2 (backtrack_fuel d2) [] [] ;;
  Ok (match ret with
      | RetNone => None
      | RetAssignment => Some a
      end, out).

(** ** [letter_grid] and [print] *)

(** the 2D array [letters]: a cell is [None] or a letter *)
Definition grid : Type := list (list (option ascii)).

(** [l[n]] on a Python list, for a non-negative [n] *)
Definition list_get {A : Type} (l : list A) (n : nat) : res A :=
  match nth_error l n with
  | Some x => Ok x
  | None => Raise IndexError
  end.

(** [l[n] = x] on a Python list, for a non-negative [n] *)
Fixpoint list_set {A : Type} (l : list A) (n : nat) (x : A) : res (list A) :=
  match l, n with
  | [], _ => Raise IndexError
  | _ :: r, O => Ok (x :: r)
  | y :: r, S n' => r' <- list_set r n' x ;; Ok (y :: r')
  end.

(** [letters[i][j] = c]: the row [letters[i]] is fetched and mutated in
    place *)
Definition grid_set (letters : grid) (i j : nat) (c : ascii) : res grid :=
  row <- list_get letters i ;;
  row' <- list_set row j (Some c) ;;
  list_set letters i row'.

(** [variable.i + (k if direction == Variable.DOWN else 0)] *)
Definition cell_row (variable : Var) (k : nat) : nat :=
  var_i variable + match var_direction variable with DOWN => k | ACROSS => 0 end.

(** [variable.j + (k if direction == Variable.ACROSS else 0)] *)
Definition cell_col (variable : Var) (k : nat) : nat :=
  var_j variable + match var_direction variable with ACROSS => k | DOWN => 0 end.

(** loop [for k in range(len(word))] *)
Fixpoint write_letters (letters : grid) (variable : Var) (word : string)
         (ks : list nat) : res grid :=
  match ks with
  | [] => Ok letters
  | k :: rest =>
      c <- index word k ;;
      letters' <- grid_set letters (cell_row variable k) (cell_col variable k) c ;;
      write_letters letters' variable word rest
  end.

(** loop [for variable, word in assignment.items()] *)
Fixpoint write_words (letters : grid) (a : assignment) : res grid :=
  match a with
  | [] => Ok letters
  | (variable, word) :: rest =>
      letters' <- write_letters letters variable word
                                (seq 0 (String.length word)) ;;
      write_words letters' rest
  end.

(** [letter_grid]; [height] and [width] stand for [self.crossword.height]
    and [self.crossword.width], attributes of the missing class
    [Crossword] *)
Definition letter_grid (height width : nat) (a : assignment) : res grid :=
  write_words (repeat (repeat None width) height) a.

(** the text printed for a blocked cell *)
Definition block : string := "█".

(** [letters[i][j] or " "] *)
Definition cell_text (c : option ascii) : string :=
  match c with
  | Some ch => String ch EmptyString
  | None => " "
  end.

(** loop [for j in range(width)] of [print]: the pieces printed with
    [end=""] on line [i] *)
Fixpoint print_cells (structure : list (list bool)) (letters : grid)
         (i : nat) (js : list nat) : res (list string) :=
  match js with
  | [] => Ok []
  | j :: rest =>
      srow <- list_get structure i ;;
      open <- list_get srow j ;;
      piece <- (if open
                then lrow <- list_get letters i ;;
                     c <- list_get lrow j ;;
                     Ok (cell_text c)
                else Ok block) ;;
      tl <- print_cells structure letters i rest ;;
      Ok (piece :: tl)
  end.

(** loop [for i in range(height)] of [print]: one list of pieces per
    line, each line ended by [print()] *)
Fixpoint print_rows (structure : list (list bool)) (letters : grid)
         (width : nat) (rows : list nat) : res (list (list string)) :=
  match rows with
  | [] => Ok []
  | i :: rest =>
      line <- print_cells structure letters i (seq 0 width) ;;
      tl <- print_rows structure letters width rest ;;
      Ok (line :: tl)
  end.

(** [print]; [structure] stands for [self.crossword.structure], the
    table of open cells of the missing class [Crossword] *)
Definition print (height width : nat) (structure : list (list bool))
           (a : assignment) : res (list (list string)) :=
  letters <- letter_grid height width a ;;
  print_rows structure letters width (seq 0 height).

(** ** Small crosswords used as test inputs *)

Local Open Scope string_scope.

(** a three-letter slot across the top row and one down the second column:
    they share the cell (0, 1) *)
Definition slot_across : Var := mkVar 0 0 ACROSS 3.
Definition slot_down : Var := mkVar 0 1 DOWN 3.
(** a second three-letter across slot that crosses nothing *)
Definition slot_apart : Var := mkVar 4 0 ACROSS 3.

Definition no_overlaps : Var -> Var -> option (nat * nat) := fun _ _ => None.

Definition crossing_overlaps (x y : Var) : option (nat * nat) :=
  if Var_eq_dec x slot_across then
    if Var_eq_dec y slot_down then Some (1, 0) else None
  else if Var_eq_dec x slot_down then
    if Var_eq_dec y slot_across then Some (0, 1) else None
  else None.

(** one slot of length 3, no word of length 3 *)
Definition puzzle_short : Crossword :=
  mkCrossword [slot_across] ["ab"] no_overlaps.

(** one slot of length 3, spec scenario: vocabulary cat, dog, ab *)
Definition puzzle_single : Crossword :=
  mkCrossword [slot_across] ["cat"; "dog"; "ab"] no_overlaps.

(** two crossing slots, spec scenario: vocabulary cat, art *)
Definition puzzle_cross : Crossword :=
  mkCrossword [slot_across; slot_down] ["cat"; "art"] crossing_overlaps.

(** two crossing slots whose shared letters can never agree *)
Definition puzzle_clash : Crossword :=
  mkCrossword [slot_across; slot_down] ["cat"; "dog"] crossing_overlaps.

(** two slots that do not cross, a single word *)
Definition puzzle_twin : Crossword :=
  mkCrossword [slot_across; slot_apart] ["cat"] no_overlaps.

(** a four-letter slot that crosses nothing *)
Definition slot_long : Var := mkVar 2 0 ACROSS 4.

(** two slots that do not cross; one three-letter word, two four-letter
    words: after node consistency the first slot has the smaller domain *)
Definition puzzle_uneven : Crossword :=
  mkCrossword [slot_across; slot_long] ["cat"; "door"; "bear"] no_overlaps.

Local Close Scope string_scope.

(** ** Well-formedness of the inputs (all decidable) *)

Fixpoint nodupb (l : list Var) : bool :=
  match l with
  | [] => true
  | x :: r => negb (var_mem x r) && nodupb r
  end.

(** a real overlap of [x] and [y] points inside both slots and is stored
    symmetrically *)
Definition overlap_okb (m : Crossword) (x y : Var) : bool :=
  if Var_eq_dec x y then true
  else match overlaps m x y with
       | None => true
       | Some (ix, iy) =>
           (ix <? var_length x) && (iy <? var_length y) &&
           match overlaps m y x with
           | Some (a, b) => (a =? iy) && (b =? ix)
           | None => false
           end
       end.

Definition wf_model (m : Crossword) : bool :=
  nodupb (variables m) &&
  forallb (fun x => forallb (overlap_okb m x) (variables m)) (variables m).

(** every word of every domain has the length of its slot *)
Definition node_consistent (d : domains) : bool :=
  forallb (fun b => forallb (fun w => String.length w =? var_length (fst b)) (snd b)) d.

(** ** Pure counterparts used in the statements *)

(** [w] supports [v] for the offsets [c]: a different word with the same
    letter at the crossing *)
Definition supportsb (c : option (nat * nat)) (v w : string) : bool :=
  if string_dec v w then false
  else match c with
       | Some (ix, iy) =>
           match String.get ix v, String.get iy w with
           | Some a, Some b => if ascii_dec a b then true else false
           | _, _ => false
           end
       | None => false
       end.

Definition has_support (c : option (nat * nat)) (v : string) (dy : list string) : bool :=
  existsb (supportsb c v) dy.

(** arc (x, y) is consistent in [d]: every value of [x] has a support in [y] *)
Definition arc_ok (m : Crossword) (d : domains) (x y : Var) : bool :=
  match dom_get d x, dom_get d y with
  | Ok dx, Ok dy => forallb (fun v => has_support (overlaps m x y) v dy) dx
  | _, _ => true
  end.

(** a complete assignment of vocabulary words with matching lengths,
    agreeing letters at every crossing, and pairwise distinct words *)
Definition solution (m : Crossword) (s : assignment) : Prop :=
  (forall x, In x (variables m) ->
     exists w, asg_get s x = Ok w /\ In w (words m) /\
               String.length w = var_length x) /\
  (forall x y ix iy wx wy,
     In x (variables m) -> In y (variables m) -> x <> y ->
     overlaps m x y = Some (ix, iy) ->
     asg_get s x = Ok wx -> asg_get s y = Ok wy ->
     exists ch, String.get ix wx = Some ch /\ String.get iy wy = Some ch) /\
  (forall x y wx wy,
     In x (variables m) -> In y (variables m) -> x <> y ->
     asg_get s x = Ok wx -> asg_get s y = Ok wy -> wx <> wy).

(** [i not in assignment] *)
Definition unassigned (a : assignment) (i : Var) : bool := negb (asg_mem i a).

(** the word that [s] gives to each variable is still in its domain *)
Definition sol_in (m : Crossword) (s : assignment) (d : domains) : Prop :=
  forall x, In x (variables m) ->
            exists w dv, asg_get s x = Ok w /\ dom_get d x = Ok dv /\ In w dv.

(** every binding of [a] binds a variable of the model to its word in [s] *)
Definition agrees (m : Crossword) (a s : assignment) : Prop :=
  forall x w, In (x, w) a -> In x (variables m) /\ asg_get s x = Ok w.

(** every binding of [a] binds a variable to a word of its domain in [d] *)
Definition in_domains (d : domains) (a : assignment) : Prop :=
  forall x w, In (x, w) a -> exists dv, dom_get d x = Ok dv /\ In w dv.

(** the number of keys of the store that the assignment does not bind *)
Definition remaining (d : domains) (a : assignment) : nat :=
  List.length (filter (unassigned a) (dom_keys d)).

(** every group of a [counts_dict] holds values of the score it is filed
    under *)
Definition well_grouped (score : string -> nat) (cd : counts_dict) : Prop :=
  forall k l, In (k, l) cd -> forall w, In w l -> score w = k.

(** the conflict score of [v] for [var]: its occurrences in the domains of
    the neighbors of [var], summed over the neighbors *)
Definition conflict_score (m : Crossword) (d : domains) (var : Var) (v : string) : nat :=
  list_sum
    (map (fun neighbor =>
            match dom_get d neighbor with
            | Ok s => count_occ string_dec s v
            | Raise _ => 0
            end)
         (neighbors m var)).

(** [d'] has the keys of [d] and every domain of [d'] is part of the
    domain of [d]: words were removed, none added *)
Definition shrinks (d d' : domains) : Prop :=
  dom_keys d' = dom_keys d /\
  forall x s', dom_get d' x = Ok s' ->
               exists s, dom_get d x = Ok s /\ incl s' s.

(** an arc the queue of [ac3] may hold: two distinct crossing variables *)
Definition valid_arc (m : Crossword) (p : Var * Var) : Prop :=
  fst p <> snd p /\ In (fst p) (variables m) /\ In (snd p) (variables m) /\
  overlaps m (fst p) (snd p) <> None.

(** every arc between a variable and one of its neighbors is consistent *)
Definition arc_consistent (m : Crossword) (d : domains) : Prop :=
  forall x y, In x (variables m) -> In y (neighbors m x) -> arc_ok m d x y = true.

(** what [consistent] checks: every bound word is in the domain of its
    variable, and two bound neighbors carry the same letter at their
    crossing *)
Definition consistent_assignment (m : Crossword) (d : domains) (a : assignment)
  : Prop :=
  (forall x w, asg_get a x = Ok w ->
               exists dv, dom_get d x = Ok dv /\ In w dv) /\
  (forall x y ix iy wx wy,
      asg_get a x = Ok wx -> asg_get a y = Ok wy ->
      In y (neighbors m x) -> overlaps m x y = Some (ix, iy) ->
      exists ch, String.get ix wx = Some ch /\ String.get iy wy = Some ch).

(** the content of cell (i, j) of a 2D array, [None] outside of it *)
Definition cell (g : grid) (i j : nat) : option ascii :=
  match nth_error g i with
  | Some row => match nth_error row j with
                | Some c => c
                | None => None
                end
  | None => None
  end.

(** [g] has [height] rows of [width] cells *)
Definition shaped (height width : nat) (g : grid) : Prop :=
  List.length g = height /\ Forall (fun row => List.length row = width) g.

(** every letter of [word], laid out from the start of [variable] in its
    direction, falls inside a [height] by [width] array *)
Definition in_grid (height width : nat) (variable : Var) (word : string) : Prop :=
  forall k, k < String.length word ->
            cell_row variable k < height /\ cell_col variable k < width.

(** no letter of a word of [a] is written to cell (i, j) *)
Definition uncovered (a : assignment) (i j : nat) : Prop :=
  forall variable word k,
    In (variable, word) a -> k < String.length word ->
    ~ (cell_row variable k = i /\ cell_col variable k = j).

(** any two letters that the words of [a] put on the same cell are the
    same letter *)
Definition agree_on_cells (a : assignment) : Prop :=
  forall v1 w1 k1 v2 w2 k2,
    In (v1, w1) a -> In (v2, w2) a ->
    k1 < String.length w1 -> k2 < String.length w2 ->
    cell_row v1 k1 = cell_row v2 k2 -> cell_col v1 k1 = cell_col v2 k2 ->
    String.get k1 w1 = String.get k2 w2.

(** [structure[i][j]], when both subscripts are in range *)
Definition is_open (structure : list (list bool)) (i j : nat) : option bool :=
  match nth_error structure i with
  | Some srow => nth_error srow j
  | None => None
  end.

(** what [print] writes for cell (i, j): the block for a blocked cell,
    else the letter of the array or a blank *)
Definition printed_piece (structure : list (list bool)) (g : grid) (i j : nat)
  : string :=
  match is_open structure i j with
  | Some false => block
  | _ => cell_text (cell g i j)
  end.

(** the overlap table records every cell that two slots share: if letter
    [k1] of [x] and letter [k2] of [y] lie on the same cell, the overlap
    of (x, y) is (k1, k2) *)
Definition overlaps_cover_shared_cells (m : Crossword) : Prop :=
  forall x y k1 k2,
    In x (variables m) -> In y (variables m) -> x <> y ->
    k1 < var_length x -> k2 < var_length y ->
    cell_row x k1 = cell_row y k2 -> cell_col x k1 = cell_col y k2 ->
    overlaps m x y = Some (k1, k2).

(** * Properties *)

(** ** The error monad *)

Lemma bind_Ok : forall (A B : Type) (c : res A) (k : A -> res B) (b : B),
    bind c k = Ok b -> exists a, c = Ok a /\ k a = Ok b.
Proof.
  intros A B [a | e] k b H; simpl in H; [eauto | discriminate].
Qed.

Ltac inv_bind H :=
  let a := fresh "r" in
  let E := fresh "E" in
  apply bind_Ok in H; destruct H as (a & E & H).

Ltac inv_Ok :=
  repeat match goal with
         | H : Ok _ = Ok _ |- _ => injection H as; subst
         | H : Raise _ = Ok _ |- _ => discriminate H
         | H : (_, _) = (_, _) |- _ => injection H as; subst
         end.

(** ** Membership tests *)

Lemma var_mem_true : forall x l, var_mem x l = true <-> In x l.
Proof.
  intros x l; unfold var_mem; destruct (in_dec Var_eq_dec x l);
    split; intros; try discriminate; tauto.
Qed.

Lemma var_mem_false : forall x l, var_mem x l = false <-> ~ In x l.
Proof.
  intros x l; unfold var_mem; destruct (in_dec Var_eq_dec x l);
    split; intros; try discriminate; tauto.
Qed.

Lemma set_mem_true : forall w s, set_mem w s = true <-> In w s.
Proof.
  intros w s; unfold set_mem; destruct (in_dec string_dec w s);
    split; intros; try discriminate; tauto.
Qed.

Lemma set_mem_false : forall w s, set_mem w s = false <-> ~ In w s.
Proof.
  intros w s; unfold set_mem; destruct (in_dec string_dec w s);
    split; intros; try discriminate; tauto.
Qed.

Lemma neighbors_spec : forall m x y,
    In y (neighbors m x) <->
    In y (variables m) /\ y <> x /\ overlaps m x y <> None.
Proof.
  intros m x y; unfold neighbors; rewrite filter_In.
  destruct (Var_eq_dec y x); destruct (overlaps m x y);
    intuition (try discriminate; try congruence).
Qed.

Lemma overlaps_get_Ok : forall m x y c,
    overlaps_get m x y = Ok c <->
    x <> y /\ In x (variables m) /\ In y (variables m) /\ c = overlaps m x y.
Proof.
  intros m x y c; unfold overlaps_get.
  destruct (Var_eq_dec x y) as [e | n].
  - split; [discriminate | tauto].
  - destruct (var_mem x (variables m)) eqn:Ex;
      destruct (var_mem y (variables m)) eqn:Ey; simpl;
        rewrite ?var_mem_true, ?var_mem_false in *;
        (split; [intros H; inv_Ok; tauto | intros (_ & ? & ? & ->); tauto || reflexivity]).
Qed.

(** ** The domain store *)

Lemma dom_get_in_keys : forall d x,
    In x (dom_keys d) <-> exists s, dom_get d x = Ok s.
Proof.
  induction d as [| [k s0] r IH]; intros x; simpl.
  - split; [tauto | intros (s & H); discriminate].
  - destruct (Var_eq_dec x k) as [-> | n].
    + split; eauto.
    + rewrite <- IH. split; [intros [E | H]; [congruence | exact H] | auto].
Qed.

Lemma dom_get_In : forall d x s, dom_get d x = Ok s -> In (x, s) d.
Proof.
  induction d as [| [k s0] r IH]; intros x s; simpl; [discriminate |].
  destruct (Var_eq_dec x k) as [-> | n]; intros H; inv_Ok; auto.
Qed.

Lemma dom_keys_set : forall d x s, dom_keys (dom_set d x s) = dom_keys d.
Proof.
  induction d as [| [k s0] r IH]; intros x s; simpl; [reflexivity |].
  destruct (Var_eq_dec x k); simpl; [reflexivity | now rewrite IH].
Qed.

Lemma dom_get_set_same : forall d x s0 s,
    dom_get d x = Ok s0 -> dom_get (dom_set d x s) x = Ok s.
Proof.
  induction d as [| [k s1] r IH]; intros x s0 s; simpl; [discriminate |].
  destruct (Var_eq_dec x k) as [-> | n]; simpl.
  - destruct (Var_eq_dec k k); [reflexivity | congruence].
  - destruct (Var_eq_dec x k); [congruence | eauto].
Qed.

Lemma dom_get_set_other : forall d x z s,
    z <> x -> dom_get (dom_set d x s) z = dom_get d z.
Proof.
  induction d as [| [k s1] r IH]; intros x z s Hz; simpl; [reflexivity |].
  destruct (Var_eq_dec x k) as [-> | n]; simpl.
  - destruct (Var_eq_dec z k); [congruence | reflexivity].
  - destruct (Var_eq_dec z k); [reflexivity | auto].
Qed.

Lemma dom_set_same : forall d x s, dom_get d x = Ok s -> dom_set d x s = d.
Proof.
  induction d as [| [k s1] r IH]; intros x s; simpl; [reflexivity |].
  destruct (Var_eq_dec x k) as [-> | n]; intros H.
  - now inv_Ok.
  - now rewrite IH.
Qed.

Lemma total_size_set : forall d x s0 s,
    dom_get d x = Ok s0 ->
    total_size (dom_set d x s) + List.length s0 = total_size d + List.length s.
Proof.
  unfold total_size.
  induction d as [| [k s1] r IH]; intros x s0 s; simpl; [discriminate |].
  destruct (Var_eq_dec x k) as [-> | n]; intros H; simpl.
  - inv_Ok. lia.
  - specialize (IH _ _ s H). lia.
Qed.

Lemma node_consistent_get : forall d x s w,
    node_consistent d = true -> dom_get d x = Ok s -> In w s ->
    String.length w = var_length x.
Proof.
  intros d x s w Hn Hg Hw.
  apply dom_get_In in Hg.
  unfold node_consistent in Hn. rewrite forallb_forall in Hn.
  specialize (Hn _ Hg). simpl in Hn. rewrite forallb_forall in Hn.
  now apply Nat.eqb_eq, Hn.
Qed.

Lemma node_consistent_set : forall d x s,
    node_consistent d = true ->
    (forall w, In w s -> String.length w = var_length x) ->
    node_consistent (dom_set d x s) = true.
Proof.
  unfold node_consistent.
  induction d as [| [k s1] r IH]; intros x s Hn Hs; simpl in *; [reflexivity |].
  apply andb_true_iff in Hn as [H1 H2].
  destruct (Var_eq_dec x k) as [-> | n]; simpl; apply andb_true_iff; split; auto.
  apply forallb_forall. intros w Hw. now apply Nat.eqb_eq, Hs.
Qed.

(** ** Removing words from a set *)

Lemma filter_all : forall (A : Type) (f : A -> bool) (l : list A),
    (forall a, In a l -> f a = true) -> filter f l = l.
Proof.
  induction l as [| a l IH]; intros H; simpl; [reflexivity |].
  rewrite (H a (or_introl eq_refl)). f_equal. apply IH. intros; apply H; now right.
Qed.

Lemma filter_filter : forall (A : Type) (f g : A -> bool) (l : list A),
    filter f (filter g l) = filter (fun a => g a && f a) l.
Proof.
  induction l as [| a l IH]; simpl; [reflexivity |].
  destruct (g a); simpl; [destruct (f a) |]; now rewrite IH.
Qed.

Lemma filter_length_lt : forall (A : Type) (f : A -> bool) (l : list A),
    forallb f l = false -> List.length (filter f l) < List.length l.
Proof.
  induction l as [| a l IH]; simpl; [discriminate |].
  destruct (f a); simpl; intros H.
  - apply IH in H. lia.
  - pose proof (filter_length_le f l). lia.
Qed.

Lemma forallb_filter_id : forall (A : Type) (f : A -> bool) (l : list A),
    forallb f l = true -> filter f l = l.
Proof.
  intros A f l H. apply filter_all. now apply forallb_forall.
Qed.

Lemma set_remove_filter : forall c s,
    set_remove c s = filter (fun w => if string_dec c w then false else true) s.
Proof.
  intros c; induction s as [| w s IH]; simpl; [reflexivity |].
  destruct (string_dec c w); simpl; now rewrite <- IH.
Qed.

Lemma set_mem_cons : forall w c r,
    set_mem w (c :: r) = if string_dec c w then true else set_mem w r.
Proof.
  intros w c r.
  destruct (set_mem w (c :: r)) eqn:E1; destruct (string_dec c w) as [e | n];
    destruct (set_mem w r) eqn:E2;
    rewrite ?set_mem_true, ?set_mem_false in *; simpl in *;
      try reflexivity; exfalso; tauto.
Qed.

(** Removing from [s], one by one, the words of [copy] that are [bad]
    leaves the words of [s] that are not both [bad] and in [copy]. *)
Lemma remove_bad_filter : forall (bad : string -> bool) copy s,
    fold_left (fun s w => if bad w then set_remove w s else s) copy s =
    filter (fun w => negb (bad w) || negb (set_mem w copy)) s.
Proof.
  intros bad; induction copy as [| c r IH]; intros s; simpl.
  - symmetry. apply filter_all. intros a _. apply orb_true_r.
  - rewrite IH. destruct (bad c) eqn:Eb.
    + rewrite set_remove_filter, filter_filter. apply filter_ext.
      intros w. rewrite set_mem_cons.
      destruct (string_dec c w) as [<- | n]; simpl; [now rewrite Eb | reflexivity].
    + apply filter_ext. intros w. rewrite set_mem_cons.
      destruct (string_dec c w) as [<- | n]; [now rewrite Eb | reflexivity].
Qed.

(** ** [enforce_node_consistency] keeps exactly the words of the right length *)

Lemma enforce_words_filter : forall n s,
    enforce_words n s s = filter (fun w => String.length w =? n) s.
Proof.
  intros n s. unfold enforce_words.
  rewrite (remove_bad_filter (fun w => negb (String.length w =? n))).
  apply filter_ext_in. intros w Hw.
  apply set_mem_true in Hw. rewrite Hw, negb_involutive. apply orb_false_r.
Qed.

Lemma enforce_node_consistency_filter : forall d,
    enforce_node_consistency d =
    map (fun b => (fst b, filter (fun w => String.length w =? var_length (fst b)) (snd b))) d.
Proof.
  intros d. unfold enforce_node_consistency. apply map_ext.
  intros [node all_words]. simpl. now rewrite enforce_words_filter.
Qed.

Lemma enforce_node_consistent : forall d,
    node_consistent (enforce_node_consistency d) = true.
Proof.
  intros d. rewrite enforce_node_consistency_filter. unfold node_consistent.
  apply forallb_forall. intros b Hb. apply in_map_iff in Hb as ([x s] & <- & _).
  simpl. apply forallb_forall. intros w Hw. now apply filter_In in Hw.
Qed.

Lemma enforce_keys : forall d,
    dom_keys (enforce_node_consistency d) = dom_keys d.
Proof.
  intros d. rewrite enforce_node_consistency_filter. unfold dom_keys.
  rewrite map_map. reflexivity.
Qed.

Lemma enforce_get : forall d x s,
    dom_get d x = Ok s ->
    dom_get (enforce_node_consistency d) x =
    Ok (filter (fun w => String.length w =? var_length x) s).
Proof.
  intros d x s. rewrite enforce_node_consistency_filter.
  induction d as [| [k s0] r IH]; simpl; [discriminate |].
  destruct (Var_eq_dec x k) as [-> | n]; intros H; [now inv_Ok | auto].
Qed.

Lemma enforce_idempotent : forall d,
    enforce_node_consistency (enforce_node_consistency d) =
    enforce_node_consistency d.
Proof.
  intros d. rewrite !enforce_node_consistency_filter, map_map. apply map_ext.
  intros [x s]. simpl. f_equal. rewrite filter_filter. apply filter_ext.
  intros w. apply andb_diag.
Qed.

(** ** [revise] *)

Lemma get_Some : forall s i,
    i < String.length s -> exists c, String.get i s = Some c.
Proof.
  induction s as [| a s IH]; intros i Hi; simpl in *; [lia |].
  destruct i as [| i]; [eauto | apply IH; lia].
Qed.

Lemma index_Ok : forall s i c, index s i = Ok c <-> String.get i s = Some c.
Proof.
  intros s i c. unfold index. destruct (String.get i s);
    split; intros H; inv_Ok; congruence.
Qed.

Lemma supportsb_spec : forall c v w,
    supportsb c v w = true <->
    exists ix iy ch, c = Some (ix, iy) /\ w <> v /\
                     String.get ix v = Some ch /\ String.get iy w = Some ch.
Proof.
  intros c v w. unfold supportsb. split.
  - destruct (string_dec v w) as [e | n]; [discriminate |].
    destruct c as [[ix iy] |]; [| discriminate].
    destruct (String.get ix v) as [a |] eqn:Ea; [| discriminate].
    destruct (String.get iy w) as [b |] eqn:Eb; [| discriminate].
    destruct (ascii_dec a b) as [-> | n']; [| discriminate].
    intros _. exists ix, iy, b. repeat split; auto.
  - intros (ix & iy & ch & -> & Hn & Ea & Eb).
    destruct (string_dec v w); [congruence |].
    rewrite Ea, Eb. destruct (ascii_dec ch ch); congruence.
Qed.

Lemma has_support_spec : forall c v dy,
    has_support c v dy = true <->
    exists ix iy w ch, c = Some (ix, iy) /\ In w dy /\ w <> v /\
                       String.get ix v = Some ch /\ String.get iy w = Some ch.
Proof.
  intros c v dy. unfold has_support. rewrite existsb_exists. split.
  - intros (w & Hw & Hs). apply supportsb_spec in Hs as (ix & iy & ch & H).
    exists ix, iy, w, ch. tauto.
  - intros (ix & iy & w & ch & H). exists w. split; [tauto |].
    apply supportsb_spec. exists ix, iy, ch. tauto.
Qed.

Lemma supports_sound : forall c v w s,
    supports c v w = Ok s -> s = supportsb c v w.
Proof.
  intros c v w s. unfold supports, supportsb.
  destruct (string_dec v w); intros H; [now inv_Ok |].
  destruct c as [[ix iy] |]; simpl in H; [| discriminate].
  inv_bind H. inv_bind H. inv_Ok.
  apply index_Ok in E, E0. now rewrite E, E0.
Qed.

Lemma find_support_sound : forall c v dy s,
    find_support c v dy = Ok s -> s = has_support c v dy.
Proof.
  intros c v; induction dy as [| w dy IH]; intros s H; simpl in *.
  - now inv_Ok.
  - inv_bind H. apply supports_sound in E. rewrite <- E.
    destruct r; [now inv_Ok | simpl; auto].
Qed.

Lemma supports_total : forall ix iy v w,
    ix < String.length v -> iy < String.length w ->
    supports (Some (ix, iy)) v w = Ok (supportsb (Some (ix, iy)) v w).
Proof.
  intros ix iy v w Hv Hw. unfold supports, supportsb.
  destruct (string_dec v w); [reflexivity |]. simpl.
  destruct (get_Some _ _ Hv) as (a & Ea). destruct (get_Some _ _ Hw) as (b & Eb).
  unfold index. now rewrite Ea, Eb.
Qed.

Lemma find_support_total : forall ix iy v dy,
    ix < String.length v ->
    (forall w, In w dy -> iy < String.length w) ->
    find_support (Some (ix, iy)) v dy = Ok (has_support (Some (ix, iy)) v dy).
Proof.
  intros ix iy v; induction dy as [| w dy IH]; intros Hv Hd; simpl; [reflexivity |].
  rewrite supports_total; auto; [| apply Hd; now left]. simpl.
  destruct (supportsb (Some (ix, iy)) v w); simpl; [reflexivity |].
  apply IH; auto. intros; apply Hd; now right.
Qed.

Lemma revise_loop_sound : forall c dy copy dx r dx' r',
    revise_loop c copy dy dx r = Ok (dx', r') ->
    dx' = filter (fun w => has_support c w dy || negb (set_mem w copy)) dx /\
    r' = r || negb (forallb (fun w => has_support c w dy) copy).
Proof.
  intros c dy; induction copy as [| v rest IH]; intros dx r dx' r' H; simpl in H.
  - inv_Ok. split.
    + symmetry. apply filter_all. intros a _. apply orb_true_r.
    + simpl. now rewrite orb_false_r.
  - inv_bind H. apply find_support_sound in E. subst r0.
    simpl forallb. destruct (has_support c v dy) eqn:Es.
    + apply IH in H as [-> ->]. split; [| reflexivity].
      apply filter_ext. intros w. rewrite set_mem_cons.
      destruct (string_dec v w) as [<- | n]; [now rewrite Es | reflexivity].
    + apply IH in H as [-> ->]. split; [| simpl; symmetry; apply orb_true_r].
      rewrite set_remove_filter, filter_filter. apply filter_ext.
      intros w. rewrite set_mem_cons.
      destruct (string_dec v w) as [<- | n]; simpl; [now rewrite Es | reflexivity].
Qed.

Lemma revise_loop_total : forall ix iy dy copy dx r,
    (forall v, In v copy -> ix < String.length v) ->
    (forall w, In w dy -> iy < String.length w) ->
    exists dx' r', revise_loop (Some (ix, iy)) copy dy dx r = Ok (dx', r').
Proof.
  intros ix iy dy; induction copy as [| v rest IH]; intros dx r Hc Hd; simpl.
  - eauto.
  - rewrite find_support_total; auto; [| apply Hc; now left]. simpl.
    destruct (has_support (Some (ix, iy)) v dy); apply IH; auto;
      intros; apply Hc; now right.
Qed.

(** What [revise] does whenever it returns. *)
Lemma revise_sound : forall m d x y b d',
    revise m d x y = Ok (b, d') ->
    exists dx dy,
      x <> y /\ In x (variables m) /\ In y (variables m) /\
      dom_get d x = Ok dx /\ dom_get d y = Ok dy /\
      d' = dom_set d x (filter (fun v => has_support (overlaps m x y) v dy) dx) /\
      b = negb (forallb (fun v => has_support (overlaps m x y) v dy) dx).
Proof.
  intros m d x y b d' H. unfold revise in H.
  inv_bind H. inv_bind H. inv_bind H. inv_bind H. destruct r2 as [dx' r'].
  inv_Ok. apply overlaps_get_Ok in E as (Hxy & Hx & Hy & ->).
  apply revise_loop_sound in E2 as [-> ->].
  exists r0, r1. repeat split; auto.
  f_equal. apply filter_ext_in. intros w Hw.
  apply set_mem_true in Hw. rewrite Hw. apply orb_false_r.
Qed.

(** [revise] raises nothing on an arc whose offsets fit the words. *)
Lemma revise_total : forall m d x y ix iy dx dy,
    x <> y -> In x (variables m) -> In y (variables m) ->
    overlaps m x y = Some (ix, iy) ->
    dom_get d x = Ok dx -> dom_get d y = Ok dy ->
    (forall v, In v dx -> ix < String.length v) ->
    (forall w, In w dy -> iy < String.length w) ->
    exists b d', revise m d x y = Ok (b, d').
Proof.
  intros m d x y ix iy dx dy Hxy Hx Hy Ho Hdx Hdy Rx Ry.
  unfold revise.
  assert (Hg : overlaps_get m x y = Ok (Some (ix, iy))).
  { apply overlaps_get_Ok. auto. }
  rewrite Hg, Hdx, Hdy. simpl.
  destruct (revise_loop_total ix iy dy dx dx false Rx Ry) as (dx' & r' & ->). simpl. eauto.
Qed.

Lemma forallb_false_ex : forall (A : Type) (f : A -> bool) (l : list A),
    forallb f l = false -> exists a, In a l /\ f a = false.
Proof.
  induction l as [| a l IH]; simpl; [discriminate |].
  destruct (f a) eqn:E; simpl; intros H.
  - destruct (IH H) as (b & Hb & Hf). exists b; auto.
  - exists a; auto.
Qed.

(** C5: on an arc (x, y) with offsets (ix, iy) that fit the words of both
    domains, [revise] returns; domain(x) keeps exactly the values [v] that
    have a support [w <> v] in domain(y) with [v[ix] = w[iy]], in their old
    order; domain(y) and every other domain are untouched; and the result
    is [True] iff some value was removed. *)
Theorem revise_removes_exactly_unsupported :
  forall m d x y ix iy dx dy,
    x <> y -> In x (variables m) -> In y (variables m) ->
    overlaps m x y = Some (ix, iy) ->
    dom_get d x = Ok dx -> dom_get d y = Ok dy ->
    (forall v, In v dx -> ix < String.length v) ->
    (forall w, In w dy -> iy < String.length w) ->
    exists b d' dx',
      revise m d x y = Ok (b, d') /\
      dom_get d' x = Ok dx' /\
      (forall v, In v dx' <->
                 In v dx /\
                 exists w, In w dy /\ w <> v /\ String.get ix v = String.get iy w) /\
      (exists keep, dx' = filter keep dx) /\
      dom_get d' y = Ok dy /\
      (forall z, z <> x -> dom_get d' z = dom_get d z) /\
      dom_keys d' = dom_keys d /\
      (b = true <-> exists v, In v dx /\ ~ In v dx').
Proof.
  intros m d x y ix iy dx dy Hxy Hx Hy Ho Hdx Hdy Rx Ry.
  destruct (revise_total m d x y ix iy dx dy Hxy Hx Hy Ho Hdx Hdy Rx Ry) as (b & d' & Hr).
  destruct (revise_sound _ _ _ _ _ _ Hr) as (dx0 & dy0 & _ & _ & _ & Hdx0 & Hdy0 & Hd' & Hb).
  rewrite Hdx in Hdx0. rewrite Hdy in Hdy0. inv_Ok. rewrite Ho in *.
  set (keep := fun v => has_support (Some (ix, iy)) v dy0) in *.
  assert (Hkeep : forall v, In v dx0 ->
            (keep v = true <->
             exists w, In w dy0 /\ w <> v /\ String.get ix v = String.get iy w)).
  { intros v Hv. unfold keep. rewrite has_support_spec. split.
    - intros (ix' & iy' & w & ch & E & Hw & Hn & Ea & Eb). inv_Ok.
      injection E as <- <-. exists w. repeat split; auto. congruence.
    - intros (w & Hw & Hn & E).
      destruct (get_Some _ _ (Rx v Hv)) as (ch & Ea).
      exists ix, iy, w, ch. repeat split; auto. congruence. }
  exists (negb (forallb keep dx0)), (dom_set d x (filter keep dx0)), (filter keep dx0).
  split; [exact Hr |].
  split; [eapply dom_get_set_same; eauto |].
  split.
  { intros v. rewrite filter_In. split.
    - intros [Hv Hk]. split; [exact Hv | now apply Hkeep].
    - intros [Hv Hk]. split; [exact Hv | now apply Hkeep]. }
  split; [now exists keep |].
  split; [rewrite dom_get_set_other; auto |].
  split; [intros z Hz; now apply dom_get_set_other |].
  split; [apply dom_keys_set |].
  rewrite negb_true_iff. split.
  - intros Hf. apply forallb_false_ex in Hf as (v & Hv & Hk).
    exists v. split; [exact Hv |]. rewrite filter_In. intros [_ Hk']. congruence.
  - intros (v & Hv & Hn). destruct (forallb keep dx0) eqn:Ef; [| reflexivity].
    exfalso. apply Hn. apply filter_In. split; [exact Hv |].
    rewrite forallb_forall in Ef. now apply Ef.
Qed.

Lemma revise_removes_exactly_unsupported_witness :
  exists b d' dx',
    revise puzzle_cross (enforce_node_consistency (init_domains puzzle_cross))
           slot_across slot_down = Ok (b, d') /\
    dom_get d' slot_across = Ok dx'.
Proof.
  destruct (revise_removes_exactly_unsupported
              puzzle_cross (enforce_node_consistency (init_domains puzzle_cross))
              slot_across slot_down 1 0
              ["cat"; "art"]%string ["cat"; "art"]%string)
    as (b & d' & dx' & H1 & H2 & _).
  - discriminate.
  - simpl; auto.
  - simpl; auto.
  - reflexivity.
  - reflexivity.
  - reflexivity.
  - intros v [<- | [<- | []]]; simpl; lia.
  - intros v [<- | [<- | []]]; simpl; lia.
  - exists b, d', dx'. split; assumption.
Defined.

(** ** Invariants of [revise] and of the [ac3] loop *)

Lemma shrinks_refl : forall d, shrinks d d.
Proof.
  intros d. split; [reflexivity |]. intros x s' H. exists s'. split; [exact H | apply incl_refl].
Qed.

Lemma shrinks_trans : forall d1 d2 d3, shrinks d1 d2 -> shrinks d2 d3 -> shrinks d1 d3.
Proof.
  intros d1 d2 d3 [K1 S1] [K2 S2]. split; [congruence |].
  intros x s3 H3. destruct (S2 _ _ H3) as (s2 & H2 & I2).
  destruct (S1 _ _ H2) as (s1 & H1 & I1). exists s1. split; [exact H1 |].
  eapply incl_tran; eauto.
Qed.

Lemma revise_shrinks : forall m d x y b d',
    revise m d x y = Ok (b, d') -> shrinks d d'.
Proof.
  intros m d x y b d' H.
  apply revise_sound in H as (dx & dy & _ & _ & _ & Hdx & _ & -> & _).
  split; [apply dom_keys_set |]. intros z s' Hz.
  destruct (Var_eq_dec z x) as [-> | n].
  - rewrite (dom_get_set_same _ _ _ _ Hdx) in Hz. inv_Ok.
    exists dx. split; [exact Hdx |]. intros w Hw. now apply filter_In in Hw.
  - rewrite dom_get_set_other in Hz by exact n.
    exists s'. split; [exact Hz | apply incl_refl].
Qed.

Lemma revise_node_consistent : forall m d x y b d',
    node_consistent d = true -> revise m d x y = Ok (b, d') ->
    node_consistent d' = true.
Proof.
  intros m d x y b d' Hn H.
  apply revise_sound in H as (dx & dy & _ & _ & _ & Hdx & _ & -> & _).
  apply node_consistent_set; [exact Hn |]. intros w Hw.
  apply filter_In in Hw as [Hw _]. eapply node_consistent_get; eauto.
Qed.

(** Anything [revise] preserves holds when the [ac3] loop returns. *)
Lemma ac3_loop_invariant : forall m (P : domains -> Prop),
    (forall d x y b d', P d -> revise m d x y = Ok (b, d') -> P d') ->
    forall fuel d arcs b d',
      P d -> ac3_loop m fuel d arcs = Ok (b, d') -> P d'.
Proof.
  intros m P Hstep. induction fuel as [| fuel IH]; intros d arcs b d' HP H; simpl in H.
  - discriminate.
  - destruct arcs as [| [x y] rest]; [now inv_Ok |].
    inv_bind H. destruct r as [revised d1].
    assert (HP1 : P d1) by (eapply Hstep; eauto).
    destruct revised.
    + inv_bind H. destruct (List.length r =? 0); [now inv_Ok | eauto].
    + eauto.
Qed.

Lemma ac3_invariant : forall m (P : domains -> Prop),
    (forall d x y b d', P d -> revise m d x y = Ok (b, d') -> P d') ->
    forall d arcs b d', P d -> ac3 m d arcs = Ok (b, d') -> P d'.
Proof.
  intros m P Hstep d arcs b d' HP H. unfold ac3 in H.
  eapply ac3_loop_invariant; eauto.
Qed.

Lemma ac3_shrinks : forall m d arcs b d',
    ac3 m d arcs = Ok (b, d') -> shrinks d d'.
Proof.
  intros m d arcs b d' H.
  apply (ac3_invariant m (fun d1 => shrinks d d1)) in H; auto.
  - intros d1 x y b1 d2 H1 H2. eapply shrinks_trans; eauto using revise_shrinks.
  - apply shrinks_refl.
Qed.

Lemma ac3_node_consistent : forall m d arcs b d',
    node_consistent d = true -> ac3 m d arcs = Ok (b, d') ->
    node_consistent d' = true.
Proof.
  intros m d arcs b d' Hn H.
  apply (ac3_invariant m (fun d1 => node_consistent d1 = true)) in H; auto.
  intros; eapply revise_node_consistent; eauto.
Qed.

(** ** Well-formed models *)

Lemma nodupb_NoDup : forall l, nodupb l = true -> NoDup l.
Proof.
  induction l as [| x l IH]; simpl; intros H; constructor.
  - apply andb_true_iff in H as [H _]. apply negb_true_iff in H.
    now apply var_mem_false.
  - apply andb_true_iff in H as [_ H]. auto.
Qed.

Lemma wf_model_nodup : forall m, wf_model m = true -> NoDup (variables m).
Proof.
  intros m H. apply andb_true_iff in H as [H _]. now apply nodupb_NoDup.
Qed.

Lemma wf_model_overlaps : forall m x y ix iy,
    wf_model m = true -> In x (variables m) -> In y (variables m) -> x <> y ->
    overlaps m x y = Some (ix, iy) ->
    ix < var_length x /\ iy < var_length y /\ overlaps m y x = Some (iy, ix).
Proof.
  intros m x y ix iy H Hx Hy Hxy Ho.
  apply andb_true_iff in H as [_ H]. rewrite forallb_forall in H.
  specialize (H x Hx). rewrite forallb_forall in H. specialize (H y Hy).
  unfold overlap_okb in H. destruct (Var_eq_dec x y); [contradiction |].
  rewrite Ho in H. apply andb_true_iff in H as [H H3].
  apply andb_true_iff in H as [H1 H2].
  apply Nat.ltb_lt in H1, H2.
  destruct (overlaps m y x) as [[a b] |]; [| discriminate].
  apply andb_true_iff in H3 as [Ha Hb]. apply Nat.eqb_eq in Ha, Hb. subst.
  auto.
Qed.

Lemma neighbors_length : forall m x,
    List.length (neighbors m x) <= List.length (variables m).
Proof.
  intros m x. unfold neighbors. apply filter_length_le.
Qed.

Lemma requeue_length : forall m x y,
    List.length (requeue m x y) <= List.length (variables m).
Proof.
  intros m x y. unfold requeue. rewrite length_map.
  etransitivity; [apply filter_length_le | apply neighbors_length].
Qed.

Lemma requeue_In : forall m x y u v,
    In (u, v) (requeue m x y) <-> v = x /\ u <> y /\ In u (neighbors m x).
Proof.
  intros m x y u v. unfold requeue. rewrite in_map_iff. split.
  - intros (n & E & Hn). injection E as <- <-. apply filter_In in Hn as [Hn Hy].
    destruct (Var_eq_dec n y); [discriminate | auto].
  - intros (-> & Hy & Hn). exists u. split; [reflexivity |].
    apply filter_In. split; [exact Hn |]. destruct (Var_eq_dec u y); congruence.
Qed.

Lemma requeue_valid : forall m x y,
    wf_model m = true -> In x (variables m) -> Forall (valid_arc m) (requeue m x y).
Proof.
  intros m x y Hwf Hx. apply Forall_forall. intros [u v] H.
  apply requeue_In in H as (-> & _ & Hn).
  apply neighbors_spec in Hn as (Hu & Hne & Ho).
  destruct (overlaps m x u) as [[ix iy] |] eqn:E; [| congruence].
  destruct (wf_model_overlaps m x u ix iy Hwf Hx Hu (not_eq_sym Hne) E) as (_ & _ & E').
  repeat split; simpl; auto. congruence.
Qed.

Lemma all_arcs_In : forall m d x y,
    In (x, y) (all_arcs m d) <-> In x (dom_keys d) /\ In y (neighbors m x).
Proof.
  intros m d x y. unfold all_arcs. rewrite in_flat_map. split.
  - intros (var & Hv & H). apply in_map_iff in H as (n & E & Hn).
    injection E as <- <-. apply filter_In in Hn as [Hn _]. auto.
  - intros [Hx Hy]. exists x. split; [exact Hx |]. apply in_map_iff.
    exists y. split; [reflexivity |]. apply filter_In. split; [exact Hy |].
    apply neighbors_spec in Hy as (_ & Hne & _).
    destruct (Var_eq_dec y x); congruence.
Qed.

Lemma all_arcs_valid : forall m d,
    dom_keys d = variables m -> Forall (valid_arc m) (all_arcs m d).
Proof.
  intros m d Hk. apply Forall_forall. intros [x y] H.
  apply all_arcs_In in H as [Hx Hy]. rewrite Hk in Hx.
  apply neighbors_spec in Hy as (Hy & Hne & Ho).
  repeat split; simpl; auto.
Qed.

(** ** [ac3] returns: no exception on a well-formed model, and the fuel
    computed by [ac3_fuel] is never used up *)

Lemma valid_arc_revise_total : forall m d x y,
    wf_model m = true -> dom_keys d = variables m -> node_consistent d = true ->
    valid_arc m (x, y) ->
    exists b d', revise m d x y = Ok (b, d').
Proof.
  intros m d x y Hwf Hk Hn (Hxy & Hx & Hy & Ho). simpl in *.
  destruct (overlaps m x y) as [[ix iy] |] eqn:Eo; [| congruence].
  destruct (wf_model_overlaps m x y ix iy Hwf Hx Hy Hxy Eo) as (Rx & Ry & _).
  assert (Gx : exists dx, dom_get d x = Ok dx) by (apply dom_get_in_keys; congruence).
  assert (Gy : exists dy, dom_get d y = Ok dy) by (apply dom_get_in_keys; congruence).
  destruct Gx as (dx & Gx). destruct Gy as (dy & Gy).
  apply (revise_total m d x y ix iy dx dy); auto.
  - intros v Hv. rewrite (node_consistent_get d x dx v); auto.
  - intros w Hw. rewrite (node_consistent_get d y dy w); auto.
Qed.

Lemma ac3_loop_total : forall m,
    wf_model m = true ->
    forall fuel d arcs,
      dom_keys d = variables m -> node_consistent d = true ->
      Forall (valid_arc m) arcs ->
      List.length arcs + total_size d * List.length (variables m) < fuel ->
      exists b d', ac3_loop m fuel d arcs = Ok (b, d').
Proof.
  intros m Hwf. induction fuel as [| fuel IH]; intros d arcs Hk Hn Hv Hf; [lia |].
  destruct arcs as [| [x y] rest]; simpl; [eauto |].
  inversion Hv as [| p l Hxy Hrest]; subst.
  destruct (valid_arc_revise_total m d x y Hwf Hk Hn Hxy) as (b & d1 & Hr).
  rewrite Hr. simpl.
  pose proof (revise_node_consistent _ _ _ _ _ _ Hn Hr) as Hn1.
  destruct (revise_sound _ _ _ _ _ _ Hr) as (dx & dy & _ & Hx & _ & Gx & _ & Hd1 & Hb).
  assert (Hk1 : dom_keys d1 = variables m) by (subst d1; now rewrite dom_keys_set).
  simpl in Hf. destruct b.
  - assert (G1 : dom_get d1 x = Ok (filter (fun v => has_support (overlaps m x y) v dy) dx)).
    { subst d1. eapply dom_get_set_same; eauto. }
    rewrite G1. simpl.
    destruct (List.length _ =? 0); [eauto |].
    apply IH; auto.
    + apply Forall_app. split; [exact Hrest | now apply requeue_valid].
    + symmetry in Hb. apply negb_true_iff in Hb. apply filter_length_lt in Hb.
      pose proof (total_size_set d x dx (filter (fun v => has_support (overlaps m x y) v dy) dx) Gx) as Ht.
      rewrite <- Hd1 in Ht.
      pose proof (requeue_length m x y) as Hq. rewrite length_app.
      assert ((total_size d1 + 1) * List.length (variables m)
              <= total_size d * List.length (variables m))
        by (apply Nat.mul_le_mono_r; lia).
      lia.
  - symmetry in Hb. apply negb_false_iff in Hb.
    rewrite (forallb_filter_id _ _ _ Hb) in Hd1.
    rewrite (dom_set_same _ _ _ Gx) in Hd1. subst d1.
    apply IH; auto. lia.
Qed.

Lemma ac3_total : forall m d,
    wf_model m = true -> dom_keys d = variables m -> node_consistent d = true ->
    exists b d', ac3 m d None = Ok (b, d').
Proof.
  intros m d Hwf Hk Hn. unfold ac3, ac3_fuel.
  apply ac3_loop_total; auto using all_arcs_valid; lia.
Qed.

(** C8: after [enforce_node_consistency] every word of every domain has
    the length of its variable; [revise] and [ac3] keep this property and
    only remove words; on a well-formed model [ac3] does return. *)
Theorem length_invariant_after_node_consistency :
  forall m d,
    node_consistent (enforce_node_consistency d) = true /\
    (forall x y b d',
        node_consistent d = true -> revise m d x y = Ok (b, d') ->
        node_consistent d' = true /\ shrinks d d') /\
    (forall arcs b d',
        node_consistent d = true -> ac3 m d arcs = Ok (b, d') ->
        node_consistent d' = true /\ shrinks d d') /\
    (wf_model m = true -> dom_keys d = variables m ->
     node_consistent d = true ->
     exists b d', ac3 m d None = Ok (b, d')).
Proof.
  intros m d. split; [apply enforce_node_consistent |]. split; [| split].
  - intros x y b d' Hn H. split.
    + eapply revise_node_consistent; eauto.
    + eapply revise_shrinks; eauto.
  - intros arcs b d' Hn H. split.
    + eapply ac3_node_consistent; eauto.
    + eapply ac3_shrinks; eauto.
  - apply ac3_total.
Qed.

Lemma length_invariant_after_node_consistency_witness :
  let d := enforce_node_consistency (init_domains puzzle_cross) in
  node_consistent d = true /\
  exists b d',
    ac3 puzzle_cross d None = Ok (b, d') /\
    node_consistent d' = true /\ shrinks d d'.
Proof.
  intros d.
  destruct (length_invariant_after_node_consistency puzzle_cross d)
    as (_ & _ & Hac3 & Htot).
  destruct (length_invariant_after_node_consistency
              puzzle_cross (init_domains puzzle_cross)) as (H0 & _).
  split; [exact H0 |].
  destruct (Htot eq_refl eq_refl H0) as (b & d' & H).
  exists b, d'. split; [exact H |]. exact (Hac3 None b d' H0 H).
Defined.

(** ** Arc consistency is what a completed [ac3] run establishes *)

Lemma neighbors_sym : forall m x y,
    wf_model m = true -> In x (variables m) ->
    In y (neighbors m x) -> In x (neighbors m y).
Proof.
  intros m x y Hwf Hx Hy. apply neighbors_spec in Hy as (Hy & Hne & Ho).
  destruct (overlaps m x y) as [[ix iy] |] eqn:E; [| congruence].
  destruct (wf_model_overlaps m x y ix iy Hwf Hx Hy (not_eq_sym Hne) E) as (_ & _ & E').
  apply neighbors_spec. repeat split; auto. congruence.
Qed.

Lemma revise_arc_ok_self : forall m d x y b d',
    revise m d x y = Ok (b, d') -> arc_ok m d' x y = true.
Proof.
  intros m d x y b d' H.
  apply revise_sound in H as (dx & dy & Hxy & _ & _ & Gx & Gy & -> & _).
  unfold arc_ok. rewrite (dom_get_set_same _ _ _ _ Gx).
  rewrite dom_get_set_other by auto. rewrite Gy.
  apply forallb_forall. intros v Hv. now apply filter_In in Hv.
Qed.

Lemma revise_false_same : forall m d x y d',
    revise m d x y = Ok (false, d') -> d' = d.
Proof.
  intros m d x y d' H.
  apply revise_sound in H as (dx & dy & _ & _ & _ & Gx & _ & -> & Hb).
  symmetry in Hb. apply negb_false_iff in Hb.
  rewrite (forallb_filter_id _ _ _ Hb). now apply dom_set_same.
Qed.

(** A revision of [x] against [y] cannot break an arc that does not point
    at [x], nor the reverse arc (y, x): a value of [x] that supported a
    value of [y] is itself supported by it, so it was not removed. *)
Lemma revise_arc_ok_other : forall m d x y b d' u v,
    wf_model m = true ->
    revise m d x y = Ok (b, d') ->
    arc_ok m d u v = true ->
    v <> x \/ u = y ->
    arc_ok m d' u v = true.
Proof.
  intros m d x y b d' u v Hwf H Hok Hcase.
  apply revise_sound in H as (dx & dy & Hxy & Hx & Hy & Gx & Gy & -> & _).
  set (dx' := filter (fun v0 => has_support (overlaps m x y) v0 dy) dx).
  destruct (Var_eq_dec v x) as [-> | Hvx].
  - (* the reverse arc (y, x) *)
    destruct Hcase as [Hc | ->]; [congruence |].
    unfold arc_ok in *. rewrite Gx, Gy in Hok.
    rewrite dom_get_set_other by auto. rewrite Gy.
    rewrite (dom_get_set_same _ _ _ _ Gx).
    apply forallb_forall. intros w Hw.
    rewrite forallb_forall in Hok. specialize (Hok w Hw).
    apply has_support_spec in Hok as (iy & ix & v & ch & Eo & Hv & Hn & Ew & Ev).
    destruct (wf_model_overlaps m y x iy ix Hwf Hy Hx (not_eq_sym Hxy) Eo) as (_ & _ & Eo').
    apply has_support_spec. exists iy, ix, v, ch. repeat split; auto.
    apply filter_In. split; [exact Hv |].
    apply has_support_spec. exists ix, iy, w, ch. repeat split; auto.
  - (* an arc into another variable: its target is unchanged *)
    unfold arc_ok in *. rewrite (dom_get_set_other _ _ v) by exact Hvx.
    destruct (dom_get d v) as [dv | e] eqn:Gv.
    + destruct (Var_eq_dec u x) as [-> | Hux].
      * rewrite Gx in Hok. rewrite (dom_get_set_same _ _ _ _ Gx).
        apply forallb_forall. intros w Hw. apply filter_In in Hw as [Hw _].
        rewrite forallb_forall in Hok. now apply Hok.
      * rewrite dom_get_set_other by exact Hux. exact Hok.
    + destruct (dom_get (dom_set d x dx') u); reflexivity.
Qed.

Lemma ac3_loop_arc_consistent : forall m,
    wf_model m = true ->
    forall fuel d arcs d',
      (forall x y, In x (variables m) -> In y (neighbors m x) ->
                   In (x, y) arcs \/ arc_ok m d x y = true) ->
      ac3_loop m fuel d arcs = Ok (true, d') ->
      forall x y, In x (variables m) -> In y (neighbors m x) ->
                  arc_ok m d' x y = true.
Proof.
  intros m Hwf. induction fuel as [| fuel IH]; intros d arcs d' Inv H; simpl in H.
  - discriminate.
  - destruct arcs as [| [x y] rest].
    + inv_Ok. intros u v Hu Hv. destruct (Inv u v Hu Hv) as [[] | Hok]; exact Hok.
    + inv_bind H. destruct r as [revised d1].
      destruct revised.
      * inv_bind H. destruct (List.length r =? 0); [discriminate |].
        apply (IH d1 (rest ++ requeue m x y) d'); [| exact H]. intros u v Hu Hv.
        destruct (Inv u v Hu Hv) as [[Heq | Hin] | Hok].
        -- injection Heq as <- <-. right. eapply revise_arc_ok_self; eauto.
        -- left. apply in_or_app. now left.
        -- destruct (Var_eq_dec v x) as [-> | Hvx].
           ++ destruct (Var_eq_dec u y) as [-> | Huy].
              ** right. eapply revise_arc_ok_other; eauto.
              ** left. apply in_or_app. right. apply requeue_In.
                 repeat split; auto. now apply neighbors_sym.
           ++ right. eapply revise_arc_ok_other; eauto.
      * pose proof (revise_false_same _ _ _ _ _ E) as ->.
        apply (IH d rest d'); [| exact H]. intros u v Hu Hv.
        destruct (Inv u v Hu Hv) as [[Heq | Hin] | Hok]; auto.
        injection Heq as <- <-. right. eapply revise_arc_ok_self; eauto.
Qed.

(** On a store whose queued arcs are all consistent the loop changes
    nothing and ends with [True]. *)
Lemma ac3_loop_consistent_noop : forall m d,
    wf_model m = true -> dom_keys d = variables m -> node_consistent d = true ->
    forall arcs fuel,
      Forall (valid_arc m) arcs ->
      (forall x y, In (x, y) arcs -> arc_ok m d x y = true) ->
      List.length arcs < fuel ->
      ac3_loop m fuel d arcs = Ok (true, d).
Proof.
  intros m d Hwf Hk Hn. induction arcs as [| [x y] rest IH]; intros fuel Hv Hok Hf.
  - destruct fuel; [simpl in Hf; lia | reflexivity].
  - destruct fuel as [| fuel]; [simpl in Hf; lia |]. simpl in *.
    inversion Hv as [| p l Hxy Hrest]; subst.
    destruct (valid_arc_revise_total m d x y Hwf Hk Hn Hxy) as (b & d1 & Hr).
    rewrite Hr. simpl.
    destruct (revise_sound _ _ _ _ _ _ Hr) as (dx & dy & _ & _ & _ & Gx & Gy & Hd1 & Hb).
    specialize (Hok x y (or_introl eq_refl)) as Hxyok.
    unfold arc_ok in Hxyok. rewrite Gx, Gy in Hxyok. rewrite Hxyok in Hb.
    simpl in Hb. subst b. apply revise_false_same in Hr. subst d1.
    apply IH; auto. lia.
Qed.

(** C9: a second run of [enforce_node_consistency] changes nothing; and
    when [ac3] over all arcs has run to completion (the queue was emptied:
    it returned [True]) on a node-consistent store of a well-formed model,
    a second run returns [True] again and leaves the store as it is. *)
Theorem preprocessing_idempotent :
  forall m d,
    enforce_node_consistency (enforce_node_consistency d) =
    enforce_node_consistency d /\
    forall d1,
      wf_model m = true -> dom_keys d = variables m ->
      node_consistent d = true ->
      ac3 m d None = Ok (true, d1) ->
      ac3 m d1 None = Ok (true, d1).
Proof.
  intros m d. split; [apply enforce_idempotent |].
  intros d1 Hwf Hk Hn H.
  pose proof (ac3_node_consistent _ _ _ _ _ Hn H) as Hn1.
  destruct (ac3_shrinks _ _ _ _ _ H) as [Hk1 _].
  assert (Hk1' : dom_keys d1 = variables m) by congruence.
  unfold ac3 in *.
  apply ac3_loop_consistent_noop; auto.
  - now apply all_arcs_valid.
  - intros x y Hin. apply all_arcs_In in Hin as [Hx Hy]. rewrite Hk1' in Hx.
    revert x y Hx Hy. eapply ac3_loop_arc_consistent; eauto.
    intros x y Hx Hy. left. apply all_arcs_In. split; [congruence | exact Hy].
  - unfold ac3_fuel. lia.
Qed.

Lemma preprocessing_idempotent_witness :
  let d := enforce_node_consistency (init_domains puzzle_cross) in
  let d1 := [(slot_across, ["cat"%string]); (slot_down, ["art"%string])] in
  ac3 puzzle_cross d None = Ok (true, d1) /\
  ac3 puzzle_cross d1 None = Ok (true, d1).
Proof.
  intros d d1. split; [reflexivity |].
  destruct (preprocessing_idempotent puzzle_cross d) as [_ H].
  apply H; reflexivity.
Defined.

(** After a [False] result the queue was abandoned: the store need not be
    arc consistent and a further run may still remove values. *)
Remark ac3_after_failure_not_fixpoint :
  let d := enforce_node_consistency (init_domains puzzle_clash) in
  exists d1 d2,
    ac3 puzzle_clash d None = Ok (false, d1) /\
    ac3 puzzle_clash d1 None = Ok (false, d2) /\ d2 <> d1.
Proof.
  exists [(slot_across, []); (slot_down, ["cat"%string; "dog"%string])],
         [(slot_across, []); (slot_down, [])].
  repeat split; discriminate.
Qed.

(** ** [select_unassigned_variable] *)

Lemma select_candidates_spec : forall d a,
    select_candidates d a =
    match rev (filter (unassigned a) (dom_keys d)) with
    | [] => []
    | x :: _ => [x]
    end.
Proof.
  intros d a. unfold select_candidates, dom_keys.
  induction d as [| [i values] d IH] using rev_ind; [reflexivity |].
  rewrite fold_left_app, map_app, filter_app, rev_app_distr. simpl.
  unfold unassigned at 1. destruct (asg_mem i a); simpl.
  - exact IH.
  - reflexivity.
Qed.

(** What the function computes: the last key of the store that is not in
    the assignment, whatever the sizes of the domains. *)
Lemma select_spec : forall m d a,
    select_unassigned_variable m d a =
    hd_error (rev (filter (unassigned a) (dom_keys d))).
Proof.
  intros m d a. unfold select_unassigned_variable.
  rewrite select_candidates_spec.
  destruct (rev (filter (unassigned a) (dom_keys d))); reflexivity.
Qed.

Lemma select_Some : forall m d a x,
    select_unassigned_variable m d a = Some x ->
    In x (dom_keys d) /\ asg_mem x a = false.
Proof.
  intros m d a x H. rewrite select_spec in H.
  assert (Hin : In x (rev (filter (unassigned a) (dom_keys d)))).
  { destruct (rev (filter (unassigned a) (dom_keys d))); simpl in H;
      [discriminate | injection H as ->; now left]. }
  apply in_rev, filter_In in Hin as [Hk Hu]. split; [exact Hk |].
  now apply negb_true_iff in Hu.
Qed.

Lemma select_incomplete : forall m d a,
    assignment_complete d a = false ->
    exists x, select_unassigned_variable m d a = Some x.
Proof.
  intros m d a H. unfold assignment_complete in H.
  apply forallb_false_ex in H as (k & Hk & Hm).
  rewrite select_spec.
  assert (Hin : In k (rev (filter (unassigned a) (dom_keys d)))).
  { apply -> in_rev. apply filter_In. split; [exact Hk |].
    unfold unassigned. now rewrite Hm. }
  destruct (rev (filter (unassigned a) (dom_keys d))) as [| x l]; [destruct Hin |].
  exists x. reflexivity.
Qed.

Lemma select_last_unassigned : forall m d1 x s d2 a,
    asg_mem x a = false ->
    (forall k, In k (dom_keys d2) -> asg_mem k a = true) ->
    select_unassigned_variable m (d1 ++ (x, s) :: d2) a = Some x.
Proof.
  intros m d1 x s d2 a Hx Hd2. rewrite select_spec. unfold dom_keys.
  rewrite map_app, filter_app. simpl. unfold unassigned at 2. rewrite Hx. simpl.
  assert (E : filter (unassigned a) (map fst d2) = []).
  { induction d2 as [| [k s2] d2 IH]; [reflexivity |]. simpl.
    unfold unassigned at 1. rewrite (Hd2 k) by now left. simpl.
    apply IH. intros k' Hk'. apply Hd2. now right. }
  rewrite E, rev_app_distr. reflexivity.
Qed.

(** C4: on the store of [puzzle_uneven] after node consistency the first
    slot has one candidate and the second has two, both are unassigned,
    and the function returns the second: not a variable of minimum domain
    size. *)
Theorem select_unassigned_variable_ignores_domain_size :
  let d := enforce_node_consistency (init_domains puzzle_uneven) in
  dom_get d slot_across = Ok ["cat"%string] /\
  dom_get d slot_long = Ok ["door"%string; "bear"%string] /\
  select_unassigned_variable puzzle_uneven d [] = Some slot_long.
Proof.
  repeat split.
Qed.

(** ** [order_domain_values] *)

Lemma natorder_leb_le : forall x y, NatOrder.leb x y = true <-> x <= y.
Proof.
  induction x as [| x IH]; destruct y as [| y]; simpl.
  - split; auto.
  - split; [lia | auto].
  - split; [discriminate | lia].
  - rewrite IH. lia.
Qed.

Lemma StronglySorted_impl : forall (A : Type) (R R' : A -> A -> Prop) (l : list A),
    (forall a b, R a b -> R' a b) -> StronglySorted R l -> StronglySorted R' l.
Proof.
  intros A R R' l HR H. induction H as [| a l Hs IH Hf]; constructor; auto.
  eapply Forall_impl; [| exact Hf]. auto.
Qed.

Lemma sort_sorted : forall l, StronglySorted le (NatSort.sort l).
Proof.
  intros l.
  apply StronglySorted_impl with (R := fun x y => is_true (NatOrder.leb x y)).
  - intros a b H. now apply natorder_leb_le.
  - apply NatSort.StronglySorted_sort.
    intros x y z H1 H2. apply natorder_leb_le in H1, H2.
    apply natorder_leb_le. lia.
Qed.

Lemma StronglySorted_app : forall (A : Type) (R : A -> A -> Prop) (l1 l2 : list A),
    StronglySorted R l1 -> StronglySorted R l2 ->
    (forall a b, In a l1 -> In b l2 -> R a b) ->
    StronglySorted R (l1 ++ l2).
Proof.
  intros A R l1 l2 H1 H2 H12. induction H1 as [| a l Hs IH Hf]; simpl; [exact H2 |].
  constructor.
  - apply IH. intros x y Hx Hy. apply H12; [now right | exact Hy].
  - apply Forall_app. split; [exact Hf |].
    apply Forall_forall. intros y Hy. apply H12; [now left | exact Hy].
Qed.

Section Grouping.

(** the score by which [order_domain_values] groups the values *)
Variable score : string -> nat.

Lemma counts_add_keys : forall cd k v,
    NoDup (map fst cd) -> NoDup (map fst (counts_add cd k v)).
Proof.
  induction cd as [| [k0 l0] r IH]; intros k v H; simpl.
  - constructor; [intros [] | constructor].
  - destruct (k0 =? k) eqn:E; simpl; [exact H |].
    inversion H as [| ? ? Hn Hr]; subst. constructor; [| now apply IH].
    intros Hin. apply Hn. clear - Hin E.
    induction r as [| [k1 l1] r IH]; simpl in *.
    + destruct Hin as [<- | []]. rewrite Nat.eqb_refl in E. discriminate.
    + destruct (k1 =? k); simpl in *; [exact Hin |].
      destruct Hin as [-> | Hin]; [now left | right; auto].
Qed.

Lemma counts_add_perm : forall cd k v,
    Permutation (v :: List.concat (map snd cd)) (List.concat (map snd (counts_add cd k v))).
Proof.
  induction cd as [| [k0 l0] r IH]; intros k v; simpl.
  - reflexivity.
  - destruct (k0 =? k); simpl.
    + rewrite <- app_assoc. simpl. apply Permutation_middle.
    + rewrite <- IH. apply Permutation_middle.
Qed.

Lemma counts_add_grouped : forall cd v,
    well_grouped score cd -> well_grouped score (counts_add cd (score v) v).
Proof.
  induction cd as [| [k0 l0] r IH]; intros v H k l Hin w Hw; simpl in Hin.
  - destruct Hin as [E | []]. injection E as <- <-.
    destruct Hw as [<- | []]. reflexivity.
  - destruct (k0 =? score v) eqn:E.
    + destruct Hin as [E' | Hin].
      * injection E' as <- <-. apply Nat.eqb_eq in E.
        apply in_app_or in Hw as [Hw | [<- | []]]; [| now symmetry].
        apply (H k0 l0); [now left | exact Hw].
      * apply (H k l); [now right | exact Hw].
    + destruct Hin as [E' | Hin].
      * injection E' as <- <-. apply (H k0 l0); [now left | exact Hw].
      * apply (IH v) with (k := k) (l := l); auto.
        intros k' l' Hin' w' Hw'. apply (H k' l'); [now right | exact Hw'].
Qed.

Lemma grouped_invariant : forall vs cd,
    NoDup (map fst cd) -> well_grouped score cd ->
    NoDup (map fst (grouped score vs cd)) /\ well_grouped score (grouped score vs cd) /\
    Permutation (vs ++ List.concat (map snd cd)) (List.concat (map snd (grouped score vs cd))).
Proof.
  induction vs as [| v vs IH]; intros cd Hn Hg; simpl.
  - auto.
  - destruct (IH (counts_add cd (score v) v)) as (H1 & H2 & H3).
    + now apply counts_add_keys.
    + now apply counts_add_grouped.
    + repeat split; auto. rewrite <- H3, <- counts_add_perm.
      apply Permutation_middle.
Qed.

Lemma counts_get_skip : forall k l r ks,
    ~ In k ks ->
    flat_map (counts_get ((k, l) :: r)) ks = flat_map (counts_get r) ks.
Proof.
  intros k l r. induction ks as [| i ks IH]; intros H; simpl; [reflexivity |].
  destruct (k =? i) eqn:E.
  - apply Nat.eqb_eq in E. subst. exfalso. apply H. now left.
  - f_equal. apply IH. intros Hin. apply H. now right.
Qed.

Lemma counts_get_keys : forall cd,
    NoDup (map fst cd) ->
    flat_map (counts_get cd) (map fst cd) = List.concat (map snd cd).
Proof.
  induction cd as [| [k l] r IH]; intros H; simpl; [reflexivity |].
  inversion H as [| ? ? Hn Hr]; subst.
  rewrite Nat.eqb_refl. f_equal.
  rewrite <- (IH Hr). now apply counts_get_skip.
Qed.

Lemma counts_get_In : forall cd i,
    In i (map fst cd) -> In (i, counts_get cd i) cd.
Proof.
  induction cd as [| [k l] r IH]; intros i H; simpl in *; [destruct H |].
  destruct (k =? i) eqn:E.
  - apply Nat.eqb_eq in E. subst. now left.
  - destruct H as [-> | H]; [rewrite Nat.eqb_refl in E; discriminate |].
    right. now apply IH.
Qed.

Lemma flat_map_sorted : forall (f : nat -> list string) ks,
    StronglySorted le ks ->
    (forall k w, In k ks -> In w (f k) -> score w = k) ->
    StronglySorted (fun v w => score v <= score w) (flat_map f ks).
Proof.
  intros f ks H. induction H as [| k ks Hs IH Hf]; intros Hsc; simpl.
  - constructor.
  - apply StronglySorted_app.
    + assert (Heq : forall w, In w (f k) -> score w = k)
        by (intros w Hw; apply Hsc; [now left | exact Hw]).
      clear - Heq. induction (f k) as [| w l IHl]; constructor.
      * apply IHl. intros; apply Heq; now right.
      * apply Forall_forall. intros w' Hw'.
        rewrite (Heq w), (Heq w'); [lia | now right | now left].
    + apply IH. intros k' w Hk' Hw. apply Hsc; [now right | exact Hw].
    + intros a b Ha Hb. apply in_flat_map in Hb as (k' & Hk' & Hb).
      rewrite (Hsc k a), (Hsc k' b); auto.
      * rewrite Forall_forall in Hf. now apply Hf.
      * now right.
      * now left.
Qed.

(** Grouping by score, sorting the scores and concatenating the groups
    is a permutation of the values, sorted by score. *)
Lemma grouped_sorted_permutation : forall vs,
    let cd := grouped score vs [] in
    let l := flat_map (counts_get cd) (NatSort.sort (map fst cd)) in
    Permutation vs l /\ StronglySorted (fun v w => score v <= score w) l.
Proof.
  intros vs cd l.
  destruct (grouped_invariant vs []) as (Hn & Hg & Hp).
  { constructor. }
  { intros k l0 []. }
  fold cd in Hn, Hg, Hp. simpl in Hp. rewrite app_nil_r in Hp. split.
  - rewrite Hp, <- (counts_get_keys cd Hn).
    apply Permutation_flat_map. apply NatSort.Permuted_sort.
  - apply flat_map_sorted; [apply sort_sorted |].
    intros k w Hk Hw.
    assert (Hk' : In k (map fst cd)).
    { eapply Permutation_in; [| exact Hk].
      apply Permutation_sym, NatSort.Permuted_sort. }
    apply (Hg k (counts_get cd k)); [now apply counts_get_In | exact Hw].
Qed.

End Grouping.

Lemma neighboring_values_total : forall d ns,
    (forall n, In n ns -> In n (dom_keys d)) ->
    exists nb, neighboring_values d ns = Ok nb.
Proof.
  intros d. induction ns as [| n ns IH]; intros H; simpl; [eauto |].
  destruct (proj1 (dom_get_in_keys d n) (H n (or_introl eq_refl))) as (s & ->).
  destruct IH as (tl & ->); [intros; apply H; now right |]. simpl. eauto.
Qed.

Lemma neighboring_values_count : forall d ns nb v,
    neighboring_values d ns = Ok nb ->
    count_occ string_dec nb v =
    list_sum (map (fun n => match dom_get d n with
                            | Ok s => count_occ string_dec s v
                            | Raise _ => 0
                            end) ns).
Proof.
  intros d. induction ns as [| n ns IH]; intros nb v H; simpl in H.
  - now inv_Ok.
  - inv_bind H. inv_bind H. inv_Ok. simpl. rewrite E, count_occ_app.
    f_equal. now apply IH.
Qed.

(** C6: for an unassigned variable whose neighbors all have a domain,
    [order_domain_values] returns a list that is a permutation of the
    variable's domain (every word exactly once) and is sorted ascending by
    the conflict score, the number of occurrences of the word in the
    domains of the neighbors. *)
Theorem order_domain_values_sorted_permutation :
  forall m d var a dv,
    asg_mem var a = false ->
    dom_get d var = Ok dv ->
    (forall n, In n (neighbors m var) -> In n (dom_keys d)) ->
    exists l,
      order_domain_values m d var a = Ok (OdvList l) /\
      Permutation dv l /\
      (forall w, In w l <-> In w dv) /\
      (NoDup dv -> NoDup l) /\
      StronglySorted
        (fun v w => conflict_score m d var v <= conflict_score m d var w) l.
Proof.
  intros m d var a dv Ha Hd Hn.
  destruct (neighboring_values_total d (neighbors m var) Hn) as (nb & Hnb).
  unfold order_domain_values. rewrite Ha, Hd, Hnb. simpl.
  destruct (grouped_sorted_permutation (conflict_count nb) dv) as [Hp Hs].
  eexists. split; [reflexivity |]. split; [exact Hp |]. split; [| split].
  - intros w. split; apply Permutation_in; [now apply Permutation_sym | exact Hp].
  - intros Hnd. eapply Permutation_NoDup; eauto.
  - eapply StronglySorted_impl; [| exact Hs]. simpl. intros v w Hvw.
    unfold conflict_count, conflict_score in *.
    now rewrite <- !(neighboring_values_count d (neighbors m var) nb) by exact Hnb.
Qed.

Lemma order_domain_values_sorted_permutation_witness :
  let d := enforce_node_consistency (init_domains puzzle_cross) in
  exists l,
    order_domain_values puzzle_cross d slot_down [] = Ok (OdvList l) /\
    Permutation ["cat"%string; "art"%string] l.
Proof.
  intros d.
  destruct (order_domain_values_sorted_permutation
              puzzle_cross d slot_down [] ["cat"%string; "art"%string])
    as (l & H1 & H2 & _).
  - reflexivity.
  - reflexivity.
  - intros n [<- | []]. simpl. auto.
  - exists l. split; assumption.
Defined.

Lemma order_domain_values_perm : forall m d var a l,
    order_domain_values m d var a = Ok (OdvList l) ->
    asg_mem var a = false /\ exists dv, dom_get d var = Ok dv /\ Permutation dv l.
Proof.
  intros m d var a l H. unfold order_domain_values in H.
  destruct (asg_mem var a); [discriminate |]. split; [reflexivity |].
  inv_bind H. inv_bind H. inv_Ok. exists r. split; [exact E |].
  apply grouped_sorted_permutation.
Qed.

Lemma order_domain_values_total : forall m d var a dv,
    asg_mem var a = false -> dom_get d var = Ok dv ->
    (forall n, In n (neighbors m var) -> In n (dom_keys d)) ->
    exists l, order_domain_values m d var a = Ok (OdvList l) /\ Permutation dv l.
Proof.
  intros m d var a dv Ha Hd Hn.
  destruct (neighboring_values_total d (neighbors m var) Hn) as (nb & Hnb).
  unfold order_domain_values. rewrite Ha, Hd, Hnb. simpl.
  eexists. split; [reflexivity |]. apply grouped_sorted_permutation.
Qed.

(** ** The assignment dict *)

Lemma asg_mem_cons : forall x k w r,
    asg_mem x ((k, w) :: r) = false -> x <> k /\ asg_mem x r = false.
Proof.
  intros x k w r H. unfold asg_mem in *. rewrite var_mem_false in *. simpl in H.
  split; [intros -> |]; tauto.
Qed.

Lemma asg_set_new : forall a x v,
    asg_mem x a = false -> asg_set a x v = a ++ [(x, v)].
Proof.
  induction a as [| [k w] r IH]; intros x v H; simpl; [reflexivity |].
  apply asg_mem_cons in H as [Hn Hr].
  destruct (Var_eq_dec x k); [contradiction |]. now rewrite IH.
Qed.

Lemma asg_pop_set : forall a x v,
    asg_mem x a = false -> asg_pop (asg_set a x v) x = Ok a.
Proof.
  induction a as [| [k w] r IH]; intros x v H; simpl.
  - destruct (Var_eq_dec x x); [reflexivity | congruence].
  - apply asg_mem_cons in H as [Hn Hr].
    destruct (Var_eq_dec x k); [contradiction |]. simpl.
    destruct (Var_eq_dec x k); [contradiction |]. now rewrite IH.
Qed.

Lemma asg_get_In : forall a x w, asg_get a x = Ok w -> In (x, w) a.
Proof.
  induction a as [| [k w0] r IH]; intros x w H; simpl in *; [discriminate |].
  destruct (Var_eq_dec x k) as [-> | n]; [inv_Ok; now left | right; auto].
Qed.

Lemma asg_mem_get : forall a x,
    asg_mem x a = true <-> exists w, asg_get a x = Ok w.
Proof.
  intros a x. unfold asg_mem. rewrite var_mem_true.
  induction a as [| [k w0] r IH]; simpl.
  - split; [tauto | intros (w & H); discriminate].
  - destruct (Var_eq_dec x k) as [-> | n].
    + split; eauto.
    + rewrite <- IH. split; [intros [E | H]; [congruence | exact H] | auto].
Qed.


(** ** [backtrack]: a failed call leaves the assignment as it found it *)

Lemma try_values_restores : forall m d recurse pa,
    (forall a0 out0 a1 out1,
        recurse a0 out0 = Ok (RetNone, a1, out1) -> a1 = a0) ->
    forall vals a out a' out',
      asg_mem pa a = false ->
      try_values m d recurse pa vals a out = Ok (RetNone, a', out') ->
      a' = a.
Proof.
  intros m d recurse pa Hrec.
  induction vals as [| v rest IH]; intros a out a' out' Hpa H; simpl in H.
  - now inv_Ok.
  - destruct (set_mem v (asg_values a)); [eauto |].
    inv_bind H. destruct r as [[is_done a1] out1]. destruct is_done.
    + apply Hrec in E. subst a1. rewrite asg_pop_set in H by exact Hpa.
      simpl in H. eauto.
    + inv_bind H. discriminate.
Qed.

Lemma not_falsy_list : forall vc,
    falsy vc = false -> vc = OdvList (ordered_list vc) /\ ordered_list vc <> [].
Proof.
  intros [| [| v l]] H; simpl in *; try discriminate. split; [reflexivity | discriminate].
Qed.

Lemma backtrack_none_same_assignment :
  forall m d fuel a out a' out',
    backtrack m d fuel a out = Ok (RetNone, a', out') -> a' = a.
Proof.
  intros m d. induction fuel as [| fuel IH]; intros a out a' out' H; simpl in H.
  - discriminate.
  - inv_bind H. destruct (negb r); [now inv_Ok |].
    destruct (assignment_complete d a); [discriminate |].
    destruct (select_unassigned_variable m d a) as [pa |]; [| discriminate].
    inv_bind H. destruct (falsy r0) eqn:Ef; [discriminate |].
    apply not_falsy_list in Ef as [Ev _]. rewrite Ev in E0.
    apply order_domain_values_perm in E0 as [Hpa _].
    eapply try_values_restores; eauto.
Qed.

(** C10: when [backtrack] returns [None], the assignment dict it was given
    holds exactly the bindings, in the same order, that it held before the
    call. *)
Theorem backtrack_failure_restores_assignment :
  forall m d fuel a out a' out',
    backtrack m d fuel a out = Ok (RetNone, a', out') -> a' = a.
Proof.
  intros m d. induction fuel as [| fuel IH]; intros a out a' out' H; simpl in H.
  - discriminate.
  - inv_bind H. destruct (negb r); [now inv_Ok |].
    destruct (assignment_complete d a); [discriminate |].
    destruct (select_unassigned_variable m d a) as [pa |] eqn:Es; [| discriminate].
    apply select_Some in Es as [_ Hpa].
    inv_bind H. destruct (falsy r0); [discriminate |].
    eapply try_values_restores; eauto.
Qed.

Lemma backtrack_failure_restores_assignment_witness :
  let d := [(slot_across, ["cat"%string]); (slot_apart, ["cat"%string])] in
  let a := [(slot_apart, "cat"%string)] in
  backtrack puzzle_twin d 3 a [] = Ok (RetNone, a, []) /\ a = a.
Proof.
  intros d a. split; [reflexivity |].
  apply (backtrack_failure_restores_assignment puzzle_twin d 3 a [] a []).
  reflexivity.
Defined.

(** ** [backtrack] with no candidate to try *)

Lemma backtrack_no_candidates : forall m d fuel a out x vc,
    consistent m d a = Ok true ->
    assignment_complete d a = false ->
    select_unassigned_variable m d a = Some x ->
    order_domain_values m d x a = Ok vc ->
    falsy vc = true ->
    backtrack m d (S fuel) a out = Ok (RetAssignment, a, out ++ [something_is_off]).
Proof.
  intros m d fuel a out x vc Hc Hi Hs Ho Hf. simpl.
  rewrite Hc. simpl. rewrite Hi, Hs, Ho. simpl. now rewrite Hf.
Qed.


(** C2: in [puzzle_clash] after [ac3] the across slot has no candidate
    left; with the down slot bound to "cat" the assignment is consistent
    and incomplete, the across slot is selected, its candidate list is
    empty, and [backtrack] returns the assignment itself, not [None]. *)
Theorem backtrack_empty_candidates_returns_partial :
  let d := [(slot_across, []); (slot_down, ["cat"%string; "dog"%string])] in
  let a := [(slot_down, "cat"%string)] in
  ac3 puzzle_clash (enforce_node_consistency (init_domains puzzle_clash)) None
  = Ok (false, d) /\
  consistent puzzle_clash d a = Ok true /\
  assignment_complete d a = false /\
  select_unassigned_variable puzzle_clash d a = Some slot_across /\
  order_domain_values puzzle_clash d slot_across a = Ok (OdvList []) /\
  backtrack puzzle_clash d 2 a [] = Ok (RetAssignment, a, [something_is_off]).
Proof.
  repeat split.
Qed.

(** C1: [puzzle_short] has one slot of length 3 and no word of length 3;
    [solve] returns the empty assignment, which is not [None] and is not
    complete. *)
Theorem solve_returns_incomplete_assignment :
  solve puzzle_short = Ok (Some [], [something_is_off]) /\
  assignment_complete (enforce_node_consistency (init_domains puzzle_short)) []
  = false.
Proof.
  split; reflexivity.
Qed.

(** ** A complete result of [backtrack] has passed [consistent] *)

Lemma consistent_loop_in_domain : forall m d a keys,
    consistent_loop m d a keys = Ok true ->
    forall x, In x keys ->
              exists w dv, asg_get a x = Ok w /\ dom_get d x = Ok dv /\ In w dv.
Proof.
  intros m d a. induction keys as [| var rest IH]; intros H x Hx; simpl in *.
  - destruct Hx.
  - inv_bind H. inv_bind H. destruct (set_mem r r0) eqn:Em; [| discriminate].
    inv_bind H. destruct r1; [| discriminate].
    destruct Hx as [<- | Hx]; [| auto].
    exists r, r0. repeat split; auto. now apply set_mem_true.
Qed.

Lemma ac3_loop_false_empty : forall m fuel d arcs d',
    ac3_loop m fuel d arcs = Ok (false, d') -> exists x, dom_get d' x = Ok [].
Proof.
  intros m. induction fuel as [| fuel IH]; intros d arcs d' H; simpl in H.
  - discriminate.
  - destruct arcs as [| [x y] rest]; [discriminate |].
    inv_bind H. destruct r as [revised d1]. destruct revised; [| eauto].
    inv_bind H. destruct (List.length r =? 0) eqn:El; [| eauto].
    inv_Ok. exists x. apply Nat.eqb_eq, length_zero_iff_nil in El. now subst.
Qed.

Lemma try_values_complete_consistent : forall m d recurse pa,
    (forall a0 o0 a1 o1,
        recurse a0 o0 = Ok (RetAssignment, a1, o1) ->
        assignment_complete d a1 = true -> consistent m d a1 = Ok true) ->
    forall vals a out a' out',
      try_values m d recurse pa vals a out = Ok (RetAssignment, a', out') ->
      assignment_complete d a' = true -> consistent m d a' = Ok true.
Proof.
  intros m d recurse pa Hrec.
  induction vals as [| v rest IH]; intros a out a' out' H Hc; simpl in H.
  - discriminate.
  - destruct (set_mem v (asg_values a)); [eauto |].
    inv_bind H. destruct r as [[is_done a1] out1]. destruct is_done.
    + inv_bind H. eauto.
    + inv_bind H. inv_Ok. eauto.
Qed.

Lemma backtrack_complete_consistent : forall m d fuel a out a' out',
    backtrack m d fuel a out = Ok (RetAssignment, a', out') ->
    assignment_complete d a' = true -> consistent m d a' = Ok true.
Proof.
  intros m d. induction fuel as [| fuel IH]; intros a out a' out' H Hc; simpl in H.
  - discriminate.
  - inv_bind H. destruct r; simpl in H; [| discriminate].
    destruct (assignment_complete d a) eqn:Ec; [now inv_Ok |].
    destruct (select_unassigned_variable m d a) as [pa |]; [| discriminate].
    inv_bind H. destruct (falsy r); [inv_Ok; congruence |].
    eapply try_values_complete_consistent; eauto.
Qed.

Lemma complete_not_consistent_with_empty_domain : forall m d a x,
    dom_get d x = Ok [] -> assignment_complete d a = true ->
    consistent m d a <> Ok true.
Proof.
  intros m d a x Hx Hc Hcons.
  assert (Hk : In x (dom_keys d)) by (apply dom_get_in_keys; eauto).
  unfold assignment_complete in Hc. rewrite forallb_forall in Hc.
  specialize (Hc x Hk). unfold asg_mem in Hc. apply var_mem_true in Hc.
  destruct (consistent_loop_in_domain m d a _ Hcons x Hc) as (w & dv & _ & Hd & Hw).
  rewrite Hx in Hd. inv_Ok. destruct Hw.
Qed.

(** ** Pruning never removes the words of a solution *)

Lemma init_get : forall m x,
    In x (variables m) -> dom_get (init_domains m) x = Ok (words m).
Proof.
  intros m x. unfold init_domains.
  induction (variables m) as [| k r IH]; simpl; [tauto |].
  destruct (Var_eq_dec x k); [reflexivity |]. intros [E | H]; [congruence | auto].
Qed.

Lemma init_keys : forall m, dom_keys (init_domains m) = variables m.
Proof.
  intros m. unfold dom_keys, init_domains. rewrite map_map. simpl. apply map_id.
Qed.

Lemma sol_in_init : forall m s, solution m s -> sol_in m s (init_domains m).
Proof.
  intros m s (Hs & _) x Hx. destruct (Hs x Hx) as (w & Gw & Hw & _).
  exists w, (words m). split; [exact Gw |]. split; [now apply init_get | exact Hw].
Qed.

Lemma sol_in_enforce : forall m s d,
    solution m s -> sol_in m s d -> sol_in m s (enforce_node_consistency d).
Proof.
  intros m s d (Hs & _) Hin x Hx.
  destruct (Hin x Hx) as (w & dv & Gw & Gd & Hw).
  destruct (Hs x Hx) as (w' & Gw' & _ & Hl). rewrite Gw in Gw'. inv_Ok.
  exists w', (filter (fun w => String.length w =? var_length x) dv).
  split; [exact Gw |]. split; [now apply enforce_get |].
  apply filter_In. split; [exact Hw | now apply Nat.eqb_eq].
Qed.

Lemma find_support_none_constraint : forall v dy s0,
    find_support None v dy = Ok s0 -> forall w, In w dy -> w = v.
Proof.
  intros v. induction dy as [| w0 dy IH]; intros s0 H w Hw; simpl in *.
  - destruct Hw.
  - inv_bind H. unfold supports in E.
    destruct (string_dec v w0) as [-> | n]; [| discriminate].
    inv_Ok. destruct Hw as [<- | Hw]; [reflexivity | eauto].
Qed.

Lemma revise_loop_evaluates : forall c dy copy dx r res,
    revise_loop c copy dy dx r = Ok res ->
    forall v, In v copy -> exists s0, find_support c v dy = Ok s0.
Proof.
  intros c dy. induction copy as [| v0 rest IH]; intros dx r res H v Hv; simpl in *.
  - destruct Hv.
  - inv_bind H. destruct Hv as [<- | Hv]; [eauto |].
    destruct r0; eauto.
Qed.

Lemma revise_evaluates : forall m d x y b d' dx dy,
    revise m d x y = Ok (b, d') ->
    dom_get d x = Ok dx -> dom_get d y = Ok dy ->
    forall v, In v dx -> exists s0, find_support (overlaps m x y) v dy = Ok s0.
Proof.
  intros m d x y b d' dx dy H Gx Gy v Hv. unfold revise in H.
  inv_bind H. apply overlaps_get_Ok in E as (_ & _ & _ & ->).
  rewrite Gx, Gy in H. cbn beta iota delta [bind] in H. inv_bind H.
  eapply revise_loop_evaluates; eauto.
Qed.

Lemma sol_in_revise : forall m s d x y b d',
    solution m s -> sol_in m s d -> revise m d x y = Ok (b, d') ->
    sol_in m s d'.
Proof.
  intros m s d x y b d' Hsol Hin H z Hz.
  destruct (revise_sound _ _ _ _ _ _ H) as (dx & dy & Hxy & Hx & Hy & Gx & Gy & -> & _).
  destruct (Hin z Hz) as (w & dv & Gw & Gd & Hw).
  destruct (Var_eq_dec z x) as [-> | Hzx].
  - rewrite Gx in Gd. inv_Ok.
    exists w. eexists. split; [exact Gw |].
    split; [eapply dom_get_set_same; eauto |].
    apply filter_In. split; [exact Hw |].
    destruct (Hin y Hy) as (wy & dvy & Gwy & Gdy & Hwy).
    rewrite Gy in Gdy. inv_Ok.
    destruct Hsol as (_ & Hov & Hdist).
    assert (Hne : wy <> w) by (apply (Hdist y x); auto).
    destruct (overlaps m x y) as [[ix iy] |] eqn:Eo.
    + destruct (Hov x y ix iy w wy Hx Hy Hxy Eo Gw Gwy) as (ch & Ea & Eb).
      apply has_support_spec. exists ix, iy, wy, ch. repeat split; auto.
    + exfalso. destruct (revise_evaluates _ _ _ _ _ _ _ _ H Gx Gy w Hw) as (s0 & Hf).
      rewrite Eo in Hf. apply Hne.
      eapply find_support_none_constraint; eauto.
  - exists w, dv. split; [exact Gw |]. split; [| exact Hw].
    now rewrite dom_get_set_other.
Qed.

Lemma sol_in_ac3 : forall m s d arcs b d',
    solution m s -> sol_in m s d -> ac3 m d arcs = Ok (b, d') -> sol_in m s d'.
Proof.
  intros m s d arcs b d' Hsol Hin H.
  apply (ac3_invariant m (sol_in m s)) in H; auto.
  intros; eapply sol_in_revise; eauto.
Qed.

(** ** The search tries every word of a solution *)

Lemma consistent_neighbors_of_solution : forall m s a var,
    solution m s -> agrees m a s ->
    forall nbs ok, consistent_neighbors m a var nbs = Ok ok -> ok = true.
Proof.
  intros m s a var Hsol Hag.
  induction nbs as [| n rest IH]; intros ok H; simpl in H.
  - now inv_Ok.
  - inv_bind H. apply overlaps_get_Ok in E as (Hne & Hv & Hn & ->).
    destruct (overlaps m var n) as [[c0 c1] |] eqn:Eo; [| eauto].
    inv_bind H. inv_bind H. inv_bind H. inv_bind H.
    destruct (ascii_dec r1 r2) as [-> | Hd]; [eauto |].
    exfalso. apply Hd.
    apply asg_get_In, Hag in E as [_ Gv]. apply asg_get_In, Hag in E0 as [_ Gn].
    destruct Hsol as (_ & Hov & _).
    destruct (Hov var n c0 c1 r r0 Hv Hn Hne Eo Gv Gn) as (ch & Ea & Eb).
    apply index_Ok in E1, E2. congruence.
Qed.

Lemma consistent_loop_of_solution : forall m s d a,
    solution m s -> sol_in m s d -> agrees m a s ->
    forall keys c, consistent_loop m d a keys = Ok c -> c = true.
Proof.
  intros m s d a Hsol Hin Hag.
  induction keys as [| var rest IH]; intros c H; simpl in H.
  - now inv_Ok.
  - inv_bind H. inv_bind H. destruct (set_mem r r0) eqn:Em.
    + inv_bind H.
      apply (consistent_neighbors_of_solution m s a var Hsol Hag) in E1. subst r1.
      eauto.
    + exfalso. apply set_mem_false in Em. apply Em.
      apply asg_get_In, Hag in E as [Hv Gv].
      destruct (Hin var Hv) as (w & dv & Gw & Gd & Hw).
      rewrite Gv in Gw. rewrite E0 in Gd. now inv_Ok.
Qed.

Lemma try_values_none_all : forall m d recurse pa,
    (forall a0 out0 a1 out1,
        recurse a0 out0 = Ok (RetNone, a1, out1) -> a1 = a0) ->
    forall vals a out a' out',
      asg_mem pa a = false ->
      try_values m d recurse pa vals a out = Ok (RetNone, a', out') ->
      forall v, In v vals ->
                In v (asg_values a) \/
                exists o a1 o1, recurse (asg_set a pa v) o = Ok (RetNone, a1, o1).
Proof.
  intros m d recurse pa Hrec.
  induction vals as [| v0 rest IH]; intros a out a' out' Hpa H v Hv; simpl in H.
  - destruct Hv.
  - destruct (set_mem v0 (asg_values a)) eqn:Em.
    + destruct Hv as [<- | Hv]; [left; now apply set_mem_true | eauto].
    + inv_bind H. destruct r as [[is_done a1] out1]. destruct is_done.
      * pose proof (Hrec _ _ _ _ E) as ->.
        rewrite asg_pop_set in H by exact Hpa. cbn beta iota delta [bind] in H.
        destruct Hv as [<- | Hv]; [right; eauto | eauto].
      * inv_bind H. discriminate.
Qed.

Lemma agrees_extend : forall m a s x w,
    agrees m a s -> In x (variables m) -> asg_get s x = Ok w ->
    asg_mem x a = false -> agrees m (asg_set a x w) s.
Proof.
  intros m a s x w Hag Hx Gw Hm y v Hin. rewrite asg_set_new in Hin by exact Hm.
  apply in_app_or in Hin as [Hin | [E | []]]; [auto |].
  injection E as <- <-. auto.
Qed.

Lemma backtrack_none_no_solution : forall m s d,
    solution m s -> sol_in m s d -> dom_keys d = variables m ->
    forall fuel a out a' out',
      agrees m a s ->
      backtrack m d fuel a out <> Ok (RetNone, a', out').
Proof.
  intros m s d Hsol Hin Hk.
  induction fuel as [| fuel IH]; intros a out a' out' Hag H; simpl in H.
  - discriminate.
  - inv_bind H.
    apply (consistent_loop_of_solution m s d a Hsol Hin Hag) in E. subst r.
    simpl in H. destruct (assignment_complete d a); [discriminate |].
    destruct (select_unassigned_variable m d a) as [pa |] eqn:Es; [| discriminate].
    apply select_Some in Es as [Hpa Hm]. rewrite Hk in Hpa.
    inv_bind H. destruct (falsy r) eqn:Ef; [discriminate |].
    apply not_falsy_list in Ef as [Ev _]. rewrite Ev in E.
    apply order_domain_values_perm in E as (_ & dv & Gd & Hp).
    destruct (Hin pa Hpa) as (w & dv' & Gw & Gd' & Hw).
    rewrite Gd in Gd'. inv_Ok.
    assert (Hw' : In w (ordered_list r)) by (eapply Permutation_in; eauto).
    destruct (try_values_none_all m d (backtrack m d fuel) pa
                (backtrack_none_same_assignment m d fuel)
                _ _ _ _ _ Hm H w Hw') as [Hused | (o & a1 & o1 & Hrec)].
    + apply in_map_iff in Hused as ([y wy] & Ey & Hy). simpl in Ey. subst wy.
      destruct (Hag y w Hy) as [Hyv Gy].
      destruct Hsol as (_ & _ & Hdist).
      apply (Hdist y pa w w Hyv Hpa); auto.
      intros ->. unfold asg_mem in Hm. apply var_mem_false in Hm. apply Hm.
      apply in_map_iff. exists (pa, w). auto.
    + apply (IH _ _ _ _ (agrees_extend m a s pa w Hag Hpa Gw Hm) Hrec).
Qed.

(** C7: when [solve] returns [None], the model has no solution: no
    assignment gives every variable a vocabulary word of its length such
    that crossing slots agree on the shared letter and no word is used
    twice. *)
Theorem solve_none_no_solution :
  forall m out,
    solve m = Ok (None, out) -> forall s, ~ solution m s.
Proof.
  intros m out H s Hsol. unfold solve in H.
  inv_bind H. destruct r as [b d2]. cbn beta iota in H.
  inv_bind H. destruct r as [[ret a] out0]. destruct ret; [| discriminate].
  inv_Ok.
  assert (Hin : sol_in m s d2).
  { eapply sol_in_ac3; eauto. apply sol_in_enforce; auto. now apply sol_in_init. }
  assert (Hk : dom_keys d2 = variables m).
  { destruct (ac3_shrinks _ _ _ _ _ E) as [Hk _].
    now rewrite Hk, enforce_keys, init_keys. }
  eapply (backtrack_none_no_solution m s d2 Hsol Hin Hk); [| eassumption].
  intros x w [].
Qed.

Lemma solve_none_no_solution_witness :
  solve puzzle_twin = Ok (None, []) /\ forall s, ~ solution puzzle_twin s.
Proof.
  split; [reflexivity |].
  apply (solve_none_no_solution puzzle_twin []). reflexivity.
Defined.

(** ** [solve] returns: no exception on a well-formed model, and the
    recursion budget of [backtrack] is never used up *)

Lemma in_domains_length : forall d a x w,
    node_consistent d = true -> in_domains d a -> In (x, w) a ->
    String.length w = var_length x.
Proof.
  intros d a x w Hn Hin Hxw. destruct (Hin x w Hxw) as (dv & Gd & Hw).
  eapply node_consistent_get; eauto.
Qed.

Lemma in_domains_key : forall d a x w,
    in_domains d a -> In (x, w) a -> In x (dom_keys d).
Proof.
  intros d a x w Hin Hxw. destruct (Hin x w Hxw) as (dv & Gd & _).
  apply dom_get_in_keys. eauto.
Qed.

Lemma in_domains_extend : forall d a x v dv,
    in_domains d a -> dom_get d x = Ok dv -> In v dv -> asg_mem x a = false ->
    in_domains d (asg_set a x v).
Proof.
  intros d a x v dv Hin Gd Hv Hm y w Hyw. rewrite asg_set_new in Hyw by exact Hm.
  apply in_app_or in Hyw as [Hyw | [E | []]]; [auto |].
  injection E as <- <-. eauto.
Qed.

Lemma consistent_neighbors_total : forall m d a var,
    wf_model m = true -> dom_keys d = variables m -> node_consistent d = true ->
    in_domains d a -> asg_mem var a = true ->
    forall nbs,
      (forall n, In n nbs -> In n (neighbors m var) /\ asg_mem n a = true) ->
      exists ok, consistent_neighbors m a var nbs = Ok ok.
Proof.
  intros m d a var Hwf Hk Hn Hin Hvar.
  apply asg_mem_get in Hvar as (wv & Gv).
  assert (Hv : In var (variables m)).
  { rewrite <- Hk. eapply in_domains_key; eauto using asg_get_In. }
  induction nbs as [| n rest IH]; intros Hnbs; simpl; [eauto |].
  destruct (Hnbs n (or_introl eq_refl)) as [Hnb Hna].
  apply neighbors_spec in Hnb as (Hnv & Hne & Ho).
  apply asg_mem_get in Hna as (wn & Gn).
  assert (Hg : overlaps_get m var n = Ok (overlaps m var n)).
  { apply overlaps_get_Ok. auto. }
  rewrite Hg. cbn beta iota delta [bind].
  destruct (overlaps m var n) as [[c0 c1] |] eqn:Eo; [| congruence].
  destruct (wf_model_overlaps m var n c0 c1 Hwf Hv Hnv (not_eq_sym Hne) Eo)
    as (R0 & R1 & _).
  rewrite Gv, Gn. cbn beta iota delta [bind].
  rewrite <- (in_domains_length d a var wv Hn Hin (asg_get_In _ _ _ Gv)) in R0.
  rewrite <- (in_domains_length d a n wn Hn Hin (asg_get_In _ _ _ Gn)) in R1.
  destruct (get_Some _ _ R0) as (l & El). destruct (get_Some _ _ R1) as (r & Er).
  unfold index. rewrite El, Er. cbn beta iota delta [bind].
  destruct (ascii_dec l r); [| eauto].
  apply IH. intros n' Hn'. apply Hnbs. now right.
Qed.

Lemma consistent_total : forall m d a,
    wf_model m = true -> dom_keys d = variables m -> node_consistent d = true ->
    in_domains d a ->
    exists c, consistent m d a = Ok c.
Proof.
  intros m d a Hwf Hk Hn Hin. unfold consistent.
  assert (H : forall keys, incl keys (asg_keys a) ->
                           exists c, consistent_loop m d a keys = Ok c).
  { induction keys as [| var rest IH]; intros Hincl; simpl; [eauto |].
    assert (Hvar : asg_mem var a = true).
    { apply var_mem_true, Hincl. now left. }
    destruct (proj1 (asg_mem_get a var) Hvar) as (w & Gv).
    destruct (Hin var w (asg_get_In _ _ _ Gv)) as (dv & Gd & _).
    rewrite Gv, Gd. cbn beta iota delta [bind].
    destruct (set_mem w dv); [| eauto].
    destruct (consistent_neighbors_total m d a var Hwf Hk Hn Hin Hvar
                (filter (fun neighbor => asg_mem neighbor a) (neighbors m var)))
      as (ok & ->).
    { intros n Hnb. now apply filter_In in Hnb. }
    cbn beta iota delta [bind]. destruct ok; [| eauto].
    apply IH. intros k Hk'. apply Hincl. now right. }
  apply H, incl_refl.
Qed.

Lemma filter_length_strict : forall (A : Type) (f g : A -> bool) (l : list A) (x : A),
    (forall k, f k = true -> g k = true) ->
    In x l -> g x = true -> f x = false ->
    List.length (filter f l) < List.length (filter g l).
Proof.
  intros A f g l x Hfg. induction l as [| k l IH]; intros Hx Hg Hf; [destruct Hx |].
  assert (Hle : List.length (filter f l) <= List.length (filter g l)).
  { clear - Hfg. induction l as [| k l IH]; simpl; [lia |].
    destruct (f k) eqn:Ef; [rewrite (Hfg k Ef); simpl; lia |].
    destruct (g k); simpl; lia. }
  simpl. destruct Hx as [-> | Hx].
  - rewrite Hf, Hg. simpl. lia.
  - specialize (IH Hx Hg Hf). destruct (f k) eqn:Ef.
    + rewrite (Hfg k Ef). simpl. lia.
    + destruct (g k); simpl; lia.
Qed.

Lemma remaining_extend : forall d a x v,
    In x (dom_keys d) -> asg_mem x a = false ->
    remaining d (asg_set a x v) < remaining d a.
Proof.
  intros d a x v Hx Hm. rewrite asg_set_new by exact Hm.
  unfold remaining. apply filter_length_strict with (x := x); auto.
  - intros k. unfold unassigned, asg_mem, asg_keys.
    rewrite !negb_true_iff, !var_mem_false, map_app, in_app_iff. tauto.
  - unfold unassigned. now rewrite Hm.
  - unfold unassigned, asg_mem, asg_keys. rewrite negb_false_iff, var_mem_true.
    rewrite map_app, in_app_iff. right. now left.
Qed.

Lemma try_values_total : forall m d recurse pa a,
    wf_model m = true -> dom_keys d = variables m -> node_consistent d = true ->
    asg_mem pa a = false -> in_domains d a ->
    (forall a0 out0 a1 out1,
        recurse a0 out0 = Ok (RetNone, a1, out1) -> a1 = a0) ->
    forall vals,
      (forall v out0, In v vals ->
          exists ret a1 out1,
            recurse (asg_set a pa v) out0 = Ok (ret, a1, out1) /\ in_domains d a1) ->
      forall out,
      exists ret a' out',
        try_values m d recurse pa vals a out = Ok (ret, a', out') /\ in_domains d a'.
Proof.
  intros m d recurse pa a Hwf Hk Hn Hpa Hin Hrest.
  induction vals as [| v rest IH]; intros Hrec out; simpl.
  - exists RetNone, a, out. auto.
  - assert (Hrec' : forall v0 out0, In v0 rest ->
              exists ret a1 out1,
                recurse (asg_set a pa v0) out0 = Ok (ret, a1, out1) /\ in_domains d a1).
    { intros v0 out0 Hv0. apply Hrec. now right. }
    destruct (set_mem v (asg_values a)); [now apply IH |].
    destruct (Hrec v out (or_introl eq_refl)) as (ret & a1 & out1 & E & Hin1).
    rewrite E. cbn beta iota delta [bind]. destruct ret.
    + apply Hrest in E. subst a1. rewrite asg_pop_set by exact Hpa.
      cbn beta iota delta [bind]. now apply IH.
    + destruct (consistent_total m d a1 Hwf Hk Hn Hin1) as (c & ->).
      cbn beta iota delta [bind]. eauto.
Qed.

Lemma backtrack_total : forall m d,
    wf_model m = true -> dom_keys d = variables m -> node_consistent d = true ->
    forall fuel a out,
      in_domains d a -> remaining d a < fuel ->
      exists ret a' out',
        backtrack m d fuel a out = Ok (ret, a', out') /\ in_domains d a'.
Proof.
  intros m d Hwf Hk Hn. induction fuel as [| fuel IH]; intros a out Hin Hf; [lia |].
  simpl. destruct (consistent_total m d a Hwf Hk Hn Hin) as (c & ->).
  cbn beta iota delta [bind]. destruct c; simpl; [| eauto 6].
  destruct (assignment_complete d a) eqn:Ec; [eauto 6 |].
  destruct (select_incomplete m d a Ec) as (pa & Es). rewrite Es.
  destruct (select_Some m d a pa Es) as [Hpa Hm].
  destruct (proj1 (dom_get_in_keys d pa) Hpa) as (dv & Gd).
  destruct (order_domain_values_total m d pa a dv Hm Gd) as (l & Eo & Hp).
  { intros n Hnb. rewrite Hk. now apply neighbors_spec in Hnb. }
  rewrite Eo. cbn beta iota delta [bind]. destruct (falsy (OdvList l)); [eauto 6 |].
  apply try_values_total; auto.
  - apply backtrack_none_same_assignment.
  - intros v out0 Hv. apply IH.
    + apply (in_domains_extend d a pa v dv); auto.
      eapply Permutation_in; [apply Permutation_sym; exact Hp | exact Hv].
    + pose proof (remaining_extend d a pa v Hpa Hm). lia.
Qed.

(** On a well-formed model [solve] raises nothing and returns. *)
Lemma solve_total : forall m,
    wf_model m = true -> exists r out, solve m = Ok (r, out).
Proof.
  intros m Hwf. unfold solve.
  set (d1 := enforce_node_consistency (init_domains m)).
  assert (Hk1 : dom_keys d1 = variables m)
    by (unfold d1; now rewrite enforce_keys, init_keys).
  assert (Hn1 : node_consistent d1 = true) by apply enforce_node_consistent.
  destruct (ac3_total m d1 Hwf Hk1 Hn1) as (b & d2 & Hac3). rewrite Hac3.
  cbn beta iota delta [bind].
  assert (Hk2 : dom_keys d2 = variables m).
  { destruct (ac3_shrinks _ _ _ _ _ Hac3) as [Hk _]. congruence. }
  pose proof (ac3_node_consistent _ _ _ _ _ Hn1 Hac3) as Hn2.
  destruct (backtrack_total m d2 Hwf Hk2 Hn2 (backtrack_fuel d2) [] [])
    as (ret & a & out & -> & _).
  - intros x w [].
  - unfold remaining, backtrack_fuel, dom_keys.
    pose proof (filter_length_le (unassigned []) (map fst d2)).
    rewrite length_map in H. lia.
  - cbn beta iota delta [bind]. eauto.
Qed.

(** ** A complete result of [solve] is a solution *)

Lemma try_values_values_nodup : forall m d recurse pa,
    (forall a0 o0 a1 o1,
        recurse a0 o0 = Ok (RetAssignment, a1, o1) ->
        NoDup (asg_values a0) -> NoDup (asg_values a1)) ->
    (forall a0 out0 a1 out1,
        recurse a0 out0 = Ok (RetNone, a1, out1) -> a1 = a0) ->
    forall vals a out a' out',
      asg_mem pa a = false -> NoDup (asg_values a) ->
      try_values m d recurse pa vals a out = Ok (RetAssignment, a', out') ->
      NoDup (asg_values a').
Proof.
  intros m d recurse pa Hrec Hrest.
  induction vals as [| v rest IH]; intros a out a' out' Hpa Hnd H; simpl in H.
  - discriminate.
  - destruct (set_mem v (asg_values a)) eqn:Em; [eauto |].
    inv_bind H. destruct r as [[is_done a1] out1]. destruct is_done.
    + apply Hrest in E. subst a1. rewrite asg_pop_set in H by exact Hpa.
      cbn beta iota delta [bind] in H. eauto.
    + inv_bind H. inv_Ok. apply (Hrec _ _ _ _ E).
      rewrite asg_set_new by exact Hpa. unfold asg_values. rewrite map_app. simpl.
      apply set_mem_false in Em.
      apply Permutation_NoDup with (l := v :: map snd a).
      * apply Permutation_cons_append.
      * now constructor.
Qed.

Lemma backtrack_values_nodup : forall m d fuel a out a' out',
    backtrack m d fuel a out = Ok (RetAssignment, a', out') ->
    NoDup (asg_values a) -> NoDup (asg_values a').
Proof.
  intros m d. induction fuel as [| fuel IH]; intros a out a' out' H Hnd; simpl in H.
  - discriminate.
  - inv_bind H. destruct r; simpl in H; [| discriminate].
    destruct (assignment_complete d a); [now inv_Ok |].
    destruct (select_unassigned_variable m d a) as [pa |] eqn:Es; [| discriminate].
    apply select_Some in Es as [_ Hm].
    inv_bind H. destruct (falsy r); [now inv_Ok |].
    eapply try_values_values_nodup; eauto using backtrack_none_same_assignment.
Qed.

Lemma values_nodup_same_key : forall (a : assignment) x y w,
    NoDup (asg_values a) -> In (x, w) a -> In (y, w) a -> x = y.
Proof.
  induction a as [| [k v] r IH]; intros x y w Hnd Hx Hy; simpl in *; [destruct Hx |].
  inversion Hnd as [| ? ? Hn Hr]; subst.
  destruct Hx as [Ex | Hx]; destruct Hy as [Ey | Hy].
  - congruence.
  - injection Ex as <- <-. exfalso. apply Hn.
    apply in_map_iff. exists (y, v). auto.
  - injection Ey as <- <-. exfalso. apply Hn.
    apply in_map_iff. exists (x, v). auto.
  - eauto.
Qed.

Lemma consistent_neighbors_true : forall m a var nbs,
    consistent_neighbors m a var nbs = Ok true ->
    forall n c0 c1,
      In n nbs -> overlaps m var n = Some (c0, c1) ->
      exists wv wn ch,
        asg_get a var = Ok wv /\ asg_get a n = Ok wn /\
        String.get c0 wv = Some ch /\ String.get c1 wn = Some ch.
Proof.
  intros m a var. induction nbs as [| n0 rest IH]; intros H n c0 c1 Hn Ho; simpl in H.
  - destruct Hn.
  - inv_bind H. apply overlaps_get_Ok in E as (_ & _ & _ & ->).
    destruct Hn as [<- | Hn].
    + rewrite Ho in H. inv_bind H. inv_bind H. inv_bind H. inv_bind H.
      destruct (ascii_dec r1 r2) as [-> | Hd]; [| discriminate].
      apply index_Ok in E1, E2. exists r, r0, r2. auto.
    + destruct (overlaps m var n0) as [[d0 d1] |]; [| eauto].
      inv_bind H. inv_bind H. inv_bind H. inv_bind H.
      destruct (ascii_dec r1 r2); [eauto | discriminate].
Qed.

Lemma consistent_loop_overlaps : forall m d a keys,
    consistent_loop m d a keys = Ok true ->
    forall x y c0 c1,
      In x keys -> In y (neighbors m x) -> asg_mem y a = true ->
      overlaps m x y = Some (c0, c1) ->
      exists wx wy ch,
        asg_get a x = Ok wx /\ asg_get a y = Ok wy /\
        String.get c0 wx = Some ch /\ String.get c1 wy = Some ch.
Proof.
  intros m d a. induction keys as [| var rest IH]; intros H x y c0 c1 Hx Hy Hm Ho;
    simpl in H.
  - destruct Hx.
  - inv_bind H. inv_bind H. destruct (set_mem r r0); [| discriminate].
    inv_bind H. destruct r1; [| discriminate].
    destruct Hx as [<- | Hx]; [| eauto].
    eapply consistent_neighbors_true; eauto.
    apply filter_In. auto.
Qed.

Lemma enforce_shrinks : forall d, shrinks d (enforce_node_consistency d).
Proof.
  intros d. split; [apply enforce_keys |]. intros x s' H.
  assert (Hk : In x (dom_keys d)).
  { rewrite <- enforce_keys. apply dom_get_in_keys. eauto. }
  apply dom_get_in_keys in Hk as (s & Gs). exists s. split; [exact Gs |].
  rewrite (enforce_get d x s Gs) in H. inv_Ok.
  intros w Hw. now apply filter_In in Hw.
Qed.

Lemma assignment_complete_keys : forall d d' a,
    dom_keys d = dom_keys d' -> assignment_complete d a = assignment_complete d' a.
Proof.
  intros d d' a H. unfold assignment_complete. now rewrite H.
Qed.

(** Whenever [solve] returns an assignment that binds every variable, that
    assignment is a solution of the model. *)
Lemma solve_complete_is_solution : forall m a out,
    solve m = Ok (Some a, out) ->
    assignment_complete (init_domains m) a = true ->
    solution m a.
Proof.
  intros m a out H Hc. unfold solve in H.
  inv_bind H. destruct r as [b d2]. cbn beta iota in H.
  inv_bind H. destruct r as [[ret a0] out0]. destruct ret; [discriminate |].
  inv_Ok.
  pose proof (ac3_shrinks _ _ _ _ _ E) as Hsh2.
  pose proof (shrinks_trans _ _ _ (enforce_shrinks (init_domains m)) Hsh2) as [Hk Hsh].
  pose proof (ac3_node_consistent _ _ _ _ _ (enforce_node_consistent _) E) as Hn2.
  rewrite <- (assignment_complete_keys d2 _ a Hk) in Hc.
  pose proof (backtrack_complete_consistent _ _ _ _ _ _ _ E0 Hc) as Hcons.
  pose proof (backtrack_values_nodup _ _ _ _ _ _ _ E0 (NoDup_nil _)) as Hnd.
  assert (Hall : forall x, In x (variables m) -> asg_mem x a = true).
  { intros x Hx. unfold assignment_complete in Hc. rewrite forallb_forall in Hc.
    apply Hc. now rewrite Hk, init_keys. }
  split; [| split].
  - intros x Hx. specialize (Hall x Hx). unfold asg_mem in Hall.
    apply var_mem_true in Hall.
    destruct (consistent_loop_in_domain m d2 a _ Hcons x Hall) as (w & dv & Gw & Gd & Hw).
    exists w. split; [exact Gw |]. split.
    + destruct (Hsh x dv Gd) as (s & Gs & Hincl).
      rewrite (init_get m x Hx) in Gs. inv_Ok. now apply Hincl.
    + eapply node_consistent_get; eauto.
  - intros x y ix iy wx wy Hx Hy Hxy Ho Gx Gy.
    assert (Hkx : In x (asg_keys a)).
    { apply var_mem_true. apply (Hall x Hx). }
    destruct (consistent_loop_overlaps m d2 a _ Hcons x y ix iy Hkx) as
        (wx' & wy' & ch & Gx' & Gy' & Ex & Ey); auto.
    + apply neighbors_spec. repeat split; auto. congruence.
    + rewrite Gx in Gx'. rewrite Gy in Gy'. inv_Ok. eauto.
  - intros x y wx wy Hx Hy Hxy Gx Gy Heq. subst wy. apply Hxy.
    eapply values_nodup_same_key; eauto using asg_get_In.
Qed.

(** The crossing puzzle of the spec is solved: the result binds both slots
    and is a solution. *)
Example puzzle_cross_solved :
  solve puzzle_cross
  = Ok (Some [(slot_down, "art"%string); (slot_across, "cat"%string)], []) /\
  solution puzzle_cross [(slot_down, "art"%string); (slot_across, "cat"%string)].
Proof.
  split; [reflexivity |].
  apply (solve_complete_is_solution puzzle_cross _ []); reflexivity.
Qed.

(** The one-slot puzzle of the spec: a three-letter word is chosen, never
    the two-letter one. *)
Example puzzle_single_solved :
  solve puzzle_single = Ok (Some [(slot_across, "cat"%string)], []).
Proof.
  reflexivity.
Qed.

(** ** [solve] after [ac3] has emptied a domain *)

(** C3 as the code has it: [solve] discards the result of [ac3]; when
    [ac3] has returned [False], the result of [solve] is still the result
    of the backtracking search started from the empty assignment on the
    pruned store, and it is never a complete assignment; on a well-formed
    model [solve] does return. *)
Theorem solve_after_failed_ac3 :
  forall m d2,
    ac3 m (enforce_node_consistency (init_domains m)) None = Ok (false, d2) ->
    (forall r out,
        solve m = Ok (r, out) ->
        (exists ret a,
            backtrack m d2 (backtrack_fuel d2) [] [] = Ok (ret, a, out) /\
            r = match ret with RetNone => None | RetAssignment => Some a end) /\
        (forall a, r = Some a -> assignment_complete d2 a = false)) /\
    (wf_model m = true -> exists r out, solve m = Ok (r, out)).
Proof.
  intros m d2 Hac3. split; [| apply solve_total].
  intros r out H. unfold solve in H. rewrite Hac3 in H.
  cbn beta iota delta [bind] in H. inv_bind H.
  destruct r0 as [[ret a] out0]. inv_Ok. split.
  - exists ret, a. split; [exact E | reflexivity].
  - intros a0 Ha0. destruct ret; [discriminate |]. injection Ha0 as ->.
    destruct (assignment_complete d2 a0) eqn:Ec; [| reflexivity].
    exfalso. unfold ac3 in Hac3.
    apply ac3_loop_false_empty in Hac3 as (x & Hx).
    apply (complete_not_consistent_with_empty_domain m d2 a0 x Hx Ec).
    eapply backtrack_complete_consistent; eauto.
Qed.

Lemma solve_after_failed_ac3_witness :
  let d2 := [(slot_across, []); (slot_down, ["cat"%string; "dog"%string])] in
  ac3 puzzle_clash (enforce_node_consistency (init_domains puzzle_clash)) None
  = Ok (false, d2) /\
  assignment_complete d2 [(slot_down, "cat"%string)] = false.
Proof.
  intros d2. split; [reflexivity |].
  destruct (solve_after_failed_ac3 puzzle_clash d2) as [H _]; [reflexivity |].
  destruct (H (Some [(slot_down, "cat"%string)]) [something_is_off]) as [_ H'];
    [reflexivity |].
  apply H'. reflexivity.
Defined.

(** C3 as stated fails on [puzzle_clash]: [ac3] empties the domain of the
    across slot and returns [False], yet [solve] goes on to search, prints
    the message of [backtrack], and returns a one-entry assignment instead
    of [None]. *)
Lemma solve_after_failed_ac3_not_none :
  (exists d2,
      ac3 puzzle_clash (enforce_node_consistency (init_domains puzzle_clash)) None
      = Ok (false, d2)) /\
  solve puzzle_clash = Ok (Some [(slot_down, "cat"%string)], [something_is_off]) /\
  ~ (exists out, solve puzzle_clash = Ok (None, out)).
Proof.
  split; [eexists; reflexivity |]. split; [reflexivity |].
  intros (out & H). discriminate H.
Qed.

(** * Further properties of the solver *)

(** ** [enforce_node_consistency], [revise] and [ac3] *)

(** X1: [enforce_node_consistency] leaves the keys of the store as they
    are, and the domain of a variable becomes exactly its words of the
    slot's length, in their old order: no fitting word is lost. *)
Theorem enforce_node_consistency_keeps_fitting_words :
  forall d x s,
    dom_get d x = Ok s ->
    dom_keys (enforce_node_consistency d) = dom_keys d /\
    dom_get (enforce_node_consistency d) x
    = Ok (filter (fun w => String.length w =? var_length x) s) /\
    (forall w s', dom_get (enforce_node_consistency d) x = Ok s' ->
                  (In w s' <-> In w s /\ String.length w = var_length x)).
Proof.
  intros d x s H. split; [apply enforce_keys |].
  pose proof (enforce_get d x s H) as E. split; [exact E |].
  intros w s' E'. rewrite E in E'. inv_Ok.
  rewrite filter_In, Nat.eqb_eq. tauto.
Qed.

Lemma enforce_node_consistency_keeps_fitting_words_witness :
  dom_get (init_domains puzzle_single) slot_across
  = Ok ["cat"%string; "dog"%string; "ab"%string] /\
  dom_get (enforce_node_consistency (init_domains puzzle_single)) slot_across
  = Ok ["cat"%string; "dog"%string].
Proof.
  split; [reflexivity |].
  destruct (enforce_node_consistency_keeps_fitting_words
              (init_domains puzzle_single) slot_across
              ["cat"%string; "dog"%string; "ab"%string] eq_refl) as (_ & H & _).
  exact H.
Defined.

(** X2: a second [revise] of the same arc right after the first finds
    nothing to remove: it returns [False] and leaves the store as the
    first call left it. *)
Theorem revise_twice_changes_nothing :
  forall m d x y ix iy dx dy,
    x <> y -> In x (variables m) -> In y (variables m) ->
    overlaps m x y = Some (ix, iy) ->
    dom_get d x = Ok dx -> dom_get d y = Ok dy ->
    (forall v, In v dx -> ix < String.length v) ->
    (forall w, In w dy -> iy < String.length w) ->
    exists b d',
      revise m d x y = Ok (b, d') /\ revise m d' x y = Ok (false, d').
Proof.
  intros m d x y ix iy dx dy Hxy Hx Hy Ho Gx Gy Rx Ry.
  destruct (revise_total m d x y ix iy dx dy Hxy Hx Hy Ho Gx Gy Rx Ry) as (b & d' & H1).
  exists b, d'. split; [exact H1 |].
  pose proof (revise_arc_ok_self _ _ _ _ _ _ H1) as Hok.
  destruct (revise_sound _ _ _ _ _ _ H1) as (dx0 & dy0 & _ & _ & _ & Gx0 & Gy0 & Hd' & _).
  rewrite Gx in Gx0. rewrite Gy in Gy0. inv_Ok.
  set (dx' := filter (fun v => has_support (overlaps m x y) v dy0) dx0) in *.
  assert (Gx' : dom_get (dom_set d x dx') x = Ok dx')
    by (eapply dom_get_set_same; eauto).
  assert (Gy' : dom_get (dom_set d x dx') y = Ok dy0)
    by (rewrite dom_get_set_other; auto).
  destruct (revise_total m (dom_set d x dx') x y ix iy dx' dy0) as (b2 & d2 & H2); auto.
  { intros v Hv. apply Rx. unfold dx' in Hv. now apply filter_In in Hv. }
  destruct (revise_sound _ _ _ _ _ _ H2) as (dx1 & dy1 & _ & _ & _ & Gx1 & Gy1 & _ & Hb).
  rewrite Gx' in Gx1. rewrite Gy' in Gy1. inv_Ok.
  unfold arc_ok in Hok. rewrite Gx', Gy' in Hok. rewrite Hok in H2. simpl in H2.
  now rewrite (revise_false_same _ _ _ _ _ H2) in H2.
Qed.

Lemma revise_twice_changes_nothing_witness :
  exists b d',
    revise puzzle_cross (enforce_node_consistency (init_domains puzzle_cross))
           slot_across slot_down = Ok (b, d') /\
    revise puzzle_cross d' slot_across slot_down = Ok (false, d').
Proof.
  apply (revise_twice_changes_nothing
           puzzle_cross (enforce_node_consistency (init_domains puzzle_cross))
           slot_across slot_down 1 0
           ["cat"%string; "art"%string] ["cat"%string; "art"%string]).
  - discriminate.
  - simpl; auto.
  - simpl; auto.
  - reflexivity.
  - reflexivity.
  - reflexivity.
  - intros v [<- | [<- | []]]; simpl; lia.
  - intros v [<- | [<- | []]]; simpl; lia.
Defined.

Lemma find_support_no_constraint : forall v dy,
    find_support None v dy =
    if forallb (fun w => if string_dec v w then true else false) dy
    then Ok false else Raise TypeError.
Proof.
  intros v. induction dy as [| w dy IH]; simpl; [reflexivity |].
  unfold supports. destruct (string_dec v w); simpl; [exact IH | reflexivity].
Qed.

Lemma revise_loop_no_constraint : forall dy copy dx r v w,
    In v copy -> In w dy -> v <> w ->
    revise_loop None copy dy dx r = Raise TypeError.
Proof.
  intros dy. induction copy as [| v0 rest IH]; intros dx r v w Hv Hw Hne; simpl.
  - destruct Hv.
  - rewrite find_support_no_constraint.
    destruct (forallb (fun w0 => if string_dec v0 w0 then true else false) dy) eqn:Ef;
      [| reflexivity].
    simpl. destruct Hv as [-> | Hv]; [| eauto].
    exfalso. rewrite forallb_forall in Ef. specialize (Ef w Hw).
    destruct (string_dec v w); [contradiction | discriminate].
Qed.

(** X3: [revise] on two variables that do not cross (their overlap is
    [None]) raises [TypeError], from [constraints[0]], as soon as the two
    domains hold two different words. *)
Theorem revise_without_overlap_raises :
  forall m d x y dx dy v w,
    x <> y -> In x (variables m) -> In y (variables m) ->
    overlaps m x y = None ->
    dom_get d x = Ok dx -> dom_get d y = Ok dy ->
    In v dx -> In w dy -> v <> w ->
    revise m d x y = Raise TypeError.
Proof.
  intros m d x y dx dy v w Hxy Hx Hy Ho Gx Gy Hv Hw Hne. unfold revise.
  assert (Hg : overlaps_get m x y = Ok None).
  { apply overlaps_get_Ok. auto. }
  rewrite Hg, Gx, Gy. cbn beta iota delta [bind].
  now rewrite (revise_loop_no_constraint dy dx dx false v w Hv Hw Hne).
Qed.

Lemma revise_without_overlap_raises_witness :
  revise puzzle_uneven (init_domains puzzle_uneven) slot_across slot_long
  = Raise TypeError.
Proof.
  apply (revise_without_overlap_raises
           puzzle_uneven (init_domains puzzle_uneven) slot_across slot_long
           ["cat"%string; "door"%string; "bear"%string]
           ["cat"%string; "door"%string; "bear"%string]
           "cat"%string "door"%string).
  - discriminate.
  - simpl; auto.
  - simpl; auto.
  - reflexivity.
  - reflexivity.
  - reflexivity.
  - simpl; auto.
  - simpl; auto.
  - discriminate.
Defined.

(** X4: after [ac3] over all arcs has returned [True] on a well-formed
    model, every value of every variable has, in the domain of each of its
    neighbors, a different word with the same letter at the crossing. *)
Theorem ac3_true_every_value_supported :
  forall m d d',
    wf_model m = true -> dom_keys d = variables m ->
    ac3 m d None = Ok (true, d') ->
    forall x y ix iy dx dy v,
      In x (variables m) -> In y (variables m) -> x <> y ->
      overlaps m x y = Some (ix, iy) ->
      dom_get d' x = Ok dx -> dom_get d' y = Ok dy -> In v dx ->
      exists w ch, In w dy /\ w <> v /\
                   String.get ix v = Some ch /\ String.get iy w = Some ch.
Proof.
  intros m d d' Hwf Hk H x y ix iy dx dy v Hx Hy Hxy Ho Gx Gy Hv.
  assert (Hnb : In y (neighbors m x)).
  { apply neighbors_spec. repeat split; auto. congruence. }
  unfold ac3 in H.
  assert (Hok : arc_ok m d' x y = true).
  { apply (ac3_loop_arc_consistent m Hwf (ac3_fuel m d (all_arcs m d)) d
             (all_arcs m d) d'); auto.
    intros u w Hu Hw. left. apply all_arcs_In. split; [congruence | exact Hw]. }
  unfold arc_ok in Hok. rewrite Gx, Gy, Ho in Hok.
  rewrite forallb_forall in Hok. specialize (Hok v Hv).
  apply has_support_spec in Hok as (ix' & iy' & w & ch & E & Hw & Hn & Ea & Eb).
  injection E as <- <-. eauto 8.
Qed.

Lemma ac3_true_every_value_supported_witness :
  exists w ch,
    In w ["art"%string] /\ w <> "cat"%string /\
    String.get 1 "cat"%string = Some ch /\ String.get 0 w = Some ch.
Proof.
  apply (ac3_true_every_value_supported
           puzzle_cross (enforce_node_consistency (init_domains puzzle_cross))
           [(slot_across, ["cat"%string]); (slot_down, ["art"%string])]
           eq_refl eq_refl eq_refl
           slot_across slot_down 1 0 ["cat"%string] ["art"%string] "cat"%string).
  - simpl; auto.
  - simpl; auto.
  - discriminate.
  - reflexivity.
  - reflexivity.
  - reflexivity.
  - simpl; auto.
Defined.

Lemma has_support_incl : forall c v dy dy',
    has_support c v dy = true -> incl dy dy' -> has_support c v dy' = true.
Proof.
  intros c v dy dy' H Hincl.
  apply has_support_spec in H as (ix & iy & w & ch & E & Hw & Hn & Ea & Eb).
  apply has_support_spec. exists ix, iy, w, ch. repeat split; auto.
Qed.

(** Anything [revise] preserves on crossing pairs holds when the [ac3]
    loop returns, if the queue held crossing pairs only. *)
Lemma ac3_loop_invariant_valid : forall m (P : domains -> Prop),
    wf_model m = true ->
    (forall d x y b d',
        valid_arc m (x, y) -> P d -> revise m d x y = Ok (b, d') -> P d') ->
    forall fuel d arcs b d',
      Forall (valid_arc m) arcs -> P d ->
      ac3_loop m fuel d arcs = Ok (b, d') -> P d'.
Proof.
  intros m P Hwf Hstep.
  induction fuel as [| fuel IH]; intros d arcs b d' Hv HP H; simpl in H.
  - discriminate.
  - destruct arcs as [| [x y] rest]; [now inv_Ok |].
    inversion Hv as [| p l Hxy Hrest]; subst.
    inv_bind H. destruct r as [revised d1].
    assert (HP1 : P d1) by (eapply Hstep; eauto).
    destruct revised; [| eauto].
    inv_bind H. destruct (List.length r =? 0); [now inv_Ok |].
    eapply IH; [| exact HP1 | exact H].
    apply Forall_app. split; [exact Hrest |].
    apply requeue_valid; [exact Hwf | apply Hxy].
Qed.

Lemma revise_keeps_consistent_substore : forall m d x y b d' ds,
    valid_arc m (x, y) -> arc_consistent m ds -> shrinks d ds ->
    revise m d x y = Ok (b, d') -> shrinks d' ds.
Proof.
  intros m d x y b d' ds (Hxy & Hx & Hy & Ho) Hac [Hk Hsub] H. simpl in *.
  destruct (revise_sound _ _ _ _ _ _ H) as (dx & dy & _ & _ & _ & Gx & Gy & -> & _).
  split; [now rewrite dom_keys_set |].
  intros z sz Gz. destruct (Hsub z sz Gz) as (s & Gs & Hincl).
  destruct (Var_eq_dec z x) as [-> | Hzx].
  - rewrite Gx in Gs. inv_Ok.
    eexists. split; [eapply dom_get_set_same; eauto |].
    intros v Hv. apply filter_In. split; [now apply Hincl |].
    assert (Hky : In y (dom_keys ds)).
    { rewrite Hk. apply dom_get_in_keys. eauto. }
    apply dom_get_in_keys in Hky as (sy & Gsy).
    destruct (Hsub y sy Gsy) as (dy' & Gy' & Hiy). rewrite Gy in Gy'. inv_Ok.
    assert (Hnb : In y (neighbors m x)).
    { apply neighbors_spec. auto. }
    specialize (Hac x y Hx Hnb). unfold arc_ok in Hac. rewrite Gz, Gsy in Hac.
    rewrite forallb_forall in Hac. eapply has_support_incl; eauto.
  - exists s. split; [now rewrite dom_get_set_other | exact Hincl].
Qed.

(** X5: on a well-formed model the store that [ac3] over all arcs leaves
    contains every arc-consistent store that the store it started from
    contains; with the result [True] it is itself arc consistent, so it is
    the greatest arc-consistent store inside the initial one. *)
Theorem ac3_greatest_arc_consistent_store :
  forall m d b d',
    wf_model m = true -> dom_keys d = variables m ->
    ac3 m d None = Ok (b, d') ->
    shrinks d d' /\
    (b = true -> arc_consistent m d') /\
    (forall ds, shrinks d ds -> arc_consistent m ds -> shrinks d' ds).
Proof.
  intros m d b d' Hwf Hk H. split; [eapply ac3_shrinks; eauto |]. split.
  - intros ->. unfold ac3 in H. intros x y Hx Hy.
    apply (ac3_loop_arc_consistent m Hwf (ac3_fuel m d (all_arcs m d)) d
             (all_arcs m d) d'); auto.
    intros u w Hu Hw. left. apply all_arcs_In. split; [congruence | exact Hw].
  - intros ds Hsub Hac. unfold ac3 in H.
    apply (ac3_loop_invariant_valid m (fun d1 => shrinks d1 ds) Hwf) in H; auto.
    + intros d1 x y b1 d2 Hv Hs Hr. eapply revise_keeps_consistent_substore; eauto.
    + now apply all_arcs_valid.
Qed.

Lemma ac3_greatest_arc_consistent_store_witness :
  let d := enforce_node_consistency (init_domains puzzle_cross) in
  let d' := [(slot_across, ["cat"%string]); (slot_down, ["art"%string])] in
  ac3 puzzle_cross d None = Ok (true, d') /\ arc_consistent puzzle_cross d'.
Proof.
  intros d d'. split; [reflexivity |].
  destruct (ac3_greatest_arc_consistent_store puzzle_cross d true d')
    as (_ & H & _); try reflexivity.
  now apply H.
Defined.

Lemma ac3_loop_true_nonempty : forall m fuel d arcs d',
    ac3_loop m fuel d arcs = Ok (true, d') ->
    forall x s, dom_get d x = Ok s -> s <> [] ->
                exists s', dom_get d' x = Ok s' /\ s' <> [].
Proof.
  intros m. induction fuel as [| fuel IH]; intros d arcs d' H z s Gz Hs; simpl in H.
  - discriminate.
  - destruct arcs as [| [x y] rest]; [inv_Ok; eauto |].
    inv_bind H. destruct r as [revised d1].
    assert (H1 : exists s1, dom_get d1 z = Ok s1 /\ s1 <> []).
    { destruct revised.
      - inv_bind H. destruct (List.length r =? 0) eqn:El; [discriminate |].
        destruct (Var_eq_dec z x) as [-> | Hzx].
        + exists r. split; [exact E0 |]. intros ->. discriminate.
        + apply revise_sound in E as (dx & dy & _ & _ & _ & _ & _ & -> & _).
          exists s. split; [now rewrite dom_get_set_other | exact Hs].
      - apply revise_false_same in E. subst d1. eauto. }
    destruct H1 as (s1 & G1 & Hs1).
    destruct revised; [| eauto].
    inv_bind H. destruct (List.length r =? 0); [discriminate | eauto].
Qed.

(** X6: [ac3] returns [False] only with an empty domain in the store, and
    when it returns [True] every domain that was not empty before the call
    is not empty after it (a domain that was empty already goes
    unnoticed). *)
Theorem ac3_result_and_empty_domains :
  forall m d arcs b d',
    ac3 m d arcs = Ok (b, d') ->
    (b = false -> exists x, dom_get d' x = Ok []) /\
    (b = true ->
     forall x s, dom_get d x = Ok s -> s <> [] ->
                 exists s', dom_get d' x = Ok s' /\ s' <> []).
Proof.
  intros m d arcs b d' H. unfold ac3 in H. split; intros ->.
  - eapply ac3_loop_false_empty; eauto.
  - eapply ac3_loop_true_nonempty; eauto.
Qed.

Lemma ac3_result_and_empty_domains_witness :
  let d := enforce_node_consistency (init_domains puzzle_clash) in
  exists d', ac3 puzzle_clash d None = Ok (false, d') /\
             exists x, dom_get d' x = Ok [].
Proof.
  intros d. eexists. split; [reflexivity |].
  eapply (ac3_result_and_empty_domains puzzle_clash d None false); reflexivity.
Defined.

(** ** [consistent] *)

Lemma consistent_neighbors_complete : forall m d a var wv,
    consistent_assignment m d a ->
    In var (variables m) -> asg_get a var = Ok wv ->
    forall nbs,
      (forall n, In n nbs -> In n (neighbors m var) /\ asg_mem n a = true) ->
      consistent_neighbors m a var nbs = Ok true.
Proof.
  intros m d a var wv [_ Hov] Hv Gv.
  induction nbs as [| n rest IH]; intros Hnbs; simpl; [reflexivity |].
  destruct (Hnbs n (or_introl eq_refl)) as [Hnb Hna].
  pose proof Hnb as Hnb'. apply neighbors_spec in Hnb' as (Hnv & Hne & Ho).
  apply asg_mem_get in Hna as (wn & Gn).
  assert (Hg : overlaps_get m var n = Ok (overlaps m var n)).
  { apply overlaps_get_Ok. auto. }
  rewrite Hg. cbn beta iota delta [bind].
  destruct (overlaps m var n) as [[c0 c1] |] eqn:Eo; [| congruence].
  rewrite Gv, Gn. cbn beta iota delta [bind].
  destruct (Hov var n c0 c1 wv wn Gv Gn Hnb Eo) as (ch & El & Er).
  unfold index. rewrite El, Er. cbn beta iota delta [bind].
  destruct (ascii_dec ch ch); [| congruence].
  apply IH. intros n' Hn'. apply Hnbs. now right.
Qed.

Lemma consistent_loop_complete : forall m d a,
    dom_keys d = variables m -> consistent_assignment m d a ->
    forall keys, incl keys (asg_keys a) -> consistent_loop m d a keys = Ok true.
Proof.
  intros m d a Hk Hc. induction keys as [| var rest IH]; intros Hincl; simpl;
    [reflexivity |].
  assert (Hvar : asg_mem var a = true).
  { apply var_mem_true, Hincl. now left. }
  destruct (proj1 (asg_mem_get a var) Hvar) as (w & Gv).
  destruct (proj1 Hc var w Gv) as (dv & Gd & Hw).
  rewrite Gv, Gd. cbn beta iota delta [bind].
  apply set_mem_true in Hw. rewrite Hw.
  assert (Hv : In var (variables m)).
  { rewrite <- Hk. apply dom_get_in_keys. eauto. }
  rewrite (consistent_neighbors_complete m d a var w Hc Hv Gv).
  - cbn beta iota delta [bind]. apply IH. intros k Hk'. apply Hincl. now right.
  - intros n Hn. now apply filter_In in Hn.
Qed.

(** X7: on a store whose keys are the variables of the model,
    [consistent] returns [True] exactly when every bound word is in the
    domain of its variable and every two bound neighbors carry the same
    letter at their crossing; whether two variables hold the same word
    plays no part. *)
Theorem consistent_true_iff :
  forall m d a,
    dom_keys d = variables m ->
    (consistent m d a = Ok true <-> consistent_assignment m d a).
Proof.
  intros m d a Hk. split.
  - intros H. unfold consistent in H. split.
    + intros x w Gx.
      assert (Hx : In x (asg_keys a)).
      { apply var_mem_true. apply asg_mem_get. eauto. }
      destruct (consistent_loop_in_domain m d a _ H x Hx) as (w' & dv & Gw & Gd & Hw).
      rewrite Gx in Gw. inv_Ok. eauto.
    + intros x y ix iy wx wy Gx Gy Hnb Ho.
      assert (Hx : In x (asg_keys a)).
      { apply var_mem_true. apply asg_mem_get. eauto. }
      assert (Hy : asg_mem y a = true) by (apply asg_mem_get; eauto).
      destruct (consistent_loop_overlaps m d a _ H x y ix iy Hx Hnb Hy Ho)
        as (wx' & wy' & ch & Gx' & Gy' & Ex & Ey).
      rewrite Gx in Gx'. rewrite Gy in Gy'. inv_Ok. eauto.
  - intros Hc. unfold consistent. apply consistent_loop_complete; auto.
    apply incl_refl.
Qed.

Lemma consistent_true_iff_witness :
  let d := [(slot_across, ["cat"%string]); (slot_apart, ["cat"%string])] in
  let a := [(slot_across, "cat"%string); (slot_apart, "cat"%string)] in
  consistent puzzle_twin d a = Ok true /\ consistent_assignment puzzle_twin d a.
Proof.
  intros d a. split; [reflexivity |].
  apply (consistent_true_iff puzzle_twin d a); reflexivity.
Defined.

(** ** [select_unassigned_variable] and [order_domain_values] *)

(** X8: [select_unassigned_variable] returns the last key of the store, in
    the store's order, that the assignment does not bind, whatever the
    sizes of the domains and the numbers of neighbors; it returns [None]
    exactly when the assignment binds every key. *)
Theorem select_unassigned_variable_last_unassigned_key :
  forall m d a,
    (forall d1 x s d2,
        d = d1 ++ (x, s) :: d2 -> asg_mem x a = false ->
        (forall k, In k (dom_keys d2) -> asg_mem k a = true) ->
        select_unassigned_variable m d a = Some x) /\
    (select_unassigned_variable m d a = None <-> assignment_complete d a = true).
Proof.
  intros m d a. split.
  - intros d1 x s d2 -> Hx Hd2. now apply select_last_unassigned.
  - split; intros H.
    + destruct (assignment_complete d a) eqn:Ec; [reflexivity |].
      destruct (select_incomplete m d a Ec) as (x & Hx). congruence.
    + destruct (select_unassigned_variable m d a) as [x |] eqn:Es; [| reflexivity].
      apply select_Some in Es as [Hk Hm].
      unfold assignment_complete in H. rewrite forallb_forall in H.
      rewrite (H x Hk) in Hm. discriminate.
Qed.

Lemma select_unassigned_variable_last_unassigned_key_witness :
  let d := [(slot_across, ["cat"%string]);
            (slot_long, ["door"%string; "bear"%string]);
            (slot_apart, ["cat"%string])] in
  select_unassigned_variable puzzle_uneven d [(slot_apart, "cat"%string)]
  = Some slot_long.
Proof.
  intros d.
  destruct (select_unassigned_variable_last_unassigned_key
              puzzle_uneven d [(slot_apart, "cat"%string)]) as [H _].
  apply (H [(slot_across, ["cat"%string])] slot_long
           ["door"%string; "bear"%string] [(slot_apart, ["cat"%string])]).
  - reflexivity.
  - reflexivity.
  - intros k [<- | []]. reflexivity.
Defined.

Lemma counts_get_add : forall cd k' v k,
    counts_get (counts_add cd k' v) k =
    if k' =? k then counts_get cd k ++ [v] else counts_get cd k.
Proof.
  induction cd as [| [k0 l0] r IH]; intros k' v k; simpl.
  - destruct (k' =? k); reflexivity.
  - destruct (k0 =? k') eqn:E0; simpl.
    + apply Nat.eqb_eq in E0. subst k0. destruct (k' =? k); reflexivity.
    + rewrite IH. destruct (k0 =? k) eqn:E1; [| reflexivity].
      apply Nat.eqb_eq in E1. subst k0. now rewrite Nat.eqb_sym, E0.
Qed.

Lemma grouped_get : forall score vs cd k,
    counts_get (grouped score vs cd) k =
    counts_get cd k ++ filter (fun v => score v =? k) vs.
Proof.
  intros score. unfold grouped.
  induction vs as [| v vs IH]; intros cd k; simpl; [now rewrite app_nil_r |].
  rewrite IH, counts_get_add. destruct (score v =? k); [| reflexivity].
  now rewrite <- app_assoc.
Qed.

Lemma counts_get_missing : forall cd k,
    ~ In k (map fst cd) -> counts_get cd k = [].
Proof.
  induction cd as [| [k0 l0] r IH]; intros k H; simpl in *; [reflexivity |].
  destruct (k0 =? k) eqn:E; [apply Nat.eqb_eq in E; tauto | apply IH; tauto].
Qed.

Lemma filter_none : forall (A : Type) (f : A -> bool) (l : list A),
    (forall a, In a l -> f a = false) -> filter f l = [].
Proof.
  induction l as [| a l IH]; intros H; simpl; [reflexivity |].
  rewrite (H a (or_introl eq_refl)). apply IH. intros; apply H; now right.
Qed.

Lemma filter_score_groups : forall (score : string -> nat) vs k0 ks,
    NoDup ks ->
    filter (fun v => score v =? k0)
           (flat_map (fun k => filter (fun v => score v =? k) vs) ks) =
    if in_dec Nat.eq_dec k0 ks then filter (fun v => score v =? k0) vs else [].
Proof.
  intros score vs k0. induction ks as [| k ks IH]; intros Hnd; simpl; [reflexivity |].
  inversion Hnd as [| ? ? Hn Hr]; subst.
  rewrite filter_app, filter_filter, (IH Hr).
  destruct (Nat.eq_dec k k0) as [-> | Hne].
  - destruct (in_dec Nat.eq_dec k0 ks); [contradiction |].
    rewrite app_nil_r. apply filter_ext. intros v. apply andb_diag.
  - rewrite filter_none.
    + destruct (in_dec Nat.eq_dec k0 ks); reflexivity.
    + intros v _. destruct (score v =? k) eqn:E1; [| reflexivity].
      apply Nat.eqb_eq in E1. simpl. apply Nat.eqb_neq. congruence.
Qed.

Lemma grouped_stable : forall (score : string -> nat) vs k0,
    let cd := grouped score vs [] in
    filter (fun v => score v =? k0)
           (flat_map (counts_get cd) (NatSort.sort (map fst cd))) =
    filter (fun v => score v =? k0) vs.
Proof.
  intros score vs k0 cd.
  destruct (grouped_invariant score vs []) as (Hn & _ & _).
  { constructor. }
  { intros k l []. }
  fold cd in Hn.
  assert (Hnd : NoDup (NatSort.sort (map fst cd))).
  { eapply Permutation_NoDup; [apply NatSort.Permuted_sort | exact Hn]. }
  rewrite (flat_map_ext (counts_get cd)
                        (fun k => filter (fun v => score v =? k) vs)).
  - rewrite (filter_score_groups score vs k0 _ Hnd).
    destruct (in_dec Nat.eq_dec k0 (NatSort.sort (map fst cd))) as [Hin | Hout];
      [reflexivity |].
    assert (Hk : ~ In k0 (map fst cd)).
    { intros Hk. apply Hout. eapply Permutation_in; [apply NatSort.Permuted_sort | exact Hk]. }
    apply counts_get_missing in Hk. unfold cd in Hk.
    rewrite grouped_get in Hk. simpl in Hk. now rewrite Hk.
  - intros k. unfold cd. now rewrite grouped_get.
Qed.

(** X9: the ordering of [order_domain_values] is stable: for every score,
    the words of that score appear in the result in the order they have in
    the domain. *)
Theorem order_domain_values_stable :
  forall m d var a l,
    order_domain_values m d var a = Ok (OdvList l) ->
    exists dv,
      dom_get d var = Ok dv /\
      forall k,
        filter (fun v => conflict_score m d var v =? k) l =
        filter (fun v => conflict_score m d var v =? k) dv.
Proof.
  intros m d var a l H. unfold order_domain_values in H.
  destruct (asg_mem var a); [discriminate |].
  inv_bind H. inv_bind H. inv_Ok. exists r. split; [exact E |]. intros k.
  assert (Hs : forall v, conflict_score m d var v = conflict_count r0 v).
  { intros v. unfold conflict_score, conflict_count.
    symmetry. now apply neighboring_values_count. }
  rewrite (filter_ext _ (fun v => conflict_count r0 v =? k))
    by (intros v; now rewrite Hs).
  rewrite (filter_ext (fun v => conflict_score m d var v =? k)
                      (fun v => conflict_count r0 v =? k))
    by (intros v; now rewrite Hs).
  apply grouped_stable.
Qed.

Lemma order_domain_values_stable_witness :
  let d := [(slot_across, ["cat"%string; "art"%string; "dog"%string]);
            (slot_down, ["cat"%string; "art"%string])] in
  order_domain_values puzzle_cross d slot_across []
  = Ok (OdvList ["dog"%string; "cat"%string; "art"%string]) /\
  filter (fun v => conflict_score puzzle_cross d slot_across v =? 1)
         ["dog"%string; "cat"%string; "art"%string]
  = ["cat"%string; "art"%string].
Proof.
  intros d. split; [reflexivity |].
  destruct (order_domain_values_stable
              puzzle_cross d slot_across []
              ["dog"%string; "cat"%string; "art"%string] eq_refl) as (dv & Gd & H).
  rewrite H. injection Gd as <-. reflexivity.
Defined.

(** ** [backtrack] and [solve] *)

Lemma order_domain_values_list : forall m d var a r,
    order_domain_values m d var a = Ok r -> asg_mem var a = false ->
    exists l dv, r = OdvList l /\ dom_get d var = Ok dv /\ Permutation dv l.
Proof.
  intros m d var a r H Hm. unfold order_domain_values in H. rewrite Hm in H.
  inv_bind H. inv_bind H. inv_Ok. eexists. exists r0.
  split; [reflexivity |]. split; [exact E |]. apply grouped_sorted_permutation.
Qed.

Lemma try_values_extends : forall m d recurse pa dv,
    (forall a0 o0 a1 o1,
        recurse a0 o0 = Ok (RetAssignment, a1, o1) ->
        exists ext, a1 = a0 ++ ext /\ in_domains d ext) ->
    (forall a0 out0 a1 out1,
        recurse a0 out0 = Ok (RetNone, a1, out1) -> a1 = a0) ->
    dom_get d pa = Ok dv ->
    forall vals a out a' out',
      incl vals dv -> asg_mem pa a = false ->
      try_values m d recurse pa vals a out = Ok (RetAssignment, a', out') ->
      exists ext, a' = a ++ ext /\ in_domains d ext.
Proof.
  intros m d recurse pa dv Hrec Hrest Gd.
  induction vals as [| v rest IH]; intros a out a' out' Hincl Hpa H; simpl in H.
  - discriminate.
  - assert (Hincl' : incl rest dv) by (intros w Hw; apply Hincl; now right).
    destruct (set_mem v (asg_values a)); [eauto |].
    inv_bind H. destruct r as [[is_done a1] out1]. destruct is_done.
    + apply Hrest in E. subst a1. rewrite asg_pop_set in H by exact Hpa.
      cbn beta iota delta [bind] in H. eauto.
    + inv_bind H. inv_Ok. apply Hrec in E as (ext & -> & Hext).
      rewrite asg_set_new by exact Hpa. rewrite <- app_assoc. simpl.
      eexists. split; [reflexivity |].
      intros x w [Ex | Hx]; [| auto].
      injection Ex as <- <-. exists dv. split; [exact Gd |]. apply Hincl. now left.
Qed.

Lemma backtrack_extends : forall m d fuel a out a' out',
    backtrack m d fuel a out = Ok (RetAssignment, a', out') ->
    exists ext, a' = a ++ ext /\ in_domains d ext.
Proof.
  intros m d. induction fuel as [| fuel IH]; intros a out a' out' H; simpl in H.
  - discriminate.
  - inv_bind H. destruct r; simpl in H; [| discriminate].
    assert (Hnil : exists ext, a = a ++ ext /\ in_domains d ext).
    { exists []. split; [now rewrite app_nil_r | intros x w []]. }
    destruct (assignment_complete d a); [now inv_Ok |].
    destruct (select_unassigned_variable m d a) as [pa |] eqn:Es; [| discriminate].
    apply select_Some in Es as [_ Hm].
    inv_bind H.
    destruct (order_domain_values_list m d pa a r E0 Hm) as (l & dv & -> & Gd & Hp).
    destruct (falsy (OdvList l)); [now inv_Ok |]. simpl in H.
    eapply try_values_extends; eauto using backtrack_none_same_assignment.
    intros w Hw. eapply Permutation_in; [apply Permutation_sym; exact Hp | exact Hw].
Qed.

(** X10: an assignment returned by [backtrack] is the assignment it was
    given followed by new bindings: no binding of the caller is changed,
    moved or dropped; every new binding gives a variable a word of its
    current domain, and if the given words were pairwise distinct so are
    the returned ones. *)
Theorem backtrack_result_extends_assignment :
  forall m d fuel a out a' out',
    backtrack m d fuel a out = Ok (RetAssignment, a', out') ->
    (exists ext, a' = a ++ ext /\ in_domains d ext) /\
    (NoDup (asg_values a) -> NoDup (asg_values a')).
Proof.
  intros m d fuel a out a' out' H. split.
  - eapply backtrack_extends; eauto.
  - eapply backtrack_values_nodup; eauto.
Qed.

Lemma backtrack_result_extends_assignment_witness :
  let d := [(slot_across, ["cat"%string]); (slot_down, ["art"%string])] in
  exists ext,
    [(slot_down, "art"%string); (slot_across, "cat"%string)]
    = [(slot_down, "art"%string)] ++ ext /\ in_domains d ext.
Proof.
  intros d.
  apply (backtrack_result_extends_assignment
           puzzle_cross d 3 [(slot_down, "art"%string)] []
           [(slot_down, "art"%string); (slot_across, "cat"%string)] []).
  reflexivity.
Defined.

Lemma try_values_output : forall m d recurse pa,
    (forall a0 o0 ret a1 o1,
        recurse a0 o0 = Ok (ret, a1, o1) ->
        (ret = RetNone -> o1 = o0) /\
        (o1 = o0 \/ o1 = o0 ++ [something_is_off])) ->
    forall vals a out ret a' out',
      try_values m d recurse pa vals a out = Ok (ret, a', out') ->
      (ret = RetNone -> out' = out) /\
      (out' = out \/ out' = out ++ [something_is_off]).
Proof.
  intros m d recurse pa Hrec.
  induction vals as [| v rest IH]; intros a out ret a' out' H; simpl in H.
  - inv_Ok. auto.
  - destruct (set_mem v (asg_values a)); [eauto |].
    inv_bind H. destruct r as [[is_done a1] out1].
    destruct (Hrec _ _ _ _ _ E) as [Hnone Hout]. destruct is_done.
    + rewrite (Hnone eq_refl) in H. inv_bind H. eauto.
    + inv_bind H. inv_Ok. split; [discriminate | exact Hout].
Qed.

Lemma backtrack_output : forall m d fuel a out ret a' out',
    backtrack m d fuel a out = Ok (ret, a', out') ->
    (ret = RetNone -> out' = out) /\
    (out' = out \/ out' = out ++ [something_is_off]).
Proof.
  intros m d. induction fuel as [| fuel IH]; intros a out ret a' out' H; simpl in H.
  - discriminate.
  - inv_bind H. destruct r; simpl in H; [| inv_Ok; auto].
    destruct (assignment_complete d a); [inv_Ok; auto |].
    destruct (select_unassigned_variable m d a) as [pa |]; [| discriminate].
    inv_bind H. destruct (falsy r).
    + inv_Ok. split; [discriminate | auto].
    + eapply try_values_output; eauto.
Qed.

Lemma solve_inv : forall m r out,
    solve m = Ok (r, out) ->
    exists b d2 ret a,
      ac3 m (enforce_node_consistency (init_domains m)) None = Ok (b, d2) /\
      backtrack m d2 (backtrack_fuel d2) [] [] = Ok (ret, a, out) /\
      r = match ret with RetNone => None | RetAssignment => Some a end.
Proof.
  intros m r out H. unfold solve in H.
  inv_bind H. destruct r0 as [b d2]. cbn beta iota in H.
  inv_bind H. destruct r0 as [[ret a] out0]. inv_Ok.
  exists b, d2, ret, a. auto.
Qed.

(** X11: on a well-formed model [solve] raises no exception and returns;
    it prints nothing when it returns [None], and in any case prints the
    message of [backtrack] at most once. *)
Theorem solve_returns_on_well_formed_model :
  forall m,
    wf_model m = true ->
    exists r out,
      solve m = Ok (r, out) /\
      (r = None -> out = []) /\
      (out = [] \/ out = [something_is_off]).
Proof.
  intros m Hwf. destruct (solve_total m Hwf) as (r & out & H).
  exists r, out. split; [exact H |].
  destruct (solve_inv m r out H) as (b & d2 & ret & a & _ & Hb & ->).
  destruct (backtrack_output _ _ _ _ _ _ _ _ Hb) as [Hnone Hout].
  split; [| exact Hout].
  destruct ret; [auto | discriminate].
Qed.

Lemma solve_returns_on_well_formed_model_witness :
  exists r out,
    solve puzzle_clash = Ok (r, out) /\
    (r = None -> out = []) /\
    (out = [] \/ out = [something_is_off]).
Proof.
  apply (solve_returns_on_well_formed_model puzzle_clash). reflexivity.
Defined.

(** X12: an assignment returned by [solve] that binds every variable of
    the model is a solution: vocabulary words of the slots' lengths, the
    same letter at every crossing, no word used twice. *)
Theorem solve_complete_result_is_solution :
  forall m a out,
    solve m = Ok (Some a, out) ->
    (forall x, In x (variables m) -> asg_mem x a = true) ->
    solution m a.
Proof.
  intros m a out H Hall. apply (solve_complete_is_solution m a out H).
  unfold assignment_complete. apply forallb_forall.
  intros x Hx. apply Hall. now rewrite init_keys in Hx.
Qed.

Lemma solve_complete_result_is_solution_witness :
  solution puzzle_single [(slot_across, "cat"%string)].
Proof.
  apply (solve_complete_result_is_solution puzzle_single _ []).
  - reflexivity.
  - intros x [<- | []]. reflexivity.
Defined.

Lemma try_values_complete_when_nonempty : forall m d recurse pa,
    (forall a0 o0 a1 o1,
        recurse a0 o0 = Ok (RetAssignment, a1, o1) ->
        assignment_complete d a1 = true /\ o1 = o0) ->
    (forall a0 o0 a1 o1,
        recurse a0 o0 = Ok (RetNone, a1, o1) -> a1 = a0 /\ o1 = o0) ->
    forall vals a out a' out',
      asg_mem pa a = false ->
      try_values m d recurse pa vals a out = Ok (RetAssignment, a', out') ->
      assignment_complete d a' = true /\ out' = out.
Proof.
  intros m d recurse pa Hrec Hrest.
  induction vals as [| v rest IH]; intros a out a' out' Hpa H; simpl in H.
  - discriminate.
  - destruct (set_mem v (asg_values a)); [eauto |].
    inv_bind H. destruct r as [[is_done a1] out1]. destruct is_done.
    + apply Hrest in E as [-> ->]. rewrite asg_pop_set in H by exact Hpa.
      cbn beta iota delta [bind] in H. eauto.
    + inv_bind H. inv_Ok. eauto.
Qed.

(** With no empty domain the branch of [backtrack] that returns an
    unfinished assignment is never taken. *)
Lemma backtrack_complete_when_nonempty : forall m d,
    (forall x, In x (dom_keys d) -> dom_get d x <> Ok []) ->
    forall fuel a out a' out',
      backtrack m d fuel a out = Ok (RetAssignment, a', out') ->
      assignment_complete d a' = true /\ out' = out.
Proof.
  intros m d Hne. induction fuel as [| fuel IH]; intros a out a' out' H; simpl in H.
  - discriminate.
  - inv_bind H. destruct r; simpl in H; [| discriminate].
    destruct (assignment_complete d a) eqn:Ec; [inv_Ok; auto |].
    destruct (select_unassigned_variable m d a) as [pa |] eqn:Es; [| discriminate].
    apply select_Some in Es as [Hk Hm].
    inv_bind H.
    destruct (order_domain_values_list m d pa a r E0 Hm) as (l & dv & -> & Gd & Hp).
    destruct l as [| v l].
    + apply Permutation_sym, Permutation_nil in Hp. subst dv.
      exfalso. now apply (Hne pa Hk).
    + cbn [falsy ordered_list] in H.
      refine (try_values_complete_when_nonempty
                m d (backtrack m d fuel) pa IH _ _ a out a' out' Hm H).
      intros a0 o0 a1 o1 Hn. split.
      * eapply backtrack_none_same_assignment; eauto.
      * now apply (backtrack_output _ _ _ _ _ _ _ _ Hn).
Qed.

(** X13: on a well-formed model that has a solution, [solve] returns a
    solution and prints nothing. *)
Theorem solve_finds_a_solution_when_one_exists :
  forall m s,
    wf_model m = true -> solution m s ->
    exists a, solve m = Ok (Some a, []) /\ solution m a.
Proof.
  intros m s Hwf Hsol. destruct (solve_total m Hwf) as (r & out & H).
  destruct (solve_inv m r out H) as (b & d2 & ret & a & Hac3 & Hb & Hr).
  assert (Hin : sol_in m s d2).
  { eapply sol_in_ac3; eauto. apply sol_in_enforce; auto. now apply sol_in_init. }
  assert (Hk : dom_keys d2 = variables m).
  { destruct (ac3_shrinks _ _ _ _ _ Hac3) as [Hk _].
    now rewrite Hk, enforce_keys, init_keys. }
  destruct ret.
  - exfalso. eapply (backtrack_none_no_solution m s d2 Hsol Hin Hk); [| exact Hb].
    intros x w [].
  - subst r.
    assert (Hne : forall x, In x (dom_keys d2) -> dom_get d2 x <> Ok []).
    { intros x Hx Gx. rewrite Hk in Hx.
      destruct (Hin x Hx) as (w & dv & _ & Gd & Hw).
      rewrite Gx in Gd. inv_Ok. destruct Hw. }
    destruct (backtrack_complete_when_nonempty m d2 Hne _ _ _ _ _ Hb) as [Hc ->].
    exists a. split; [exact H |].
    apply (solve_complete_is_solution m a [] H).
    rewrite (assignment_complete_keys _ d2); [exact Hc |].
    now rewrite init_keys.
Qed.

Lemma solve_finds_a_solution_when_one_exists_witness :
  exists a, solve puzzle_cross = Ok (Some a, []) /\ solution puzzle_cross a.
Proof.
  apply (solve_finds_a_solution_when_one_exists
           puzzle_cross [(slot_down, "art"%string); (slot_across, "cat"%string)]).
  - reflexivity.
  - apply (solve_complete_is_solution
             puzzle_cross [(slot_down, "art"%string); (slot_across, "cat"%string)] []).
    + reflexivity.
    + reflexivity.
Defined.

(** X14: if every variable has at least one vocabulary word of its length
    and [ac3] returns [True], then [solve] prints nothing and returns
    either [None] or a solution: the unfinished results of [backtrack]
    need an empty domain. *)
Theorem solve_result_without_empty_domain :
  forall m d2 r out,
    (forall x, In x (variables m) ->
               exists w, In w (words m) /\ String.length w = var_length x) ->
    ac3 m (enforce_node_consistency (init_domains m)) None = Ok (true, d2) ->
    solve m = Ok (r, out) ->
    out = [] /\ forall a, r = Some a -> solution m a.
Proof.
  intros m d2 r out Hwords Hac3 H.
  destruct (solve_inv m r out H) as (b & d2' & ret & a & Hac3' & Hb & Hr).
  rewrite Hac3 in Hac3'. inv_Ok.
  assert (Hk : dom_keys d2' = variables m).
  { destruct (ac3_shrinks _ _ _ _ _ Hac3) as [Hk _].
    now rewrite Hk, enforce_keys, init_keys. }
  assert (Hne : forall x, In x (dom_keys d2') -> dom_get d2' x <> Ok []).
  { intros x Hx Gx. rewrite Hk in Hx. destruct (Hwords x Hx) as (w & Hw & Hl).
    unfold ac3 in Hac3.
    destruct (ac3_loop_true_nonempty _ _ _ _ _ Hac3 x
                (filter (fun w0 => String.length w0 =? var_length x) (words m)))
      as (s' & Gs & Hs).
    - apply enforce_get. now apply init_get.
    - intros E. assert (Hin : In w []); [| destruct Hin].
      rewrite <- E. apply filter_In. split; [exact Hw | now apply Nat.eqb_eq].
    - rewrite Gx in Gs. inv_Ok. now apply Hs. }
  destruct ret.
  - split; [| discriminate]. now apply (backtrack_output _ _ _ _ _ _ _ _ Hb).
  - destruct (backtrack_complete_when_nonempty m d2' Hne _ _ _ _ _ Hb) as [Hc ->].
    split; [reflexivity |]. intros a0 Ha0. injection Ha0 as <-.
    apply (solve_complete_is_solution m a [] H).
    rewrite (assignment_complete_keys _ d2'); [exact Hc |].
    now rewrite init_keys.
Qed.

Lemma solve_result_without_empty_domain_witness :
  solve puzzle_cross
  = Ok (Some [(slot_down, "art"%string); (slot_across, "cat"%string)], []) /\
  solution puzzle_cross [(slot_down, "art"%string); (slot_across, "cat"%string)].
Proof.
  split; [reflexivity |].
  destruct (solve_result_without_empty_domain
              puzzle_cross
              [(slot_across, ["cat"%string]); (slot_down, ["art"%string])]
              (Some [(slot_down, "art"%string); (slot_across, "cat"%string)]) [])
    as [_ H].
  - intros x [<- | [<- | []]]; exists "cat"%string; simpl; auto.
  - reflexivity.
  - reflexivity.
  - apply H. reflexivity.
Defined.

(** ** [letter_grid] *)

Lemma get_Some_lt : forall s i c, String.get i s = Some c -> i < String.length s.
Proof.
  induction s as [| a s IH]; intros i c H; simpl in *; [discriminate |].
  destruct i as [| i]; [lia |]. apply IH in H. lia.
Qed.

Lemma list_get_Ok : forall (A : Type) (l : list A) n x,
    list_get l n = Ok x <-> nth_error l n = Some x.
Proof.
  intros A l n x. unfold list_get. destruct (nth_error l n);
    split; intros H; inv_Ok; congruence.
Qed.

Lemma list_get_Raise : forall (A : Type) (l : list A) n e,
    list_get l n = Raise e -> e = IndexError.
Proof.
  intros A l n e. unfold list_get. destruct (nth_error l n); congruence.
Qed.

Lemma list_set_Ok : forall (A : Type) (l : list A) n x l',
    list_set l n x = Ok l' ->
    n < List.length l /\ List.length l' = List.length l /\
    nth_error l' n = Some x /\
    forall n', n' <> n -> nth_error l' n' = nth_error l n'.
Proof.
  intros A. induction l as [| y r IH]; intros n x l' H; simpl in H; [discriminate |].
  destruct n as [| n].
  - inv_Ok. simpl. repeat split; [lia |]. intros [| n'] Hn; [congruence | reflexivity].
  - inv_bind H. inv_Ok. destruct (IH _ _ _ E) as (H1 & H2 & H3 & H4).
    simpl. repeat split; [lia | lia | exact H3 |].
    intros [| n'] Hn; [reflexivity |]. simpl. apply H4. congruence.
Qed.

Lemma list_set_total : forall (A : Type) (l : list A) n x,
    n < List.length l -> exists l', list_set l n x = Ok l'.
Proof.
  intros A. induction l as [| y r IH]; intros n x H; simpl in *; [lia |].
  destruct n as [| n]; [eauto |].
  destruct (IH n x) as (r' & ->); [lia |]. simpl. eauto.
Qed.

Lemma list_set_Raise : forall (A : Type) (l : list A) n x e,
    list_set l n x = Raise e -> e = IndexError /\ List.length l <= n.
Proof.
  intros A. induction l as [| y r IH]; intros n x e H; simpl in *.
  - split; [congruence | lia].
  - destruct n as [| n]; [discriminate |].
    destruct (list_set r n x) eqn:E; simpl in H; [discriminate |].
    inv_Ok. injection H as <-. destruct (IH _ _ _ E). split; [assumption | lia].
Qed.

Lemma shaped_row : forall h w g i row,
    shaped h w g -> nth_error g i = Some row -> List.length row = w.
Proof.
  intros h w g i row [_ Hf] H. rewrite Forall_forall in Hf.
  apply Hf. eapply nth_error_In; eauto.
Qed.

Lemma shaped_blank : forall h w, shaped h w (repeat (repeat None w) h).
Proof.
  intros h w. split; [apply repeat_length |].
  apply Forall_forall. intros row Hr. apply repeat_spec in Hr. subst.
  apply repeat_length.
Qed.

Lemma cell_blank : forall h w i j, cell (repeat (repeat None w) h) i j = None.
Proof.
  intros h w i j. unfold cell.
  destruct (nth_error (repeat (repeat None w) h) i) as [row |] eqn:E; [| reflexivity].
  apply nth_error_In, repeat_spec in E. subst.
  destruct (nth_error (repeat None w) j) as [c |] eqn:E; [| reflexivity].
  apply nth_error_In, repeat_spec in E. now subst.
Qed.

Lemma grid_set_Ok : forall h w g i j c g',
    shaped h w g -> grid_set g i j c = Ok g' ->
    shaped h w g' /\ i < h /\ j < w /\ cell g' i j = Some c /\
    forall i' j', ~ (i' = i /\ j' = j) -> cell g' i' j' = cell g i' j'.
Proof.
  intros h w g i j c g' Hs H. unfold grid_set in H.
  inv_bind H. inv_bind H. apply list_get_Ok in E.
  destruct (list_set_Ok _ _ _ _ _ E0) as (Hj & Hl & Hn & Ho).
  destruct (list_set_Ok _ _ _ _ _ H) as (Hi & Hl' & Hn' & Ho').
  pose proof (shaped_row h w g i r Hs E) as Hr.
  destruct Hs as [Hh Hf].
  split; [| split; [lia | split; [lia | split]]].
  - split; [lia |]. apply Forall_forall. intros row Hin.
    apply In_nth_error in Hin as (n & Hin).
    destruct (Nat.eq_dec n i) as [-> | Hne].
    + rewrite Hn' in Hin. inv_Ok. injection Hin as <-. lia.
    + rewrite (Ho' n Hne) in Hin. rewrite Forall_forall in Hf.
      apply Hf. eapply nth_error_In; eauto.
  - unfold cell. now rewrite Hn', Hn.
  - intros i' j' Hne. unfold cell.
    destruct (Nat.eq_dec i' i) as [-> | Hi'].
    + rewrite Hn', E. rewrite Ho; [reflexivity |]. intros ->. now apply Hne.
    + now rewrite (Ho' i' Hi').
Qed.

Lemma grid_set_total : forall h w g i j c,
    shaped h w g -> i < h -> j < w -> exists g', grid_set g i j c = Ok g'.
Proof.
  intros h w g i j c Hs Hi Hj. unfold grid_set.
  destruct (nth_error g i) as [row |] eqn:E.
  - rewrite (proj2 (list_get_Ok _ g i row) E). cbn beta iota delta [bind].
    pose proof (shaped_row h w g i row Hs E) as Hr.
    destruct (list_set_total _ row j (Some c)) as (row' & ->); [lia |].
    cbn beta iota delta [bind]. apply list_set_total. destruct Hs. lia.
  - apply nth_error_None in E. destruct Hs. lia.
Qed.

Lemma grid_set_Raise : forall g i j c e,
    grid_set g i j c = Raise e -> e = IndexError.
Proof.
  intros g i j c e H. unfold grid_set in H.
  destruct (list_get g i) as [row | e1] eqn:E1; simpl in H.
  - destruct (list_set row j (Some c)) as [row' | e2] eqn:E2; simpl in H.
    + now apply list_set_Raise in H.
    + injection H as <-. now apply list_set_Raise in E2.
  - injection H as <-. now apply list_get_Raise in E1.
Qed.

Lemma cell_injective : forall v k k',
    cell_row v k = cell_row v k' -> cell_col v k = cell_col v k' -> k = k'.
Proof.
  intros v k k'. unfold cell_row, cell_col. destruct (var_direction v); lia.
Qed.

Lemma write_letters_Ok : forall h w v word ks g g',
    shaped h w g -> write_letters g v word ks = Ok g' ->
    shaped h w g' /\
    (forall k, In k ks ->
               k < String.length word /\ cell_row v k < h /\ cell_col v k < w) /\
    (forall i j,
        (forall k, In k ks -> ~ (cell_row v k = i /\ cell_col v k = j)) ->
        cell g' i j = cell g i j) /\
    (forall i j c,
        cell g' i j = Some c ->
        cell g i j = Some c \/
        exists k, In k ks /\ String.get k word = Some c /\
                  cell_row v k = i /\ cell_col v k = j).
Proof.
  intros h w v word. induction ks as [| k rest IH]; intros g g' Hs H; simpl in H.
  - inv_Ok. split; [exact Hs |]. split; [intros k [] |].
    split; [reflexivity | intros i j c Hc; now left].
  - inv_bind H. inv_bind H. apply index_Ok in E.
    destruct (grid_set_Ok h w g _ _ r r0 Hs E0) as (Hs1 & Hi & Hj & Hc & Ho).
    destruct (IH _ _ Hs1 H) as (Hs' & Hb & Hsame & Horig).
    split; [exact Hs' |]. split; [| split].
    + intros k' [<- | Hk']; [| auto]. split; [eapply get_Some_lt; eauto | auto].
    + intros i j Hno. rewrite Hsame.
      * apply Ho. intros [-> ->]. apply (Hno k); [now left | auto].
      * intros k' Hk'. apply Hno. now right.
    + intros i j c Hcell. destruct (Horig i j c Hcell) as [Hold | (k' & Hk' & Hg & Hr & Hcl)].
      * destruct (Nat.eq_dec i (cell_row v k)) as [-> | Hni].
        -- destruct (Nat.eq_dec j (cell_col v k)) as [-> | Hnj].
           ++ right. exists k. rewrite Hc in Hold. injection Hold as <-.
              repeat split; auto. now left.
           ++ left. rewrite <- Hold. symmetry. apply Ho. tauto.
        -- left. rewrite <- Hold. symmetry. apply Ho. tauto.
      * right. exists k'. repeat split; auto. now right.
Qed.

Lemma write_letters_written : forall h w v word ks g g',
    shaped h w g -> NoDup ks -> write_letters g v word ks = Ok g' ->
    forall k, In k ks ->
              cell g' (cell_row v k) (cell_col v k) = String.get k word.
Proof.
  intros h w v word. induction ks as [| k0 rest IH]; intros g g' Hs Hnd H k Hk;
    simpl in H.
  - destruct Hk.
  - inversion Hnd as [| ? ? Hn Hr]; subst.
    inv_bind H. inv_bind H. apply index_Ok in E.
    destruct (grid_set_Ok h w g _ _ r r0 Hs E0) as (Hs1 & _ & _ & Hc & _).
    destruct Hk as [<- | Hk]; [| eauto].
    destruct (write_letters_Ok h w v word rest _ _ Hs1 H) as (_ & _ & Hsame & _).
    rewrite Hsame; [congruence |].
    intros k' Hk' [Hr' Hc']. apply Hn.
    rewrite (cell_injective v k0 k'); auto.
Qed.

Lemma write_letters_total : forall h w v word ks g,
    shaped h w g ->
    (forall k, In k ks ->
               k < String.length word /\ cell_row v k < h /\ cell_col v k < w) ->
    exists g', write_letters g v word ks = Ok g'.
Proof.
  intros h w v word. induction ks as [| k rest IH]; intros g Hs Hb; simpl; [eauto |].
  destruct (Hb k (or_introl eq_refl)) as (Hk & Hi & Hj).
  destruct (get_Some _ _ Hk) as (c & Ec). unfold index. rewrite Ec.
  cbn beta iota delta [bind].
  destruct (grid_set_total h w g _ _ c Hs Hi Hj) as (g1 & E1). rewrite E1.
  cbn beta iota delta [bind]. apply IH.
  - now apply (grid_set_Ok h w g _ _ c g1 Hs E1).
  - intros k' Hk'. apply Hb. now right.
Qed.

Lemma write_letters_Raise : forall v word ks g e,
    write_letters g v word ks = Raise e -> e = IndexError.
Proof.
  intros v word. induction ks as [| k rest IH]; intros g e H; simpl in H.
  - discriminate.
  - unfold index in H. destruct (String.get k word); simpl in H; [| congruence].
    destruct (grid_set g (cell_row v k) (cell_col v k) a) eqn:E; simpl in H.
    + eauto.
    + injection H as <-. eapply grid_set_Raise; eauto.
Qed.

Lemma grid_set_keeps_letters : forall h w g i j c g' i' j' c',
    shaped h w g -> grid_set g i j c = Ok g' ->
    cell g i' j' = Some c' -> exists c'', cell g' i' j' = Some c''.
Proof.
  intros h w g i j c g' i' j' c' Hs H Hc.
  destruct (grid_set_Ok h w g i j c g' Hs H) as (_ & _ & _ & Hnew & Ho).
  destruct (Nat.eq_dec i' i) as [-> | Hi]; [destruct (Nat.eq_dec j' j) as [-> | Hj] |].
  - eauto.
  - rewrite Ho; [eauto | tauto].
  - rewrite Ho; [eauto | tauto].
Qed.

Lemma write_letters_keeps_letters : forall h w v word ks g g' i j c,
    shaped h w g -> write_letters g v word ks = Ok g' ->
    cell g i j = Some c -> exists c', cell g' i j = Some c'.
Proof.
  intros h w v word. induction ks as [| k rest IH]; intros g g' i j c Hs H Hc;
    simpl in H.
  - inv_Ok. eauto.
  - inv_bind H. inv_bind H.
    destruct (grid_set_keeps_letters h w g _ _ r r0 i j c Hs E0 Hc) as (c1 & Hc1).
    eapply IH; [| exact H | exact Hc1].
    now apply (grid_set_Ok h w g _ _ r r0 Hs E0).
Qed.

Lemma write_words_Ok : forall h w a g g',
    shaped h w g -> write_words g a = Ok g' ->
    shaped h w g' /\
    (forall v word, In (v, word) a -> in_grid h w v word) /\
    (forall i j, uncovered a i j -> cell g' i j = cell g i j) /\
    (forall i j c,
        cell g' i j = Some c ->
        cell g i j = Some c \/
        exists v word k, In (v, word) a /\ String.get k word = Some c /\
                         cell_row v k = i /\ cell_col v k = j) /\
    (forall i j c, cell g i j = Some c -> exists c', cell g' i j = Some c').
Proof.
  intros h w. induction a as [| [v word] rest IH]; intros g g' Hs H; simpl in H.
  - inv_Ok. split; [exact Hs |]. split; [intros v word [] |].
    split; [reflexivity |]. split; [intros i j c Hc; now left | eauto].
  - inv_bind H.
    destruct (write_letters_Ok h w v word _ _ _ Hs E) as (Hs1 & Hb & Hsame & Horig).
    destruct (IH _ _ Hs1 H) as (Hs' & Hfit & Hsame' & Horig' & Hkeep').
    split; [exact Hs' |]. split; [| split; [| split]].
    + intros v' word' [Ex | Hin]; [| auto].
      injection Ex as <- <-. intros k Hk. apply Hb. apply in_seq. lia.
    + intros i j Hun. rewrite Hsame'.
      * apply Hsame. intros k Hk. apply in_seq in Hk.
        apply (Hun v word k); [now left | lia].
      * intros v' word' k Hin Hk. apply (Hun v' word' k); [now right | exact Hk].
    + intros i j c Hc. destruct (Horig' i j c Hc) as [Hold | (v' & w' & k & Hin & Hx)].
      * destruct (Horig i j c Hold) as [Hold' | (k & Hk & Hx)]; [now left |].
        right. exists v, word, k. split; [now left | exact Hx].
      * right. exists v', w', k. split; [now right | exact Hx].
    + intros i j c Hc.
      destruct (write_letters_keeps_letters h w v word _ _ _ i j c Hs E Hc) as (c1 & Hc1).
      eauto.
Qed.

Lemma write_words_total : forall h w a g,
    shaped h w g -> (forall v word, In (v, word) a -> in_grid h w v word) ->
    exists g', write_words g a = Ok g'.
Proof.
  intros h w. induction a as [| [v word] rest IH]; intros g Hs Hfit; simpl; [eauto |].
  destruct (write_letters_total h w v word (seq 0 (String.length word)) g Hs)
    as (g1 & E1).
  { intros k Hk. apply in_seq in Hk. split; [lia |].
    apply (Hfit v word); [now left | lia]. }
  rewrite E1. cbn beta iota delta [bind]. apply IH.
  - now apply (write_letters_Ok h w v word _ _ _ Hs E1).
  - intros v' w' Hin. apply Hfit. now right.
Qed.

Lemma write_words_Raise : forall a g e, write_words g a = Raise e -> e = IndexError.
Proof.
  induction a as [| [v word] rest IH]; intros g e H; simpl in H; [discriminate |].
  destruct (write_letters g v word (seq 0 (String.length word))) eqn:E; simpl in H.
  - eauto.
  - injection H as <-. eapply write_letters_Raise; eauto.
Qed.

Lemma write_words_shows : forall h w a g g',
    shaped h w g -> write_words g a = Ok g' -> agree_on_cells a ->
    forall v word k,
      In (v, word) a -> k < String.length word ->
      cell g' (cell_row v k) (cell_col v k) = String.get k word.
Proof.
  intros h w. induction a as [| [v0 w0] rest IH]; intros g g' Hs H Hag v word k Hin Hk;
    simpl in H.
  - destruct Hin.
  - inv_bind H.
    destruct (write_letters_Ok h w v0 w0 _ _ _ Hs E) as (Hs1 & _).
    assert (Hag' : agree_on_cells rest).
    { intros v1 w1 k1 v2 w2 k2 H1 H2. apply Hag; now right. }
    destruct Hin as [Ex | Hin]; [| eapply IH; eauto].
    injection Ex as <- <-.
    assert (Hw : cell r (cell_row v0 k) (cell_col v0 k) = String.get k w0).
    { apply (write_letters_written h w v0 w0 _ _ _ Hs (seq_NoDup _ _) E).
      apply in_seq. lia. }
    destruct (get_Some _ _ Hk) as (c0 & Ec0). rewrite Ec0 in *.
    destruct (write_words_Ok h w rest _ _ Hs1 H) as (_ & _ & _ & Horig & Hkeep).
    destruct (Hkeep _ _ _ Hw) as (c & Hc). rewrite Hc.
    destruct (Horig _ _ _ Hc) as [Hold | (v2 & w2 & k2 & Hin2 & Hg2 & Hr2 & Hc2)].
    + congruence.
    + rewrite <- Hg2, <- Ec0. symmetry.
      apply (Hag v0 w0 k v2 w2 k2); auto; [now left | now right |].
      eapply get_Some_lt; eauto.
Qed.

Lemma write_words_last : forall h w a1 v word a2 g g' k,
    shaped h w g -> write_words g (a1 ++ (v, word) :: a2) = Ok g' ->
    k < String.length word ->
    uncovered a2 (cell_row v k) (cell_col v k) ->
    cell g' (cell_row v k) (cell_col v k) = String.get k word.
Proof.
  intros h w. induction a1 as [| [v0 w0] a1 IH]; intros v word a2 g g' k Hs H Hk Hun;
    simpl in H.
  - inv_bind H.
    destruct (write_letters_Ok h w v word _ _ _ Hs E) as (Hs1 & _).
    destruct (write_words_Ok h w a2 _ _ Hs1 H) as (_ & _ & Hsame & _).
    rewrite (Hsame _ _ Hun).
    apply (write_letters_written h w v word _ _ _ Hs (seq_NoDup _ _) E).
    apply in_seq. lia.
  - inv_bind H. apply (IH v word a2 r g' k); auto.
    now apply (write_letters_Ok h w v0 w0 _ _ _ Hs E).
Qed.

Lemma letter_grid_shaped : forall h w a g,
    letter_grid h w a = Ok g -> shaped h w g.
Proof.
  intros h w a g H. unfold letter_grid in H.
  now apply (write_words_Ok h w a _ g (shaped_blank h w) H).
Qed.

(** X15: [letter_grid] returns exactly when every letter of every
    assigned word, laid out from the start of its slot in the slot's
    direction, falls inside the array; the array it returns has [height]
    rows of [width] cells; the only exception it raises is [IndexError]. *)
Theorem letter_grid_returns_iff_words_fit :
  forall height width a,
    ((exists g, letter_grid height width a = Ok g) <->
     (forall v word, In (v, word) a -> in_grid height width v word)) /\
    (forall g, letter_grid height width a = Ok g -> shaped height width g) /\
    (forall e, letter_grid height width a = Raise e -> e = IndexError).
Proof.
  intros h w a. unfold letter_grid.
  pose proof (shaped_blank h w) as Hs. split; [split |]; [| | split].
  - intros (g & H). now apply (write_words_Ok h w a _ g Hs H).
  - intros Hfit. now apply (write_words_total h w a _ Hs).
  - intros g H. now apply (write_words_Ok h w a _ g Hs H).
  - intros e H. eapply write_words_Raise; eauto.
Qed.

Lemma letter_grid_returns_iff_words_fit_witness :
  letter_grid 2 3 [(slot_down, "art"%string)] = Raise IndexError.
Proof.
  destruct (letter_grid_returns_iff_words_fit 2 3 [(slot_down, "art"%string)])
    as (_ & _ & H).
  destruct (letter_grid 2 3 [(slot_down, "art"%string)]) as [g | e] eqn:E.
  - discriminate E.
  - f_equal. now apply H.
Defined.

(** X16: every letter in the array returned by [letter_grid] is a letter
    of an assigned word at the cell where the loop puts it, and a cell on
    which no assigned word puts a letter is [None]. *)
Theorem letter_grid_letters_come_from_words :
  forall height width a g,
    letter_grid height width a = Ok g ->
    (forall i j c,
        cell g i j = Some c ->
        exists v word k, In (v, word) a /\ String.get k word = Some c /\
                         cell_row v k = i /\ cell_col v k = j) /\
    (forall i j, uncovered a i j -> cell g i j = None).
Proof.
  intros h w a g H. unfold letter_grid in H.
  destruct (write_words_Ok h w a _ g (shaped_blank h w) H) as (_ & _ & Hsame & Horig & _).
  split.
  - intros i j c Hc. destruct (Horig i j c Hc) as [Hold | Hnew]; [| exact Hnew].
    rewrite cell_blank in Hold. discriminate.
  - intros i j Hun. rewrite (Hsame i j Hun). apply cell_blank.
Qed.

Lemma letter_grid_letters_come_from_words_witness :
  exists v word k,
    In (v, word) [(slot_across, "cat"%string)] /\
    String.get k word = Some "a"%char /\ cell_row v k = 0 /\ cell_col v k = 1.
Proof.
  destruct (letter_grid_letters_come_from_words
              3 3 [(slot_across, "cat"%string)]
              [[Some "c"%char; Some "a"%char; Some "t"%char];
               [None; None; None]; [None; None; None]] eq_refl) as [H _].
  apply H. reflexivity.
Defined.

(** X17: in the array returned by [letter_grid], a cell of a word shows
    that word's letter unless a word bound later in the dict also puts a
    letter on the cell: the last write wins. *)
Theorem letter_grid_last_word_wins :
  forall height width a1 v word a2 g k,
    letter_grid height width (a1 ++ (v, word) :: a2) = Ok g ->
    k < String.length word ->
    uncovered a2 (cell_row v k) (cell_col v k) ->
    cell g (cell_row v k) (cell_col v k) = String.get k word.
Proof.
  intros h w a1 v word a2 g k H Hk Hun. unfold letter_grid in H.
  eapply write_words_last; eauto using shaped_blank.
Qed.

Lemma letter_grid_last_word_wins_witness :
  cell [[Some "c"%char; Some "a"%char; Some "t"%char];
        [None; Some "r"%char; None]; [None; Some "t"%char; None]]
       (cell_row slot_across 1) (cell_col slot_across 1)
  = String.get 1 "cat"%string.
Proof.
  apply (letter_grid_last_word_wins
           3 3 [(slot_down, "art"%string)] slot_across "cat"%string [] _ 1).
  - reflexivity.
  - simpl. lia.
  - intros v word k [].
Defined.

(** X18: when the assigned words agree on every cell they share,
    [letter_grid] shows every assigned word in full: each cell of its slot
    holds the word's letter. *)
Theorem letter_grid_shows_agreeing_words :
  forall height width a g,
    letter_grid height width a = Ok g -> agree_on_cells a ->
    forall v word k,
      In (v, word) a -> k < String.length word ->
      cell g (cell_row v k) (cell_col v k) = String.get k word.
Proof.
  intros h w a g H Hag. unfold letter_grid in H.
  eapply write_words_shows; eauto using shaped_blank.
Qed.

Lemma letter_grid_shows_agreeing_words_witness :
  cell [[Some "c"%char; Some "a"%char; Some "t"%char];
        [None; Some "r"%char; None]; [None; Some "t"%char; None]]
       (cell_row slot_down 2) (cell_col slot_down 2)
  = String.get 2 "art"%string.
Proof.
  apply (letter_grid_shows_agreeing_words
           3 3 [(slot_down, "art"%string); (slot_across, "cat"%string)] _ eq_refl).
  - intros v1 w1 k1 v2 w2 k2 [E1 | [E1 | []]] [E2 | [E2 | []]] H1 H2 Hr Hc;
      injection E1 as <- <-; injection E2 as <- <-;
      unfold cell_row, cell_col in Hr, Hc; simpl in *;
      destruct k1 as [| [| [| k1]]]; destruct k2 as [| [| [| k2]]];
      try reflexivity; try lia.
  - simpl; auto.
  - simpl; lia.
Defined.

(** ** [solve] followed by [letter_grid] *)

Lemma try_values_keys_nodup : forall m d recurse pa,
    (forall a0 o0 a1 o1,
        recurse a0 o0 = Ok (RetAssignment, a1, o1) ->
        NoDup (asg_keys a0) -> NoDup (asg_keys a1)) ->
    (forall a0 out0 a1 out1,
        recurse a0 out0 = Ok (RetNone, a1, out1) -> a1 = a0) ->
    forall vals a out a' out',
      asg_mem pa a = false -> NoDup (asg_keys a) ->
      try_values m d recurse pa vals a out = Ok (RetAssignment, a', out') ->
      NoDup (asg_keys a').
Proof.
  intros m d recurse pa Hrec Hrest.
  induction vals as [| v rest IH]; intros a out a' out' Hpa Hnd H; simpl in H.
  - discriminate.
  - destruct (set_mem v (asg_values a)); [eauto |].
    inv_bind H. destruct r as [[is_done a1] out1]. destruct is_done.
    + apply Hrest in E. subst a1. rewrite asg_pop_set in H by exact Hpa.
      cbn beta iota delta [bind] in H. eauto.
    + inv_bind H. inv_Ok. apply (Hrec _ _ _ _ E).
      rewrite asg_set_new by exact Hpa. unfold asg_keys. rewrite map_app. simpl.
      apply Permutation_NoDup with (l := pa :: map fst a).
      * apply Permutation_cons_append.
      * constructor; [| exact Hnd]. unfold asg_mem in Hpa.
        now apply var_mem_false in Hpa.
Qed.

Lemma backtrack_keys_nodup : forall m d fuel a out a' out',
    backtrack m d fuel a out = Ok (RetAssignment, a', out') ->
    NoDup (asg_keys a) -> NoDup (asg_keys a').
Proof.
  intros m d. induction fuel as [| fuel IH]; intros a out a' out' H Hnd; simpl in H.
  - discriminate.
  - inv_bind H. destruct r; simpl in H; [| discriminate].
    destruct (assignment_complete d a); [now inv_Ok |].
    destruct (select_unassigned_variable m d a) as [pa |] eqn:Es; [| discriminate].
    apply select_Some in Es as [_ Hm].
    inv_bind H. destruct (falsy r); [now inv_Ok |].
    eapply try_values_keys_nodup; eauto using backtrack_none_same_assignment.
Qed.

Lemma asg_get_of_In : forall (a : assignment) x w,
    NoDup (asg_keys a) -> In (x, w) a -> asg_get a x = Ok w.
Proof.
  induction a as [| [k v] r IH]; intros x w Hnd Hin; simpl in *; [destruct Hin |].
  inversion Hnd as [| ? ? Hn Hr]; subst.
  destruct Hin as [E | Hin].
  - injection E as <- <-. destruct (Var_eq_dec k k); [reflexivity | congruence].
  - destruct (Var_eq_dec x k) as [-> | Hne]; [| auto].
    exfalso. apply Hn. apply in_map_iff. exists (k, w). auto.
Qed.

Lemma solution_agrees_on_cells : forall m a,
    solution m a -> NoDup (asg_keys a) -> incl (asg_keys a) (variables m) ->
    overlaps_cover_shared_cells m -> agree_on_cells a.
Proof.
  intros m a (Hlen & Hov & _) Hnd Hincl Hgeo v1 w1 k1 v2 w2 k2 H1 H2 Hk1 Hk2 Hr Hc.
  pose proof (asg_get_of_In a v1 w1 Hnd H1) as G1.
  pose proof (asg_get_of_In a v2 w2 Hnd H2) as G2.
  destruct (Var_eq_dec v1 v2) as [-> | Hne].
  - rewrite G1 in G2. inv_Ok. now rewrite (cell_injective v2 k1 k2 Hr Hc).
  - assert (Hv1 : In v1 (variables m)).
    { apply Hincl. apply in_map_iff. exists (v1, w1). auto. }
    assert (Hv2 : In v2 (variables m)).
    { apply Hincl. apply in_map_iff. exists (v2, w2). auto. }
    destruct (Hlen v1 Hv1) as (w1' & G1' & _ & L1). rewrite G1 in G1'. inv_Ok.
    destruct (Hlen v2 Hv2) as (w2' & G2' & _ & L2). rewrite G2 in G2'. inv_Ok.
    rewrite L1 in Hk1. rewrite L2 in Hk2.
    pose proof (Hgeo v1 v2 k1 k2 Hv1 Hv2 Hne Hk1 Hk2 Hr Hc) as Ho.
    destruct (Hov v1 v2 k1 k2 w1' w2' Hv1 Hv2 Hne Ho G1 G2) as (ch & -> & ->).
    reflexivity.
Qed.

(** X19: if the overlap table records every cell that two slots share,
    then [letter_grid] applied to a complete assignment returned by
    [solve] shows every word in full, each letter on its cell of the
    slot. *)
Theorem letter_grid_of_solve_shows_every_word :
  forall m a out height width g,
    overlaps_cover_shared_cells m ->
    solve m = Ok (Some a, out) ->
    (forall x, In x (variables m) -> asg_mem x a = true) ->
    letter_grid height width a = Ok g ->
    forall v word k,
      In (v, word) a -> k < String.length word ->
      cell g (cell_row v k) (cell_col v k) = String.get k word.
Proof.
  intros m a out h w g Hgeo H Hall Hg.
  assert (Hsol : solution m a).
  { apply (solve_complete_is_solution m a out H).
    unfold assignment_complete. apply forallb_forall.
    intros x Hx. apply Hall. now rewrite init_keys in Hx. }
  destruct (solve_inv m _ out H) as (b & d2 & ret & a0 & Hac3 & Hb & Hr).
  destruct ret; [discriminate |]. injection Hr as <-.
  assert (Hk : dom_keys d2 = variables m).
  { destruct (ac3_shrinks _ _ _ _ _ Hac3) as [Hk _].
    now rewrite Hk, enforce_keys, init_keys. }
  assert (Hnd : NoDup (asg_keys a)).
  { eapply backtrack_keys_nodup; [exact Hb | constructor]. }
  assert (Hincl : incl (asg_keys a) (variables m)).
  { destruct (backtrack_extends _ _ _ _ _ _ _ Hb) as (ext & -> & Hext).
    intros x Hx. simpl in Hx. apply in_map_iff in Hx as ([x' w'] & <- & Hin).
    rewrite <- Hk. simpl. eapply in_domains_key; eauto. }
  unfold letter_grid in Hg.
  eapply write_words_shows; eauto using shaped_blank.
  eapply solution_agrees_on_cells; eauto.
Qed.

Lemma crossing_overlaps_cover_shared_cells :
  overlaps_cover_shared_cells puzzle_cross.
Proof.
  intros x y k1 k2 [<- | [<- | []]] [<- | [<- | []]] Hxy H1 H2 Hr Hc;
    try congruence; unfold cell_row, cell_col in Hr, Hc; simpl in *;
    destruct k1 as [| [| [| k1]]]; destruct k2 as [| [| [| k2]]];
    try reflexivity; try lia.
Qed.

Lemma letter_grid_of_solve_shows_every_word_witness :
  cell [[Some "c"%char; Some "a"%char; Some "t"%char];
        [None; Some "r"%char; None]; [None; Some "t"%char; None]]
       (cell_row slot_down 1) (cell_col slot_down 1)
  = String.get 1 "art"%string.
Proof.
  apply (letter_grid_of_solve_shows_every_word
           puzzle_cross
           [(slot_down, "art"%string); (slot_across, "cat"%string)] [] 3 3).
  - exact crossing_overlaps_cover_shared_cells.
  - reflexivity.
  - intros x [<- | [<- | []]]; reflexivity.
  - reflexivity.
  - simpl; auto.
  - simpl; lia.
Defined.

(** ** [print] *)

Lemma print_cells_Ok : forall structure letters i js line,
    print_cells structure letters i js = Ok line ->
    line = map (printed_piece structure letters i) js /\
    forall j, In j js -> is_open structure i j <> None.
Proof.
  intros structure letters i. induction js as [| j rest IH]; intros line H; simpl in H.
  - inv_Ok. split; [reflexivity | intros j []].
  - inv_bind H. inv_bind H. inv_bind H. inv_bind H. inv_Ok.
    apply list_get_Ok in E, E0.
    destruct (IH _ E2) as [-> Hopen].
    assert (Ho : is_open structure i j = Some r0).
    { unfold is_open. now rewrite E. }
    split.
    + simpl. f_equal. unfold printed_piece. rewrite Ho. destruct r0.
      * inv_bind E1. inv_bind E1. inv_Ok. apply list_get_Ok in E3, E4.
        unfold cell. now rewrite E3, E4.
      * now inv_Ok.
    + intros j' [<- | Hj']; [congruence | auto].
Qed.

Lemma print_cells_total : forall h w structure letters i js,
    shaped h w letters -> i < h ->
    (forall j, In j js -> j < w /\ is_open structure i j <> None) ->
    exists line, print_cells structure letters i js = Ok line.
Proof.
  intros h w structure letters i js Hs Hi.
  induction js as [| j rest IH]; intros Hjs; simpl; [eauto |].
  destruct (Hjs j (or_introl eq_refl)) as [Hj Ho].
  unfold is_open in Ho.
  destruct (nth_error structure i) as [srow |] eqn:Es; [| congruence].
  destruct (nth_error srow j) as [open |] eqn:Eo; [| congruence].
  rewrite (proj2 (list_get_Ok _ structure i srow) Es). cbn beta iota delta [bind].
  rewrite (proj2 (list_get_Ok _ srow j open) Eo). cbn beta iota delta [bind].
  destruct IH as (tl & Etl); [intros j' Hj'; apply Hjs; now right |].
  destruct open.
  - destruct (nth_error letters i) as [lrow |] eqn:El.
    + pose proof (shaped_row h w letters i lrow Hs El) as Hr.
      destruct (nth_error lrow j) as [c |] eqn:Ec.
      * rewrite (proj2 (list_get_Ok _ letters i lrow) El). cbn beta iota delta [bind].
        rewrite (proj2 (list_get_Ok _ lrow j c) Ec). cbn beta iota delta [bind].
        rewrite Etl. cbn beta iota delta [bind]. eauto.
      * apply nth_error_None in Ec. lia.
    + apply nth_error_None in El. destruct Hs. lia.
  - cbn beta iota delta [bind]. rewrite Etl. cbn beta iota delta [bind]. eauto.
Qed.

Lemma print_cells_Raise : forall structure letters i js e,
    print_cells structure letters i js = Raise e -> e = IndexError.
Proof.
  intros structure letters i. induction js as [| j rest IH]; intros e H; simpl in H.
  - discriminate.
  - destruct (list_get structure i) as [srow | e1] eqn:E1; simpl in H;
      [| injection H as <-; eapply list_get_Raise; eauto].
    destruct (list_get srow j) as [open | e2] eqn:E2; simpl in H;
      [| injection H as <-; eapply list_get_Raise; eauto].
    assert (Hrest : forall piece,
               (tl <- print_cells structure letters i rest ;; Ok (piece :: tl))
               = Raise e -> e = IndexError).
    { intros piece Hp.
      destruct (print_cells structure letters i rest) eqn:E; simpl in Hp;
        [discriminate | injection Hp as <-; eauto]. }
    destruct open; [| simpl in H; eauto].
    destruct (list_get letters i) as [lrow | e3] eqn:E3; simpl in H;
      [| injection H as <-; eapply list_get_Raise; eauto].
    destruct (list_get lrow j) as [c | e4] eqn:E4; simpl in H;
      [eauto | injection H as <-; eapply list_get_Raise; eauto].
Qed.

Lemma print_rows_Ok : forall structure letters w rows lines,
    print_rows structure letters w rows = Ok lines ->
    lines = map (fun i => map (printed_piece structure letters i) (seq 0 w)) rows /\
    forall i j, In i rows -> j < w -> is_open structure i j <> None.
Proof.
  intros structure letters w. induction rows as [| i rest IH]; intros lines H;
    simpl in H.
  - inv_Ok. split; [reflexivity | intros i j []].
  - inv_bind H. inv_bind H. inv_Ok.
    destruct (print_cells_Ok _ _ _ _ _ E) as [-> Hopen].
    destruct (IH _ E0) as [-> Hopen']. split; [reflexivity |].
    intros i' j [<- | Hi'] Hj; [| auto]. apply Hopen. apply in_seq. lia.
Qed.

Lemma print_rows_total : forall h w structure letters rows,
    shaped h w letters ->
    (forall i, In i rows -> i < h) ->
    (forall i j, In i rows -> j < w -> is_open structure i j <> None) ->
    exists lines, print_rows structure letters w rows = Ok lines.
Proof.
  intros h w structure letters rows Hs.
  induction rows as [| i rest IH]; intros Hrows Hopen; simpl; [eauto |].
  destruct (print_cells_total h w structure letters i (seq 0 w) Hs) as (line & ->).
  - apply Hrows. now left.
  - intros j Hj. apply in_seq in Hj. split; [lia |]. apply Hopen; [now left | lia].
  - cbn beta iota delta [bind].
    destruct IH as (tl & ->); [intros; apply Hrows; now right
                              | intros; apply Hopen; [now right | assumption] |].
    cbn beta iota delta [bind]. eauto.
Qed.

Lemma print_rows_Raise : forall structure letters w rows e,
    print_rows structure letters w rows = Raise e -> e = IndexError.
Proof.
  intros structure letters w. induction rows as [| i rest IH]; intros e H; simpl in H.
  - discriminate.
  - destruct (print_cells structure letters i (seq 0 w)) eqn:E; simpl in H;
      [| injection H as <-; eapply print_cells_Raise; eauto].
    destruct (print_rows structure letters w rest) eqn:E'; simpl in H;
      [discriminate | injection H as <-; eauto].
Qed.

(** X20: when [print] returns it has written [height] lines of [width]
    pieces; the piece for cell (i, j) is the block where [structure[i][j]]
    is false, else the letter [letter_grid] holds there, or a blank.  It
    returns whenever [letter_grid] does and [structure] has an entry for
    every cell; the only exception it raises is [IndexError]. *)
Theorem print_writes_the_letter_grid :
  forall height width structure a,
    (forall lines,
        print height width structure a = Ok lines ->
        exists g,
          letter_grid height width a = Ok g /\
          lines = map (fun i => map (printed_piece structure g i) (seq 0 width))
                      (seq 0 height)) /\
    (forall g,
        letter_grid height width a = Ok g ->
        (forall i j, i < height -> j < width -> is_open structure i j <> None) ->
        exists lines, print height width structure a = Ok lines) /\
    (forall e, print height width structure a = Raise e -> e = IndexError).
Proof.
  intros h w structure a. unfold print. split; [| split].
  - intros lines H. inv_bind H. exists r. split; [exact E |].
    now apply print_rows_Ok in H.
  - intros g Hg Hopen. rewrite Hg. cbn beta iota delta [bind].
    apply (print_rows_total h w).
    + now apply (letter_grid_shaped h w a g).
    + intros i Hi. apply in_seq in Hi. lia.
    + intros i j Hi Hj. apply in_seq in Hi. apply Hopen; lia.
  - intros e H. destruct (letter_grid h w a) as [g | e1] eqn:Eg; simpl in H.
    + eapply print_rows_Raise; eauto.
    + injection H as <-. unfold letter_grid in Eg. eapply write_words_Raise; eauto.
Qed.

Lemma print_writes_the_letter_grid_witness :
  let structure := [[true; true; true]; [false; true; false]; [false; true; false]] in
  let a := [(slot_down, "art"%string); (slot_across, "cat"%string)] in
  exists g,
    letter_grid 3 3 a = Ok g /\
    [["c"%string; "a"%string; "t"%string];
     [block; "r"%string; block];
     [block; "t"%string; block]]
    = map (fun i => map (printed_piece structure g i) (seq 0 3)) (seq 0 3).
Proof.
  intros structure a.
  destruct (print_writes_the_letter_grid 3 3 structure a) as (H & _ & _).
  apply H. reflexivity.
Defined.
